(* ===== verification/_CoqProject ===== *)
-Q . S2P
Prelude.v
Db.v
Generators.v
Zipfian.v
StdBTree.v
KeyIndices.v
Keys.v
Client.v
Driver.v
Termination.v
Config.v
Props.v
Main.v
