(* ===== verification/Prelude.v ===== *)
(** * A verification development of the [ycsb] load generator (kazuki/rust-practice)

    The program under [src/ycsb/src] is a small YCSB-style benchmark driver:
    a coordinator thread ([main.rs]) spawns [threadcount] worker threads,
    each owning a [Client] ([client.rs]) with its own storage-engine handle
    ([db/std_btree.rs]) and a shared [CoreWorkload] ([workloads/core.rs]);
    the workload builds keys from a shared [Counter] generator
    ([generators/counter.rs]) and field values whose lengths come from a
    [Constant] generator ([generators/constant.rs]); the engine resolves
    field names to column indices through a process-wide registry and
    stores rows in a process-wide [BTreeMap].  The threads meet at a
    [Barrier] of size [threadcount + 1] three times (after setup, after the
    load phase, after the run phase) while the coordinator polls the
    per-worker progress counters.

    ** Files, in dependency order

    - [Prelude]: this header, the [ycsb_scope] notations, machine-integer
      helpers ([wrap_u64], [wrap_i32], [u32_as_i32]), the [ycsb] hint
      database, the tactics [inv_bind] and [bind_none] for chains of
      [option] binds, and the generic lemmas on lists and [sumZ] the
      components share.
    - [Db]: the [DB] trait of [db/mod.rs] as a type class over an explicit
      shared state (the engine's statics) and a per-handle state, and the
      laws a client relies on ([DBLaws]).
    - [Generators]: the [Generator] interface (trait [Generator<u64>]),
      [Constant] and [Counter] ([AtomicU64::fetch_add], wrapping), and the
      interleaving theorem that the values [Counter] hands out to any
      schedule of threads partition [[start, start + N)].
    - [Zipfian]: [generators/zipfian.rs] in IEEE binary64 ([SpecFloat]):
      [zeta], [zetastatic], [new], [new_from_range], [new_from_count] and
      [next].
    - [StdBTree]: the engine [StdBTreeMapMutex] of [db/std_btree.rs]: the
      registry [COLUMN_MAPPING], [COLUMN_MAPPING_LEN], the per-handle
      [columns_cache], the table [MUTEX_INSTANCE], [convert_to_row] with
      its [swap_remove]-driven loop and [insert]; the registry invariant
      over [engine_step] (handles created and inserts made in any order)
      and the multi-handle registry corruption.
    - [KeyIndices]: the unused helper [get_key_indices], as its two
      critical sections, and the race between two callers.
    - [Keys]: [workloads/core.rs]: [Properties], [CoreWorkload::new],
      [build_key] (decimal rendering of a [u64], [i32] zero padding,
      SipHash-1-3 for [insertorder = hashed]), [build_values], [do_insert],
      and the [Workload] trait as a type class.
    - [Client]: [client.rs]: the striping of [recordcount] and
      [operationcount], [setup_initial_data] and [benchmark], proved
      against the [DB] and [Workload] interfaces.
    - [Driver]: [main.rs] after the spawn: the coordinator and the [T]
      workers meeting three times at one [Barrier] of size [T + 1], as an
      actor-indexed step function [step], its relation [dstep] and
      [reachable]; the invariant [dinv], progress, deadlock freedom,
      refinement of [setup_initial_data] by a worker's steps.
    - [Termination]: a measure on the workers' positions that every
      worker action decreases: the workers' closures terminate under every
      schedule.
    - [Config]: [parse_args] of [main.rs]: [-P] files, [-p] overrides and
      the coercion of an override value to an integer, float, boolean or
      string.
    - [Props]: the [serde] derivations of [CoreProperties],
      [ClientProperties] and the workload's [Properties] from the TOML
      table, defaults and type checks included.
    - [Main]: lines 26-35 of [main] and [init_clients]: from the command
      line to the initial state of [Driver], or a configuration error or
      a panic; the theorems compose [Config], [Props], [Keys] and
      [Driver].

    ** Groups of theorems

    Functional behaviour of each operation on every branch ([insert],
    [convert_to_row], [build_key], [do_insert], [stripe_count],
    [parse_args], the deserializers, [Zipfian::new]); invariants preserved
    by every step ([StdBTree]'s registry invariant, [Driver.dinv]) and
    lifted to every reachable state by induction on [rtc]; refinement
    (a worker's steps compute [setup_initial_data]; [Client]'s loops
    against their functional specifications); safety (distinct keys in the
    load phase, the load phase complete whenever the coordinator is past
    it), deadlock freedom (every reachable state short of the end has an
    enabled step), termination of the workers' closures as a bound on
    their actions under every schedule ([Termination]); round trips ([build_key]
    against its decimal parse); bounds ([u64] ranges, the [i32] padding
    overflow).  The behaviours the code has but its comments or the spec
    do not promise (a default configuration that never completes, a
    Zipfian generator that accepts an empty range and a [theta] of 1,
    dividing by zero into an infinite [alpha], string settings
    that [-p] cannot set, the registry corruption of a second handle)
    are theorems too.

    ** Modelling choices

    Machine integers are [Z] with their wrap-around written out
    ([wrap_u64] for [AtomicU64::fetch_add], [u64::wrapping_add] and the
    [.sum()] and [progress * 100] of [show_progress], as a release build
    computes, [wrap_i32] for the [as i32] casts); a [u64] in
    range satisfies [0 <= z < 2^64].  Strings are [String.string]; byte
    buffers are [list Byte.byte].  [HashMap]s are stdpp [gmap]s; [Vec]s
    are lists with stdpp's [!!] and [<[_:=_]>]; the [BTreeMap] table is a
    [gmap string] (its ordering is never observed by the code).  A Rust
    panic (an out-of-range index, a missing map key, a division by zero,
    a failed [unwrap]) is [None] of an [option]-returning definition, or
    the [Panic] outcome of [Main.main]; an [Err] returned by [?] is
    [ConfigError].  Locks are modelled by the atomicity of the steps:
    each step is one critical section or one atomic instruction.  [f64]
    arithmetic of [Zipfian] is [SpecFloat] binary64; the [f64] fields of
    the workload's properties are primitive floats.

    ** Fuel and bounds

    Every loop of the code is a [Fixpoint] on a [nat] counter that the
    code's own loop bound determines ([Z.to_nat] of a stripe, of
    [recordcount], or of the length of the value list); [dec_digits] has
    20 digits of fuel, enough for every [u64] ([Keys.u64_to_string_parse]
    reads the number back); [zeta]'s loop runs [Z.to_nat (n - st)] times, as the
    code's [for i in st..n].  No theorem depends on fuel running out.

    ** What is not modelled, and why

    The functions the code only calls are [Section] variables: the file
    I/O and TOML parsing of [-P] ([load]), the decimal reading of a float
    literal ([f64_of_literal]), the libm [pow] of [f64::powf] ([powf]),
    and the random streams of [thread_rng] ([rngs]).  Printing and
    [thread::sleep] have no effect on the state.  [StdBTreeMapRwLock] is
    an empty struct without an implementation.  The lock-level
    interleavings inside one [do_insert] are not separate steps: the
    engine's [Mutex] and [RwLock] make each [insert] one critical section
    except for the registry race, which [KeyIndices] and
    [StdBTree]'s multi-handle theorems state on their own.
*)

From stdpp Require Export base gmap strings list.
From Stdlib Require Export ZArith Lia.

Declare Scope ycsb_scope.
Delimit Scope ycsb_scope with ycsb.
Open Scope Z_scope.

(** ** Machine integers *)

(** Width of the machine words the program uses. *)
Definition u64_modulus : Z := 2 ^ 64.
Definition u32_modulus : Z := 2 ^ 32.

(** Wrap-around of a [u64] ([wrapping_add], [fetch_add] on [AtomicU64]). *)
Definition wrap_u64 (z : Z) : Z := z mod u64_modulus.

(** The two's-complement reading of a 32-bit pattern: [x as i32] for a
    [u32], and the wrapping result of [i32] arithmetic. *)
Definition wrap_i32 (z : Z) : Z := (z + 2 ^ 31) mod u32_modulus - 2 ^ 31.

(** [x as i32] for [x : u32]. *)
Definition u32_as_i32 (x : Z) : Z := wrap_i32 x.

Definition is_u64 (z : Z) : bool := (0 <=? z) && (z <? u64_modulus).
Definition is_u32 (z : Z) : bool := (0 <=? z) && (z <? u32_modulus).

Notation "a +w b" := (wrap_u64 (a + b)) (at level 50, left associativity) : ycsb_scope.

(** ** Hint database of the development *)

Create HintDb ycsb discriminated.
Create Rewrite HintDb ycsb_rw.
#[export] Hint Constants Transparent : ycsb.
#[export] Hint Variables Transparent : ycsb.
#[export] Hint Projections Transparent : ycsb.

Lemma is_u64_spec z : is_u64 z = true <-> 0 <= z < 2 ^ 64.
Proof. unfold is_u64, u64_modulus. rewrite andb_true_iff, Z.leb_le, Z.ltb_lt. lia. Qed.

Lemma wrap_u64_range z : 0 <= wrap_u64 z < 2 ^ 64.
Proof. unfold wrap_u64, u64_modulus. apply Z.mod_pos_bound. lia. Qed.

Lemma wrap_u64_small z : 0 <= z < 2 ^ 64 -> wrap_u64 z = z.
Proof. intros. unfold wrap_u64, u64_modulus. apply Z.mod_small. lia. Qed.

Lemma wrap_i32_small z : - 2 ^ 31 <= z < 2 ^ 31 -> wrap_i32 z = z.
Proof.
  intros. unfold wrap_i32, u32_modulus.
  rewrite Z.mod_small by lia. lia.
Qed.

Lemma wrap_i32_range z : - 2 ^ 31 <= wrap_i32 z < 2 ^ 31.
Proof.
  unfold wrap_i32, u32_modulus.
  pose proof (Z.mod_pos_bound (z + 2 ^ 31) (2 ^ 32)). lia.
Qed.

(** [x as i32] is the identity on [u32] values below [2^31], and
    negative on the upper half. *)
Lemma u32_as_i32_low x : 0 <= x < 2 ^ 31 -> u32_as_i32 x = x.
Proof. intros. apply wrap_i32_small. lia. Qed.

Lemma u32_as_i32_high x : 2 ^ 31 <= x < 2 ^ 32 -> u32_as_i32 x = x - 2 ^ 32.
Proof.
  intros. unfold u32_as_i32, wrap_i32, u32_modulus.
  assert (Hm : (x + 2 ^ 31) mod 2 ^ 32 = x + 2 ^ 31 - 2 ^ 32)
    by (symmetry; apply Z.mod_unique with 1; lia).
  rewrite Hm. lia.
Qed.

Lemma wrap_u64_add_wrap_l a b : wrap_u64 (wrap_u64 a + b) = wrap_u64 (a + b).
Proof. unfold wrap_u64. apply Zplus_mod_idemp_l. Qed.

#[export] Hint Resolve wrap_u64_range wrap_i32_range : ycsb.
#[export] Hint Rewrite wrap_u64_small wrap_i32_small using lia : ycsb_rw.

(** ** Generic list lemmas *)

Section lists.
Context {A : Type}.
Implicit Types (l : list A) (x : A).

Lemma lookup_snoc_last l x : (l ++ [x]) !! length l = Some x.
Proof. rewrite lookup_app_r by lia. by rewrite Nat.sub_diag. Qed.

Lemma lookup_snoc_lt l x i : (i < length l)%nat -> (l ++ [x]) !! i = l !! i.
Proof. apply lookup_app_l. Qed.

Lemma length_snoc l x : length (l ++ [x]) = S (length l).
Proof. rewrite length_app. simpl. lia. Qed.

(** Induction for loops that consume one or two elements per iteration
    (a flag and its argument). *)
Lemma list_ind2 (P : list A -> Prop) :
  P [] -> (forall x, P [x]) -> (forall x y l, P l -> P (y :: l) -> P (x :: y :: l)) ->
  forall l, P l.
Proof.
  intros H0 H1 H2 l. cut (P l /\ forall x, P (x :: l)); [by intros []|].
  induction l as [|y l [IH1 IH2]]; split; auto.
Qed.
End lists.

#[export] Hint Rewrite @lookup_snoc_last @length_snoc @length_replicate @length_app : ycsb_rw.

(** ** Generic string lemmas ([String.append] is [+:+]) *)

Lemma string_app_nil_r (s : string) : s +:+ EmptyString = s.
Proof. induction s as [|c s IH]; [done|]. exact (f_equal (String c) IH). Qed.

Lemma string_app_assoc (s1 s2 s3 : string) : s1 +:+ (s2 +:+ s3) = (s1 +:+ s2) +:+ s3.
Proof. induction s1 as [|c s1 IH]; [done|]. exact (f_equal (String c) IH). Qed.

Lemma string_length_app (s1 s2 : string) :
  String.length (s1 +:+ s2) = (String.length s1 + String.length s2)%nat.
Proof. induction s1 as [|c s1 IH]; [done|]. exact (f_equal S IH). Qed.

Lemma string_app_inj_l (s s1 s2 : string) : s +:+ s1 = s +:+ s2 -> s1 = s2.
Proof. induction s; simpl; [done|]. intros [= ?]. auto. Qed.

#[export] Hint Rewrite string_app_nil_r string_length_app : ycsb_rw.

(** Selecting a branch by rewriting rather than by conversion, so that
    the kernel never compares a stuck [if] with an expensive function
    application. *)
Lemma if_negb_false {A} (a b : A) : (if negb false then a else b) = a.
Proof. reflexivity. Qed.

Lemma if_negb_true {A} (a b : A) : (if negb true then a else b) = b.
Proof. reflexivity. Qed.

(** Distinctness transported along a function that reflects equality. *)
Lemma NoDup_map_reflect {A B C} (f : A -> B) (g : A -> C) (l : list A) :
  (forall x y, f x = f y -> g x = g y) -> NoDup (map g l) -> NoDup (map f l).
Proof.
  intros Hfg. induction l as [|x l IH]; simpl; [constructor|].
  intros [Hx Hnd]%NoDup_cons. constructor; [|auto].
  intros [y [Hy Hin]]%list_elem_of_fmap. apply Hx, list_elem_of_fmap.
  exists y. split; [auto|done].
Qed.

(** Sum of a [Z]-valued function over a list. *)
Definition sumZ {A} (f : A -> Z) (l : list A) : Z := fold_right (fun a s => f a + s) 0 l.

Lemma sumZ_app {A} (f : A -> Z) l1 l2 : sumZ f (l1 ++ l2) = sumZ f l1 + sumZ f l2.
Proof. induction l1; simpl; lia. Qed.

Lemma sumZ_ext {A} (f g : A -> Z) l :
  (forall a, a ∈ l -> f a = g a) -> sumZ f l = sumZ g l.
Proof.
  induction l as [|a l IH]; intros Hfg; simpl; [done|].
  rewrite Hfg by set_solver. rewrite IH; [done|]. set_solver.
Qed.

Lemma sumZ_insert {A} (f : A -> Z) l i x y :
  l !! i = Some x -> sumZ f (<[i := y]> l) = sumZ f l - f x + f y.
Proof.
  revert i. induction l as [|a l IH]; intros [|i] Hi; simplify_eq/=; [lia|].
  rewrite (IH i Hi). lia.
Qed.

Lemma sumZ_map {A B} (f : B -> Z) (g : A -> B) l : sumZ f (map g l) = sumZ (fun a => f (g a)) l.
Proof. induction l; simpl; lia. Qed.

Lemma sumZ_le {A} (f g : A -> Z) l :
  (forall a, a ∈ l -> f a <= g a) -> sumZ f l <= sumZ g l.
Proof.
  induction l as [|a l IH]; intros Hfg; simpl; [lia|].
  assert (f a <= g a) by (apply Hfg; set_solver).
  assert (sumZ f l <= sumZ g l) by (apply IH; intros; apply Hfg; set_solver). lia.
Qed.

(** Pointwise below and equal in sum: equal at every point. *)
Lemma sumZ_le_eq {A} (f g : A -> Z) l :
  (forall a, a ∈ l -> f a <= g a) -> sumZ f l = sumZ g l -> forall a, a ∈ l -> f a = g a.
Proof.
  induction l as [|a l IH]; intros Hfg Heq b Hb; [set_solver|]. simpl in Heq.
  assert (sumZ f l <= sumZ g l) by (apply sumZ_le; set_solver).
  assert (f a <= g a) by set_solver.
  apply elem_of_cons in Hb as [->|Hb]; [lia|]. apply IH; [set_solver|lia|done].
Qed.

Lemma sumZ_fmap {A B} (f : B -> Z) (g : A -> B) (l : list A) :
  sumZ f (g <$> l) = sumZ (fun a => f (g a)) l.
Proof. induction l as [|a l IH]; [done|]. rewrite fmap_cons. simpl. lia. Qed.

(** A sum over a list whose [i]-th element contributes [g (n + i)]. *)
Lemma sumZ_lookup_seqZ {A} (f : A -> Z) (g : Z -> Z) l n :
  (forall i x, l !! i = Some x -> f x = g (n + Z.of_nat i)) ->
  sumZ f l = sumZ g (seqZ n (Z.of_nat (length l))).
Proof.
  revert n. induction l as [|x l IH]; intros n Hl; simpl; [done|].
  rewrite Nat2Z.inj_succ, seqZ_cons, Z.pred_succ by lia. simpl.
  rewrite (Hl 0%nat x eq_refl), Z.add_0_r, (IH (Z.succ n)); [done|].
  intros i y Hy. rewrite (Hl (S i) y Hy). f_equal. lia.
Qed.

Lemma sumZ_plus {A} (f g : A -> Z) l : sumZ (fun a => f a + g a) l = sumZ f l + sumZ g l.
Proof. induction l; simpl; lia. Qed.

Lemma sumZ_scale {A} (c : Z) (f : A -> Z) l : sumZ (fun a => c * f a) l = c * sumZ f l.
Proof. induction l; simpl; lia. Qed.

Lemma sumZ_const {A} (c : Z) (l : list A) : sumZ (fun _ => c) l = c * Z.of_nat (length l).
Proof. induction l; simpl length; simpl sumZ; lia. Qed.

Lemma sumZ_nonneg {A} (f : A -> Z) l : (forall a, 0 <= f a) -> 0 <= sumZ f l.
Proof. intros Hf. induction l as [|a l IH]; simpl; [lia|]. specialize (Hf a). lia. Qed.

#[export] Hint Rewrite @sumZ_app @sumZ_map @sumZ_plus @sumZ_scale @sumZ_const : ycsb_rw.

(** Closes goals about concrete machine integers and lists. *)
Ltac ycsb_arith := unfold u64_modulus, u32_modulus in *; lia.

(** Splits every hypothesis [m ≫= f = Some y] of the option monad into
    [m = Some x] and [f x = Some y]. *)
Ltac inv_bind :=
  repeat match goal with
  | H : mbind _ ?m = Some _ |- _ =>
      let E := fresh "E" in destruct m eqn:E; [simpl in H | discriminate H]
  end.

(** Closes [m1 ≫= .. ≫= None ≫= .. = None] by walking the binds. *)
Ltac bind_none :=
  first [ reflexivity
        | lazymatch goal with |- mbind _ ?m = None => destruct m; simpl; bind_none end ].
