(* ===== verification/Db.v ===== *)
(** The storage-engine interface of [src/ycsb/src/db/mod.rs]: the value
    list handed to [insert] and the [DB] trait, as a type class over an
    explicit shared state (the engine's process-wide statics) and a
    per-handle state (the struct implementing the trait).  The laws a
    client relies on form a second class, [DBLaws], discharged by
    [StdBTree] and used by [Client]. *)

From S2P Require Import Prelude.

(** [Result<T, E>] of the Rust code. *)
Inductive result (T E : Type) : Type :=
| Ok (t : T)
| Err (e : E).
Arguments Ok {T E} t.
Arguments Err {T E} e.

(** Byte buffers [Vec<u8>]. *)
Definition bytes : Type := list Byte.byte.

(** [pub type ValueListType = Vec<(String, Vec<u8>)>;] *)
Definition ValueListType : Type := list (string * bytes).

(** [pub trait DB { fn new(props: Table) -> Self;
      fn insert(&mut self, table: &str, key: String, values: ValueListType)
        -> Result<(), ()>; }]
    [insert] reads and writes the shared state [S] and the handle [H];
    [None] is a panic inside [insert]. The [props] of [new] are ignored by
    the only implementation and are not modelled. *)
Class DB (S H : Type) := {
  db_new : H;
  db_insert : S -> H -> string -> string -> ValueListType -> option (S * H * result unit unit)
}.

(** What a client of the trait may assume: an invariant of the shared
    state and one of each handle relative to it, established by [new],
    under which [insert] never panics, preserves both invariants and keeps
    the invariant of every other handle that shares the state; and the
    set of keys the table holds, to which [insert] adds its key. *)
Class DBLaws (S H : Type) `{!DB S H} := {
  db_shared_inv : S -> Prop;
  db_handle_inv : S -> H -> Prop;
  db_keys : S -> gset string;
  db_insert_keys : forall s h table key vs s' h' r,
    db_insert s h table key vs = Some (s', h', r) -> db_keys s' = {[key]} ∪ db_keys s;
  db_inv_new : forall s, db_shared_inv s -> db_handle_inv s db_new;
  db_insert_total : forall s h table key vs,
    db_shared_inv s -> db_handle_inv s h ->
    exists s' h' r, db_insert s h table key vs = Some (s', h', r) /\
      db_shared_inv s' /\ db_handle_inv s' h' /\
      (forall h2, db_handle_inv s h2 -> db_handle_inv s' h2)
}.
