(* ===== verification/Generators.v ===== *)
(** The number generators of [src/ycsb/src/generators]: the
    [Generator<u64>] trait as the type class [Generator] over an explicit
    generator state (the Rust [next] takes [&self] and mutates through an
    atomic, so the state is threaded through every call), [Constant]
    ([constant.rs]) and [Counter] ([counter.rs]).  [Counter::next] is one
    [fetch_add] on an [AtomicU64]: an atomic read-modify-write, so any
    interleaving of calls from several threads is a sequence of calls on
    one shared state; [run_schedule] models such an interleaving and the
    main theorem states that the values handed out are exactly the range
    [[start, start + N)], each once. *)

From S2P Require Import Prelude.

(** [pub trait Generator<T> { fn next(&self) -> T; }] at [T = u64]: the
    value returned and the generator's state after the call. *)
Class Generator (G : Type) := gen_next : G -> Z * G.

Module Constant.
(** [pub struct Constant { value: u64 }] *)
Record Constant := mkConstant { value : Z }.

(** [Constant::new] *)
Definition new (v : Z) : Constant := mkConstant v.

(** [fn next(&self) -> u64 { self.value }] *)
Definition next (c : Constant) : Z * Constant := (value c, c).

#[export] Instance Constant_Generator : Generator Constant := next.
End Constant.

Module Counter.
(** [pub struct Counter { counter: AtomicU64 }] *)
Record Counter := mkCounter { counter : Z }.

(** [Counter::new(start)] *)
Definition new (start : Z) : Counter := mkCounter start.

(** [self.counter.fetch_add(1, Ordering::Relaxed)]: returns the old
    value and stores the wrapped successor. *)
Definition next (c : Counter) : Z * Counter :=
  (counter c, mkCounter (counter c +w 1)%ycsb).

#[export] Instance Counter_Generator : Generator Counter := next.

(** An interleaving of [next] calls: the schedule lists, in the order of
    the atomic [fetch_add]s, the thread that made each call; the result
    is the final counter and the trace of (thread, value received). *)
Fixpoint run_schedule (sched : list nat) (c : Counter) : Counter * list (nat * Z) :=
  match sched with
  | [] => (c, [])
  | t :: rest =>
      let '(v, c') := next c in
      let '(cf, tr) := run_schedule rest c' in
      (cf, (t, v) :: tr)
  end.

(** The values received by thread [t], in the order it received them. *)
Definition received (t : nat) (tr : list (nat * Z)) : list Z :=
  map snd (filter (fun p => p.1 = t) tr).
End Counter.

Module CounterFacts.
Import Counter.

Lemma wrap_u64_succ_add c i :
  wrap_u64 (wrap_u64 (c + 1) + i) = wrap_u64 (c + (1 + i)).
Proof. unfold wrap_u64. rewrite Zplus_mod_idemp_l. f_equal. lia. Qed.

(** The [k]-th [fetch_add] of any interleaving returns [start + k]
    (wrapped), whichever thread performs it, and the counter ends at
    [start + N] (wrapped). *)
Lemma run_schedule_wrapped sched c :
  0 <= counter c < 2 ^ 64 ->
  map snd (run_schedule sched c).2 =
    map (fun i => wrap_u64 (counter c + i)) (seqZ 0 (Z.of_nat (length sched))) /\
  counter (run_schedule sched c).1 = wrap_u64 (counter c + Z.of_nat (length sched)).
Proof.
  revert c. induction sched as [|t sched IH]; intros c Hc; simpl.
  - rewrite Z.add_0_r, wrap_u64_small by lia. done.
  - destruct (IH (mkCounter (counter c +w 1)%ycsb)) as [IH1 IH2];
      [apply wrap_u64_range|].
    destruct (run_schedule sched _) as [cf tr] eqn:E. simpl in *.
    rewrite seqZ_cons by lia. simpl.
    rewrite Z.add_0_r, wrap_u64_small by lia.
    split.
    + f_equal. rewrite IH1.
      replace (Z.pred (Z.of_nat (S (length sched)))) with (Z.of_nat (length sched)) by lia.
      change (Z.succ 0) with (1 + 0). rewrite <- (fmap_add_seqZ 1 0).
      change (Z.add 1 <$> ?l) with (map (Z.add 1) l). rewrite map_map.
      apply map_ext. intros i. apply wrap_u64_succ_add.
    + rewrite IH2, wrap_u64_succ_add. f_equal. lia.
Qed.

Lemma wrapped_seqZ_small start n :
  0 <= start -> start + n <= 2 ^ 64 ->
  map (fun i => wrap_u64 (start + i)) (seqZ 0 n) = seqZ start n.
Proof.
  intros. rewrite <- (Z.add_0_r start), <- fmap_add_seqZ, Z.add_0_r.
  change (Z.add start <$> ?l) with (map (Z.add start) l).
  apply map_ext_in. intros i Hi%list_elem_of_In%elem_of_seqZ.
  apply wrap_u64_small. lia.
Qed.

Lemma received_elem t x tr : x ∈ received t tr <-> (t, x) ∈ tr.
Proof.
  unfold received. rewrite list_elem_of_fmap. split.
  - intros [[t' x'] [-> Hin]]. apply list_elem_of_filter in Hin.
    simpl in *. naive_solver.
  - intros Hin. exists (t, x). rewrite list_elem_of_filter. naive_solver.
Qed.

Lemma nodup_snd_functional (tr : list (nat * Z)) t1 t2 x :
  NoDup (map snd tr) -> (t1, x) ∈ tr -> (t2, x) ∈ tr -> t1 = t2.
Proof.
  induction tr as [|[t y] tr IH]; simpl; intros Hnd H1 H2; [set_solver|].
  apply NoDup_cons in Hnd as [Hy Hnd].
  rewrite !elem_of_cons in H1, H2.
  assert (Hnin : forall t', (t', y) ∉ tr).
  { intros t' Hin. apply Hy. apply list_elem_of_fmap. by exists (t', y). }
  destruct H1 as [[=] | H1], H2 as [[=] | H2]; subst; eauto;
    exfalso; by eapply Hnin.
Qed.
End CounterFacts.

Import Counter CounterFacts.

Lemma counter_values_seqZ sched start :
  0 <= start < 2 ^ 64 -> start + Z.of_nat (length sched) <= 2 ^ 64 ->
  map snd (run_schedule sched (new start)).2 = seqZ start (Z.of_nat (length sched)).
Proof.
  intros. destruct (run_schedule_wrapped sched (new start)) as [H1 _]; [simpl; lia|].
  rewrite H1. apply wrapped_seqZ_small; simpl; lia.
Qed.

(** C12: under any interleaving of [N] calls to [Counter::next] from any
    number of threads, with no [u64] overflow, the [k]-th atomic
    [fetch_add] returns [start + k]: the values handed out are exactly
    [start, start+1, ..., start+N-1] in the order of the atomic operations. *)
Theorem counter_schedule_values sched start :
  0 <= start < 2 ^ 64 -> start + Z.of_nat (length sched) <= 2 ^ 64 ->
  map snd (run_schedule sched (new start)).2 = seqZ start (Z.of_nat (length sched)).
Proof. apply counter_values_seqZ. Qed.

(** C6: the KeySequence contract: the values the threads receive from a
    shared [Counter] partition [[start, start + N)]: every value of the
    range is received by some thread, no value is received by two threads,
    and no thread receives a value twice. *)
Theorem counter_exact_partition sched start :
  0 <= start < 2 ^ 64 -> start + Z.of_nat (length sched) <= 2 ^ 64 ->
  let tr := (run_schedule sched (new start)).2 in
  (forall x, start <= x < start + Z.of_nat (length sched) <-> exists t, x ∈ received t tr) /\
  (forall t1 t2 x, x ∈ received t1 tr -> x ∈ received t2 tr -> t1 = t2) /\
  (forall t, NoDup (received t tr)).
Proof.
  intros Hs Hn tr. pose proof (counter_values_seqZ sched start Hs Hn) as Hv.
  fold tr in Hv.
  assert (Hnd : NoDup (map snd tr)) by (rewrite Hv; apply NoDup_seqZ).
  split; [|split].
  - intros x. rewrite <- elem_of_seqZ, <- Hv, list_elem_of_fmap. split.
    + intros [[t y] [-> Hin]]. exists t. by apply received_elem.
    + intros [t Hin%received_elem]. by exists (t, x).
  - intros t1 t2 x H1%received_elem H2%received_elem.
    by eapply nodup_snd_functional.
  - intros t. unfold received.
    eapply sublist_NoDup; [exact Hnd|]. apply fmap_sublist, sublist_filter.
Qed.

(** Witnesses: three calls from threads 0, 1, 0 on a counter started at 5. *)
Lemma counter_schedule_values_witness :
  map snd (run_schedule [0; 1; 0]%nat (new 5)).2 = seqZ 5 3.
Proof. exact (counter_schedule_values [0; 1; 0]%nat 5 ltac:(lia) ltac:(simpl; lia)). Defined.

Lemma counter_exact_partition_witness :
  let tr := (run_schedule [0; 1; 0]%nat (new 5)).2 in
  (forall x, 5 <= x < 5 + 3 <-> exists t, x ∈ received t tr) /\
  (forall t1 t2 x, x ∈ received t1 tr -> x ∈ received t2 tr -> t1 = t2) /\
  (forall t, NoDup (received t tr)).
Proof. exact (counter_exact_partition [0; 1; 0]%nat 5 ltac:(lia) ltac:(simpl; lia)). Defined.
