(* ===== verification/Zipfian.v ===== *)
(** The Zipfian generator of [src/ycsb/src/generators/zipfian.rs].  Its
    [f64] arithmetic is IEEE-754 binary64 with rounding to nearest even,
    modelled by the Standard Library's executable specification
    [SpecFloat] at [prec = 53], [emax = 1024] (no primitive floats and no
    axioms: every operation computes).  [f64::powf] is the libm [pow]
    function, which the model takes as the [Section] variable [powf]; the
    theorems assume of it only what C99 Annex F requires of [pow] at the
    points they use.  The uniform draw [thread_rng().gen::<f64>()] is an
    input of [next]; [unit_f64] is how [rand] turns a random [u64] into
    it.  [u64] arithmetic wraps (a release build), and [x as u64] on an
    [f64] saturates, as Rust defines it. *)

From S2P Require Import Prelude Generators.
From Stdlib Require Import Floats.SpecFloat.

(** ** Binary64 *)
Module F64.
Import SpecFloat.

Definition prec : Z := 53.
Definition emax : Z := 1024.

(** [f64] *)
Definition f64 : Type := spec_float.

Definition fadd : f64 -> f64 -> f64 := SFadd prec emax.
Definition fsub : f64 -> f64 -> f64 := SFsub prec emax.
Definition fmul : f64 -> f64 -> f64 := SFmul prec emax.
Definition fdiv : f64 -> f64 -> f64 := SFdiv prec emax.
(** [<] on [f64]: false when either side is NaN. *)
Definition flt : f64 -> f64 -> bool := SFltb.

(** The binary64 value nearest to [m * 2^e]: an [f64] literal, and
    [n as f64] on an integer [n] (with [e = 0]). *)
Definition lit (m e : Z) : f64 := binary_normalize prec emax m e false.
Definition of_u64 (n : Z) : f64 := lit n 0.

Definition zero : f64 := S754_zero false.
Definition one : f64 := lit 1 0.
Definition two : f64 := lit 2 0.
Definition half : f64 := lit 1 (-1).

(** [x as u64] on an [f64]: truncation toward zero, saturating at both
    ends; NaN gives 0. *)
Definition to_u64 (x : f64) : Z :=
  match x with
  | S754_finite false m e => Z.min (Z.shiftl (Z.pos m) e) (2 ^ 64 - 1)
  | S754_infinity false => 2 ^ 64 - 1
  | _ => 0
  end.

(** A representation the arithmetic can produce: a valid encoding, and
    neither NaN nor an infinity. *)
Definition is_finite (x : f64) : bool :=
  match x with
  | S754_zero _ => true
  | S754_finite _ _ _ => valid_binary prec emax x
  | _ => false
  end.

(** [rand]'s [Standard] distribution for [f64]: the high 53 bits of a
    random [u64], scaled by [2^-53]. *)
Definition unit_f64 (w : Z) : f64 := fmul (lit 1 (-53)) (of_u64 (Z.shiftr w 11)).

End F64.

Module Zipfian.
Import F64.

(** [pub struct Zipfian]; the commented-out fields are not there. *)
Record Zipfian := mkZipfian {
  items : Z;
  base : Z;
  alpha : f64;
  zetan : f64;
  eta : f64;
  theta : f64
}.

(** [const ZIPFIAN_CONSTANT: f64 = 0.99]: the binary64 value nearest to
    [99/100]. *)
Definition ZIPFIAN_CONSTANT : f64 := fdiv (lit 99 0) (lit 100 0).

Section Pow.
(** [f64::powf] *)
Variable powf : f64 -> f64 -> f64.

(** The [for i in st..n] loop of [zetastatic]: [fuel] iterations left,
    the loop variable [i] and the running [sum]. *)
Fixpoint zeta_loop (fuel : nat) (i : Z) (theta sum : f64) : f64 :=
  match fuel with
  | O => sum
  | Datatypes.S k => zeta_loop k (i + 1) theta (fadd sum (fdiv one (powf (of_u64 (i + 1)) theta)))
  end.

(** [fn zetastatic(st, n, theta, initialsum)]: the range [st..n] is
    empty when [n <= st]. *)
Definition zetastatic (st n : Z) (theta initialsum : f64) : f64 :=
  zeta_loop (Z.to_nat (n - st)) st theta initialsum.

(** [fn zeta(n, theta_value)] *)
Definition zeta (n : Z) (theta_value : f64) : f64 := zetastatic 0 n theta_value zero.

(** [Zipfian::new]: the [zetan] argument is shadowed by the value
    recomputed on line 33 and never read. *)
Definition new (min max : Z) (constant : f64) (zetan : f64) : Zipfian :=
  let zetan := zetastatic 0 (wrap_u64 (max - min + 1)) constant zero in
  let items := wrap_u64 (max - min + 1) in
  let theta := constant in
  let zeta2theta := zeta 2 theta in
  {| items := items;
     base := min;
     theta := theta;
     alpha := fdiv one (fsub one theta);
     zetan := zetan;
     eta := fdiv (powf (fsub one (fdiv two (of_u64 items))) (fsub one theta))
                 (fsub one (fdiv zeta2theta zetan)) |}.

(** [Zipfian::new_from_range] *)
Definition new_from_range (min max : Z) : Zipfian :=
  new min max ZIPFIAN_CONSTANT
    (zetastatic 0 (wrap_u64 (max - min + 1)) ZIPFIAN_CONSTANT zero).

(** [Zipfian::new_from_count]: [items - 1] wraps for [items = 0]. *)
Definition new_from_count (items : Z) : Zipfian := new_from_range 0 (wrap_u64 (items - 1)).

(** [Generator::next] on the uniform draw [u] of line 70. *)
Definition next (z : Zipfian) (u : f64) : Z :=
  let uz := fmul u (zetan z) in
  if flt uz one then base z
  else if flt uz (fadd one (powf half (theta z))) then wrap_u64 (base z + 1)
  else wrap_u64 (base z + to_u64 (fmul (of_u64 (items z))
                                      (powf (fadd (fsub (fmul (eta z) u) (eta z)) one) (alpha z)))).

(** The generator with its thread's random stream: the [u64]s
    [thread_rng()] hands out, from position [zd_pos] on. *)
Record Draws := mkDraws { zd_zipf : Zipfian; zd_words : nat -> Z; zd_pos : nat }.

#[export] Instance Zipfian_Generator : Generator Draws := fun d =>
  (next (zd_zipf d) (unit_f64 (zd_words d (zd_pos d))),
   mkDraws (zd_zipf d) (zd_words d) (Datatypes.S (zd_pos d))).

End Pow.

End Zipfian.

Module ZipfianFacts.
Import SpecFloat F64 Zipfian.

(** ** Binary64 lemmas *)

Lemma digits2_iter_xO k m :
  Z.pos (digits2_pos (Nat.iter k xO m)) = Z.pos (digits2_pos m) + Z.of_nat k.
Proof. induction k; simpl Nat.iter; [lia|]. cbn [digits2_pos]. rewrite Pos2Z.inj_succ, IHk. lia. Qed.

(** Multiplying a valid finite value by [1.0] is exact. *)
Lemma fmul_one_finite s m e :
  bounded prec emax m e = true -> fmul (S754_finite s m e) one = S754_finite s m e.
Proof.
  unfold bounded, canonical_mantissa. intros [Hc Hb]%andb_prop.
  apply Z.eqb_eq in Hc. apply Z.leb_le in Hb.
  assert (E : (m * 4503599627370496 = Nat.iter 52 xO m)%positive)
    by (rewrite !Pos.mul_xO_r, Pos.mul_1_r; reflexivity).
  change one with (S754_finite false 4503599627370496 (-52)).
  unfold fmul. cbn [SFmul]. rewrite E.
  unfold binary_round_aux, shr_fexp. cbn [Zdigits2]. rewrite digits2_iter_xO.
  replace (fexp prec emax (Z.pos (digits2_pos m) + Z.of_nat 52 + (e + -52))) with e
    by (rewrite <- Hc; f_equal; lia).
  replace (e - (e + -52)) with 52 by lia. cbn -[Z.add Z.sub Z.leb fexp].
  replace (e + -52 + 52) with e by lia. rewrite Hc, Z.sub_diag. cbn [shr shr_m].
  apply Z.leb_le in Hb. rewrite Hb, Bool.xorb_false_r. reflexivity.
Qed.

Lemma fmul_one_r u : is_finite u = true -> fmul u one = u.
Proof.
  destruct u as [s|s| |s m e]; simpl; try done.
  - intros _. by rewrite Bool.xorb_false_r.
  - apply fmul_one_finite.
Qed.

(** A finite value times zero is a zero, which is below [1.0]. *)
Lemma fmul_zero_r u s : is_finite u = true -> exists s', fmul u (S754_zero s) = S754_zero s'.
Proof. destruct u; simpl; try done; eauto. Qed.

Lemma flt_zero_one s : flt (S754_zero s) one = true.
Proof. by destruct s. Qed.

Lemma zetastatic_empty powf st n theta sum : n <= st -> zetastatic powf st n theta sum = sum.
Proof. intros. unfold zetastatic. by replace (Z.to_nat (n - st)) with 0%nat by lia. Qed.

(** [zeta(1, theta) = 1.0 / 1.0.powf(theta)], which is [1.0] where
    [pow(1, y) = 1] (C99 F.9.4.4). *)
Lemma zetastatic_one powf theta :
  powf one theta = one -> zetastatic powf 0 1 theta zero = one.
Proof.
  intros Hp. unfold zetastatic. change (Z.to_nat (1 - 0)) with 1%nat. cbn [zeta_loop].
  change (of_u64 (0 + 1)) with one. rewrite Hp. vm_compute. reflexivity.
Qed.

(** The literal [0.99] of line 18: mantissa [0x1fae147ae147ae], exponent
    [-53]. *)
Lemma ZIPFIAN_CONSTANT_bits : ZIPFIAN_CONSTANT = S754_finite false 8917127262193582 (-53).
Proof. vm_compute. reflexivity. Qed.

(** C19: With one item ([min = max]) and a [powf] with [pow(1, y) = 1] as
    C99 Annex F requires, every draw [u] in [[0, 1)] (any finite value
    below [1.0]) returns [min]: [zetan] is exactly [1.0], so [u * zetan =
    u < 1]. *)
Theorem zipfian_single_item powf min u :
  powf one ZIPFIAN_CONSTANT = one -> is_finite u = true -> flt u one = true ->
  next powf (new_from_range powf min min) u = min.
Proof.
  intros Hp Hu Hlt. unfold next, new_from_range, new. cbn [zetan base].
  replace (wrap_u64 (min - min + 1)) with 1 by (rewrite Z.sub_diag; reflexivity).
  rewrite zetastatic_one, fmul_one_r, Hlt by done. reflexivity.
Qed.

(** C20: When [max - min + 1] wraps to 0 ([new_from_count(0)], or
    [new_from_range(m + 1, m)]), the constructor does not reject the empty
    range: [items] is 0, [zetan] is [0.0], and every finite draw returns
    [min]. *)
Theorem zipfian_empty_range powf min max u :
  wrap_u64 (max - min + 1) = 0 -> is_finite u = true ->
  items (new_from_range powf min max) = 0 /\ next powf (new_from_range powf min max) u = min.
Proof.
  intros Hw Hu. unfold next, new_from_range, new. cbn [zetan base items].
  rewrite Hw, zetastatic_empty by lia. split; [done|].
  unfold zero. destruct (fmul_zero_r u false Hu) as [s ->]. by rewrite flt_zero_one.
Qed.

(** [theta = 1] is not rejected: [new] divides by [1.0 - 1.0 = +0.0]
    and [alpha] is [+inf]. *)
Theorem zipfian_theta_one powf min max z : alpha (new powf min max one z) = S754_infinity false.
Proof. reflexivity. Qed.

(** ** Witnesses *)

Definition pow_one_everywhere : f64 -> f64 -> f64 := fun _ _ => one.

Lemma zipfian_single_item_witness :
  next pow_one_everywhere (new_from_range pow_one_everywhere 42 42) (unit_f64 (2 ^ 63)) = 42.
Proof.
  apply (zipfian_single_item pow_one_everywhere 42 (unit_f64 (2 ^ 63))); vm_compute; reflexivity.
Defined.

Lemma zipfian_empty_range_witness :
  items (new_from_count pow_one_everywhere 0) = 0 /\
  next pow_one_everywhere (new_from_count pow_one_everywhere 0) (unit_f64 12345) = 0.
Proof.
  exact (zipfian_empty_range pow_one_everywhere 0 (wrap_u64 (0 - 1)) (unit_f64 12345)
           eq_refl eq_refl).
Defined.

End ZipfianFacts.
