(* ===== verification/StdBTree.v ===== *)
(** The storage engine of [src/ycsb/src/db/std_btree.rs].

    Three process-wide statics are shared by every engine handle:
    [COLUMN_MAPPING] (a [RwLock] around a [HashMap<String, usize>] and its
    inverse [Vec<String>]), [COLUMN_MAPPING_LEN] (an [AtomicUsize]) and
    [MUTEX_INSTANCE] (a [Mutex] around the [BTreeMap] table); they form the
    record [Globals].  A handle [StdBTreeMapMutex] owns a private
    [columns_cache] of the same type as the registry.  [insert] turns the
    value list into a sparse row with [convert_to_row] and stores it under
    the key, replacing any previous row.

    [convert_to_row] first re-synchronises the cache from the registry
    when the cache's length differs from [COLUMN_MAPPING_LEN], then empties
    the value list with [swap_remove(0)], resolving each name through the
    cache and allocating a fresh registry index on a cache miss.  Each
    critical section is a step of the model; an [insert] is one step of
    the shared-state machine of [Section Interleaving], so that inserts
    of different handles interleave. *)

From S2P Require Import Prelude Db.

Module StdBTree.

(** [type RowValueType = Vec<Option<Vec<u8>>>;] *)
Definition RowValueType : Type := list (option bytes).

(** [type ColumnMappingType = (HashMap<String, usize>, Vec<String>);] *)
Record ColumnMappingType := ColumnMapping {
  cm_index : gmap string nat;
  cm_names : list string
}.

Definition cm_empty : ColumnMappingType := ColumnMapping ∅ [].

(** [x.1.push(name); x.0.insert(name, idx);] *)
Definition cm_push (cm : ColumnMappingType) (name : string) (idx : nat) : ColumnMappingType :=
  ColumnMapping (<[name := idx]> (cm_index cm)) (cm_names cm ++ [name]).

(** The statics [COLUMN_MAPPING_LEN], [COLUMN_MAPPING], [MUTEX_INSTANCE]. *)
Record Globals := mkGlobals {
  COLUMN_MAPPING_LEN : nat;
  COLUMN_MAPPING : ColumnMappingType;
  MUTEX_INSTANCE : gmap string RowValueType
}.

(** The [Lazy] initial values of the statics. *)
Definition globals_init : Globals := mkGlobals 0 cm_empty ∅.

(** [pub struct StdBTreeMapMutex]: the [Arc]s to the statics are the
    same for every handle and live in [Globals]; the handle's own state is
    its cache. *)
Record StdBTreeMapMutex := mkStdBTreeMapMutex { columns_cache : ColumnMappingType }.

(** [StdBTreeMapMutex::new]: an empty cache. *)
Definition new_handle : StdBTreeMapMutex := mkStdBTreeMapMutex cm_empty.

(** ** [convert_to_row] *)

(** The cache refresh, lines 80-86: when [cache.1.len() !=
    n_columns.load()], copy the registry entries
    [cache.1.len() .. x.0.len()] under the read lock; [x.1[i]] and
    [x.0[&x.1[i]]] panic when out of range or absent. *)
Fixpoint sync_from (columns : ColumnMappingType) (idxs : list nat) (cache : ColumnMappingType)
  : option ColumnMappingType :=
  match idxs with
  | [] => Some cache
  | i :: rest =>
      match cm_names columns !! i with
      | None => None
      | Some name =>
          match cm_index columns !! name with
          | None => None
          | Some idx => sync_from columns rest (cm_push cache name idx)
          end
      end
  end.

Definition sync_cache (n_columns : nat) (columns cache : ColumnMappingType)
  : option ColumnMappingType :=
  if decide (length (cm_names cache) ≠ n_columns) then
    sync_from columns
      (seq (length (cm_names cache)) (size (cm_index columns) - length (cm_names cache)))
      cache
  else Some cache.

(** [if row.len() <= idx { row.resize(idx + 1, None); } row[idx] = Some(v);] *)
Definition row_put (row : list (option bytes)) (idx : nat) (v : bytes) : list (option bytes) :=
  let row := if decide (length row <= idx)%nat
             then row ++ replicate (S idx - length row) None else row in
  <[idx := Some v]> row.

(** [Vec::swap_remove(0)]: removes the first element and moves the last
    one into its place; panics on an empty vector. *)
Definition swap_remove0 {A} (l : list A) : option (A * list A) :=
  match l with
  | [] => None
  | x :: rest =>
      match rev rest with
      | [] => Some (x, [])
      | y :: rrest => Some (x, y :: rev rrest)
      end
  end.

(** The locals of the loop of lines 88-107. *)
Record ConvState := mkConvState {
  cs_row : RowValueType;
  cs_n_columns : nat;
  cs_columns : ColumnMappingType;
  cs_cache : ColumnMappingType
}.

(** One iteration for the element [(k, v)] at the front of [values]: a
    cache hit writes the row; a cache miss takes the registry's write lock
    and appends [k] at index [x.1.len()], without consulting [x.0], records
    it in the cache, performs [n_columns.fetch_add(0, ..)] and writes the
    row. *)
Definition place (s : ConvState) (kv : string * bytes) : ConvState :=
  let '(k, v) := kv in
  match cm_index (cs_cache s) !! k with
  | Some idx => mkConvState (row_put (cs_row s) idx v) (cs_n_columns s) (cs_columns s) (cs_cache s)
  | None =>
      let new_idx := length (cm_names (cs_columns s)) in
      mkConvState (row_put (cs_row s) new_idx v) (cs_n_columns s + 0)
        (cm_push (cs_columns s) k new_idx) (cm_push (cs_cache s) k new_idx)
  end.

(** [while !values.is_empty() { ... values.swap_remove(0) ... }]; each
    iteration removes one element, so [length values] iterations suffice
    ([convert_loop_eq_foldl]). *)
Fixpoint convert_loop (fuel : nat) (s : ConvState) (values : ValueListType) : option ConvState :=
  match values with
  | [] => Some s
  | _ :: _ =>
      match fuel with
      | O => None
      | S fuel' =>
          match swap_remove0 values with
          | None => None
          | Some (kv, rest) => convert_loop fuel' (place s kv) rest
          end
      end
  end.

(** [fn convert_to_row(n_columns, columns, cache, values) -> RowValueType],
    returning also the updated registry, cache and [COLUMN_MAPPING_LEN]. *)
Definition convert_to_row (n_columns : nat) (columns cache : ColumnMappingType)
    (values : ValueListType) : option ConvState :=
  let row := replicate (Nat.max (length (cm_names cache)) (length values)) None in
  match sync_cache n_columns columns cache with
  | None => None
  | Some cache' => convert_loop (length values) (mkConvState row n_columns columns cache') values
  end.

(** [impl DB for StdBTreeMapMutex]: [insert] ignores the table name,
    converts the values and replaces the row of [key] in the table. *)
Definition insert (g : Globals) (h : StdBTreeMapMutex) (table key : string)
    (values : ValueListType) : option (Globals * StdBTreeMapMutex * result unit unit) :=
  match convert_to_row (COLUMN_MAPPING_LEN g) (COLUMN_MAPPING g) (columns_cache h) values with
  | None => None
  | Some s =>
      Some (mkGlobals (cs_n_columns s) (cs_columns s) (<[key := cs_row s]> (MUTEX_INSTANCE g)),
            mkStdBTreeMapMutex (cs_cache s), Ok tt)
  end.

#[export] Instance StdBTreeMapMutex_DB : DB Globals StdBTreeMapMutex := {
  db_new := new_handle;
  db_insert := insert
}.

(** The order in which the loop visits the values: [swap_remove(0)]
    takes the first element, then the last, then the one before it, ...
    (a reference definition for [convert_loop_eq_foldl]). *)
Definition visit_order {A} (l : list A) : list A :=
  match l with
  | [] => []
  | x :: rest => x :: rev rest
  end.

(** ** Invariants *)

(** The registry is well formed: the map and the vector agree on every
    name they hold, and the map is no larger than the vector. *)
Definition cm_wf (cm : ColumnMappingType) : Prop :=
  (forall k i, cm_index cm !! k = Some i -> cm_names cm !! i = Some k) /\
  (forall i k, cm_names cm !! i = Some k -> is_Some (cm_index cm !! k)) /\
  (size (cm_index cm) <= length (cm_names cm))%nat.

(** A handle's cache is sound with respect to the registry when every
    cached index is a registry slot holding the cached name. *)
Definition cache_sound (columns cache : ColumnMappingType) : Prop :=
  forall k i, cm_index cache !! k = Some i -> cm_names columns !! i = Some k.

(** A row written for [values] against the registry names [names]: each
    value sits at a slot named by its field, and each present slot holds
    the value of a field of that name. *)
Definition row_sound (names : list string) (row : RowValueType) (values : ValueListType) : Prop :=
  (forall k v, (k, v) ∈ values -> exists i, names !! i = Some k /\ row !! i = Some (Some v)) /\
  (forall j v, row !! j = Some (Some v) -> exists k, (k, v) ∈ values /\ names !! j = Some k).

(** The invariant of the loop state: a well-formed registry and a sound
    cache. *)
Definition conv_inv (s : ConvState) : Prop :=
  cm_wf (cs_columns s) /\ cache_sound (cs_columns s) (cs_cache s).

(** ** Several handles sharing the statics

    Each worker thread creates its own handle ([Client::new] calls
    [T::new]); inserts of different handles interleave.  A step creates a
    handle or runs one [insert] of one handle. *)
Inductive engine_step : Globals * list StdBTreeMapMutex -> Globals * list StdBTreeMapMutex -> Prop :=
| engine_new g hs : engine_step (g, hs) (g, hs ++ [new_handle])
| engine_insert g hs i h table key values g' h' r :
    hs !! i = Some h -> insert g h table key values = Some (g', h', r) ->
    engine_step (g, hs) (g', <[i := h']> hs).

Definition engine_inv (st : Globals * list StdBTreeMapMutex) : Prop :=
  COLUMN_MAPPING_LEN st.1 = 0%nat /\ cm_wf (COLUMN_MAPPING st.1) /\
  Forall (fun h => cache_sound (COLUMN_MAPPING st.1) (columns_cache h)) st.2.

(** An explicit schedule of engine operations, executable. *)
Inductive engine_op :=
| OpNew
| OpInsert (i : nat) (table key : string) (values : ValueListType).

Fixpoint run_engine (ops : list engine_op) (st : Globals * list StdBTreeMapMutex)
  : option (Globals * list StdBTreeMapMutex) :=
  match ops with
  | [] => Some st
  | OpNew :: ops => run_engine ops (st.1, st.2 ++ [new_handle])
  | OpInsert i table key values :: ops =>
      match st.2 !! i with
      | None => None
      | Some h =>
          match insert st.1 h table key values with
          | None => None
          | Some (g', h', _) => run_engine ops (g', <[i := h']> st.2)
          end
      end
  end.

(** With a single handle the cache is the registry itself and the
    registry holds each name once. *)
Definition coherent (g : Globals) (h : StdBTreeMapMutex) : Prop :=
  columns_cache h = COLUMN_MAPPING g /\ cm_wf (COLUMN_MAPPING g) /\
  NoDup (cm_names (COLUMN_MAPPING g)).

End StdBTree.

(** * Properties of the engine *)

Module StdBTreeFacts.
Import StdBTree.

(** ** The [swap_remove] loop *)

Lemma swap_remove0_visit {A} (l : list A) x rest :
  swap_remove0 l = Some (x, rest) ->
  visit_order l = x :: visit_order rest /\ length rest = pred (length l).
Proof.
  destruct l as [|y t]; simpl; [done|].
  destruct (rev t) as [|z rr] eqn:E; intros [= <- <-];
    apply (f_equal length) in E; rewrite length_rev in E; simpl in *.
  - split; [done | lia].
  - rewrite rev_involutive, length_rev. split; [done | lia].
Qed.

Lemma swap_remove0_cons {A} (x : A) l : exists y rest, swap_remove0 (x :: l) = Some (y, rest).
Proof. simpl. destruct (rev l); eauto. Qed.

Lemma visit_order_perm {A} (l : list A) : visit_order l ≡ₚ l.
Proof. destruct l; simpl; [done|]. by rewrite <- Permutation_rev. Qed.

Lemma convert_loop_S fuel s kv values :
  convert_loop (S fuel) s (kv :: values) =
    match swap_remove0 (kv :: values) with
    | None => None
    | Some (kv', rest) => convert_loop fuel (place s kv') rest
    end.
Proof. reflexivity. Qed.

Lemma convert_loop_eq_foldl fuel s values :
  (length values <= fuel)%nat ->
  convert_loop fuel s values = Some (foldl place s (visit_order values)).
Proof.
  revert s values. induction fuel as [|fuel IH]; intros s values Hlen.
  - destruct values; [done | simpl in Hlen; lia].
  - destruct values as [|kv values]; [done|].
    destruct (swap_remove0_cons kv values) as (y & rest & Hsr).
    rewrite convert_loop_S, Hsr.
    destruct (swap_remove0_visit _ _ _ Hsr) as [Hv Hl].
    rewrite Hv. simpl in Hl, Hlen |- *. apply IH. lia.
Qed.

Lemma convert_to_row_fold n columns cache values :
  convert_to_row n columns cache values =
    (fun cache' => foldl place
       (mkConvState (replicate (Nat.max (length (cm_names cache)) (length values)) None)
          n columns cache') (visit_order values)) <$> sync_cache n columns cache.
Proof.
  unfold convert_to_row. destruct (sync_cache _ _ _); simpl; [|done].
  by apply convert_loop_eq_foldl.
Qed.

(** C23: the loop [while !values.is_empty() { .. values.swap_remove(0) .. }]
    always terminates within [length values] iterations and computes the
    same state as applying [place] to the values in [visit_order]: the
    first value, then the others from the last to the second. *)
Theorem convert_loop_visit_order fuel s values :
  (length values <= fuel)%nat ->
  convert_loop fuel s values = Some (foldl place s (visit_order values)).
Proof. apply convert_loop_eq_foldl. Qed.

(** ** The registry invariant *)

Lemma cm_wf_empty : cm_wf cm_empty.
Proof. split_and!; simpl; intros *; rewrite ?lookup_empty; done. Qed.

Lemma cm_push_wf cm k :
  cm_wf cm -> cm_wf (cm_push cm k (length (cm_names cm))).
Proof.
  intros (H1 & H2 & H3). unfold cm_push. split_and!; simpl.
  - intros k' i. rewrite lookup_insert.
    case_decide; intros; simplify_eq; [apply lookup_snoc_last|].
    apply lookup_app_l_Some. eauto.
  - intros i k'. rewrite lookup_insert. case_decide; [done|].
    intros [(_ & Hi) | (_ & ?)]%lookup_snoc_Some; [eauto | congruence].
  - rewrite map_size_insert, length_snoc. destruct (_ !! _); simpl; lia.
Qed.

Lemma cache_sound_prefix columns columns' cache :
  cm_names columns `prefix_of` cm_names columns' ->
  cache_sound columns cache -> cache_sound columns' cache.
Proof. intros Hp Hs k i Hk. eapply prefix_lookup_Some; eauto. Qed.

Lemma cache_sound_push_new columns cache k :
  cache_sound columns cache ->
  cache_sound (cm_push columns k (length (cm_names columns)))
              (cm_push cache k (length (cm_names columns))).
Proof.
  intros Hs k' i. simpl. rewrite lookup_insert. case_decide; intros; simplify_eq.
  - apply lookup_snoc_last.
  - apply lookup_app_l_Some. eauto.
Qed.

Lemma cache_sound_push_sync columns cache name idx :
  cm_wf columns -> cm_index columns !! name = Some idx ->
  cache_sound columns cache -> cache_sound columns (cm_push cache name idx).
Proof.
  intros (H1 & _) Hidx Hs k i. simpl. rewrite lookup_insert.
  case_decide; intros; simplify_eq; eauto.
Qed.

Lemma sync_from_sound columns idxs cache :
  cm_wf columns -> Forall (fun i => i < length (cm_names columns))%nat idxs ->
  cache_sound columns cache ->
  exists cache', sync_from columns idxs cache = Some cache' /\ cache_sound columns cache'.
Proof.
  intros Hwf Hidxs. revert cache.
  induction Hidxs as [|i idxs Hi _ IH]; intros cache Hs; simpl; [eauto|].
  destruct (lookup_lt_is_Some_2 _ _ Hi) as [name Hname]. rewrite Hname.
  destruct (proj1 (proj2 Hwf) _ _ Hname) as [idx Hidx]. rewrite Hidx.
  apply IH. by eapply cache_sound_push_sync.
Qed.

Lemma sync_cache_sound n columns cache :
  cm_wf columns -> cache_sound columns cache ->
  exists cache', sync_cache n columns cache = Some cache' /\ cache_sound columns cache'.
Proof.
  intros Hwf Hs. unfold sync_cache. case_decide; [|eauto].
  apply sync_from_sound; [done| |done].
  apply Forall_forall. intros i Hi.
  apply elem_of_seq in Hi.
  destruct Hwf as (_ & _ & Hsz). lia.
Qed.

(** ** One iteration *)

Lemma place_inv s kv :
  conv_inv s ->
  conv_inv (place s kv) /\
  cm_names (cs_columns s) `prefix_of` cm_names (cs_columns (place s kv)).
Proof.
  intros [Hwf Hs]. destruct kv as [k v]. unfold place.
  destruct (cm_index (cs_cache s) !! k) eqn:E; simpl.
  - split_and!; [by split|done].
  - split_and!; [split|..].
    + by apply cm_push_wf.
    + by apply cache_sound_push_new.
    + by apply prefix_app_r.
Qed.

(** The loop never changes the count it was given ([fetch_add(0)]). *)
Lemma place_n_columns s kv : cs_n_columns (place s kv) = cs_n_columns s.
Proof. destruct kv as [k v]. unfold place. destruct (_ !! k); simpl; lia. Qed.

Lemma foldl_place_inv s l :
  conv_inv s ->
  conv_inv (foldl place s l) /\
  cm_names (cs_columns s) `prefix_of` cm_names (cs_columns (foldl place s l)).
Proof.
  revert s. induction l as [|kv l IH]; intros s Hinv; simpl; [done|].
  destruct (place_inv s kv Hinv) as (Hinv' & Hp).
  destruct (IH _ Hinv') as (? & Hp'). split; [done|].
  by trans (cm_names (cs_columns (place s kv))).
Qed.

Lemma foldl_place_n_columns s l : cs_n_columns (foldl place s l) = cs_n_columns s.
Proof.
  revert s. induction l as [|kv l IH]; intros s; simpl; [done|].
  by rewrite IH, place_n_columns.
Qed.

Lemma row_put_lookup_same row idx v : row_put row idx v !! idx = Some (Some v).
Proof.
  unfold row_put; cbv zeta. apply list_lookup_insert_eq.
  case_decide; [rewrite length_app, length_replicate|]; lia.
Qed.

Lemma row_put_lookup_other row idx v j x :
  j <> idx -> row !! j = Some x -> row_put row idx v !! j = Some x.
Proof.
  intros Hne Hj. unfold row_put; cbv zeta. rewrite list_lookup_insert_ne by done.
  case_decide; [|done]. by apply lookup_app_l_Some.
Qed.

Lemma row_put_lookup_inv row idx v j v' :
  row_put row idx v !! j = Some (Some v') ->
  (j = idx /\ v' = v) \/ row !! j = Some (Some v').
Proof.
  unfold row_put; cbv zeta. destruct (decide (j = idx)) as [->|Hne].
  - rewrite list_lookup_insert_eq; [naive_solver|].
    case_decide; [rewrite length_app, length_replicate|]; lia.
  - rewrite list_lookup_insert_ne by done. case_decide; [|auto].
    intros [Hj | (Hj & Hr)]%lookup_app_Some; [auto|].
    apply lookup_replicate in Hr. naive_solver.
Qed.

(** [place] writes the value at a slot of the registry named by its field. *)
Lemma place_writes s k v :
  conv_inv s ->
  exists idx, cm_names (cs_columns (place s (k, v))) !! idx = Some k /\
              cs_row (place s (k, v)) = row_put (cs_row s) idx v.
Proof.
  intros [Hwf Hs]. unfold place.
  destruct (cm_index (cs_cache s) !! k) as [i|] eqn:E; simpl; eauto.
  exists (length (cm_names (cs_columns s))). split; [apply lookup_snoc_last|done].
Qed.

Lemma row_sound_nil names n : row_sound names (replicate n None) [].
Proof.
  split; [set_solver|]. intros j v Hj. apply lookup_replicate in Hj. naive_solver.
Qed.

Lemma row_sound_prefix names names' row vs :
  names `prefix_of` names' -> row_sound names row vs -> row_sound names' row vs.
Proof.
  intros Hp [H1 H2]. split.
  - intros k v Hin. destruct (H1 k v Hin) as (i & ? & ?).
    exists i. split; [eapply prefix_lookup_Some|]; eauto.
  - intros j v Hj. destruct (H2 j v Hj) as (k & ? & ?).
    exists k. split; [|eapply prefix_lookup_Some]; eauto.
Qed.

Lemma row_sound_snoc names row vs k v idx :
  k ∉ vs.*1 -> names !! idx = Some k -> row_sound names row vs ->
  row_sound names (row_put row idx v) (vs ++ [(k, v)]).
Proof.
  intros Hk Hidx [H1 H2]. split.
  - intros k' v' [Hin | [= -> ->]%list_elem_of_singleton]%elem_of_app.
    + destruct (H1 k' v' Hin) as (i & Hi & Hr). exists i. split; [done|].
      apply row_put_lookup_other; [|done].
      intros ->. simplify_eq. apply Hk. apply list_elem_of_fmap. by exists (k, v').
    + exists idx. split; [done|]. apply row_put_lookup_same.
  - intros j v' [[-> ->] | Hj]%row_put_lookup_inv.
    + exists k. split; [set_solver|done].
    + destruct (H2 j v' Hj) as (k' & ? & ?). exists k'. split; [set_solver|done].
Qed.

Lemma row_sound_perm names row vs vs' :
  vs ≡ₚ vs' -> row_sound names row vs -> row_sound names row vs'.
Proof.
  intros Hp [H1 H2]. split.
  - intros k v Hin. apply H1. by rewrite Hp.
  - intros j v Hj. destruct (H2 j v Hj) as (k & ? & ?). exists k. by rewrite <- Hp.
Qed.

(** Folding [place] over values with distinct names writes each of them. *)
Lemma foldl_place_row_sound l s done :
  conv_inv s -> NoDup (done ++ l).*1 ->
  row_sound (cm_names (cs_columns s)) (cs_row s) done ->
  row_sound (cm_names (cs_columns (foldl place s l))) (cs_row (foldl place s l)) (done ++ l).
Proof.
  revert s done. induction l as [|[k v] l IH]; intros s done Hinv Hnd Hrow; cbn [foldl].
  - by rewrite app_nil_r.
  - destruct (place_writes s k v Hinv) as (idx & Hidx & Hrow').
    destruct (place_inv s (k, v) Hinv) as (Hinv' & Hp).
    replace (done ++ (k, v) :: l) with ((done ++ [(k, v)]) ++ l) in * by by rewrite <- app_assoc.
    apply IH; [done|done|]. rewrite Hrow'.
    apply row_sound_snoc; [| done | by eapply row_sound_prefix].
    rewrite !fmap_app in Hnd. simpl in Hnd.
    apply NoDup_app in Hnd as (Hnd & _ & _). apply NoDup_app in Hnd as (_ & Hd & _).
    intros Hin. apply (Hd k); [done | set_solver].
Qed.

(** ** [convert_to_row] and [insert] *)

Lemma convert_to_row_inv n columns cache values :
  cm_wf columns -> cache_sound columns cache ->
  exists s, convert_to_row n columns cache values = Some s /\
    conv_inv s /\ cm_names columns `prefix_of` cm_names (cs_columns s).
Proof.
  intros Hwf Hs. rewrite convert_to_row_fold.
  destruct (sync_cache_sound n columns cache Hwf Hs) as (cache' & -> & Hs').
  set (s0 := mkConvState (replicate (Nat.max (length (cm_names cache)) (length values)) None)
                         n columns cache'). simpl.
  destruct (foldl_place_inv s0 (visit_order values)) as (Hinv & Hp); [done|].
  eexists; split_and!; done.
Qed.

(** When the field names are distinct, the row holds each value at a slot
    named by its field and nothing else. *)
Lemma convert_to_row_rows n columns cache values s :
  cm_wf columns -> cache_sound columns cache ->
  convert_to_row n columns cache values = Some s -> NoDup values.*1 ->
  row_sound (cm_names (cs_columns s)) (cs_row s) values.
Proof.
  intros Hwf Hs. rewrite convert_to_row_fold.
  destruct (sync_cache_sound n columns cache Hwf Hs) as (cache' & -> & Hs').
  intros [= <-] Hnd. apply (row_sound_perm _ _ (visit_order values)); [apply visit_order_perm|].
  change (visit_order values) with ([] ++ visit_order values).
  apply foldl_place_row_sound; [done| |apply row_sound_nil].
  by rewrite visit_order_perm.
Qed.
Lemma convert_to_row_n_columns n columns cache values s :
  convert_to_row n columns cache values = Some s -> cs_n_columns s = n.
Proof.
  rewrite convert_to_row_fold. destruct (sync_cache n columns cache); [|done].
  intros [= <-]. by rewrite foldl_place_n_columns.
Qed.

(** [insert] on a well-formed registry and a sound cache: the registry
    and caches stay valid. *)
Lemma insert_inv g h table key values :
  cm_wf (COLUMN_MAPPING g) -> cache_sound (COLUMN_MAPPING g) (columns_cache h) ->
  exists g' h',
    insert g h table key values = Some (g', h', Ok tt) /\
    cm_wf (COLUMN_MAPPING g') /\ cache_sound (COLUMN_MAPPING g') (columns_cache h') /\
    cm_names (COLUMN_MAPPING g) `prefix_of` cm_names (COLUMN_MAPPING g') /\
    (forall h2, cache_sound (COLUMN_MAPPING g) (columns_cache h2) ->
                cache_sound (COLUMN_MAPPING g') (columns_cache h2)).
Proof.
  intros Hwf Hs.
  destruct (convert_to_row_inv (COLUMN_MAPPING_LEN g) _ _ values Hwf Hs)
    as (s & Hconv & [Hwf' Hs'] & Hp).
  unfold insert. rewrite Hconv. do 2 eexists.
  split_and!; simpl; eauto using cache_sound_prefix.
Qed.

Lemma insert_len g h table key values g' h' r :
  insert g h table key values = Some (g', h', r) -> COLUMN_MAPPING_LEN g' = COLUMN_MAPPING_LEN g.
Proof.
  unfold insert. destruct (convert_to_row _ _ _ _) as [s|] eqn:E; [|done].
  intros [= <- _ _]. exact (convert_to_row_n_columns _ _ _ _ _ E).
Qed.

Lemma insert_spec g h table key values :
  cm_wf (COLUMN_MAPPING g) -> cache_sound (COLUMN_MAPPING g) (columns_cache h) ->
  exists row g' h',
    insert g h table key values = Some (g', h', Ok tt) /\
    cm_wf (COLUMN_MAPPING g') /\ cache_sound (COLUMN_MAPPING g') (columns_cache h') /\
    cm_names (COLUMN_MAPPING g) `prefix_of` cm_names (COLUMN_MAPPING g') /\
    (forall h2, cache_sound (COLUMN_MAPPING g) (columns_cache h2) ->
                cache_sound (COLUMN_MAPPING g') (columns_cache h2)) /\
    COLUMN_MAPPING_LEN g' = COLUMN_MAPPING_LEN g /\
    MUTEX_INSTANCE g' = <[key := row]> (MUTEX_INSTANCE g) /\
    (NoDup values.*1 -> row_sound (cm_names (COLUMN_MAPPING g')) row values).
Proof.
  intros Hwf Hs.
  destruct (convert_to_row_inv (COLUMN_MAPPING_LEN g) _ _ values Hwf Hs)
    as (s & Hconv & [Hwf' Hs'] & Hp).
  pose proof (convert_to_row_n_columns _ _ _ _ _ Hconv) as Hn.
  pose proof (convert_to_row_rows _ _ _ _ _ Hwf Hs Hconv) as Hrow.
  exists (cs_row s). unfold insert. rewrite Hconv. do 2 eexists.
  split_and!; simpl; eauto using cache_sound_prefix.
Qed.

(** C1: [insert] never panics on a well-formed registry and a sound cache,
    returns [Ok(())], keeps the registry well formed and append-only, keeps
    every sound cache sound (its own and those of the other handles), does
    not change [COLUMN_MAPPING_LEN], replaces the row of [key] and touches
    no other row; when the field names are distinct, each value is stored
    at a slot whose registry name is its field, and every stored value
    comes from the call. *)
Theorem insert_correct g h table key values :
  cm_wf (COLUMN_MAPPING g) -> cache_sound (COLUMN_MAPPING g) (columns_cache h) ->
  exists row g' h',
    insert g h table key values = Some (g', h', Ok tt) /\
    cm_wf (COLUMN_MAPPING g') /\ cache_sound (COLUMN_MAPPING g') (columns_cache h') /\
    cm_names (COLUMN_MAPPING g) `prefix_of` cm_names (COLUMN_MAPPING g') /\
    (forall h2, cache_sound (COLUMN_MAPPING g) (columns_cache h2) ->
                cache_sound (COLUMN_MAPPING g') (columns_cache h2)) /\
    COLUMN_MAPPING_LEN g' = COLUMN_MAPPING_LEN g /\
    MUTEX_INSTANCE g' = <[key := row]> (MUTEX_INSTANCE g) /\
    (NoDup values.*1 -> row_sound (cm_names (COLUMN_MAPPING g')) row values).
Proof. apply insert_spec. Qed.

Lemma new_handle_sound columns : cache_sound columns (columns_cache new_handle).
Proof. intros k i. simpl. by rewrite lookup_empty. Qed.

Lemma insert_total g h table key vs :
  cm_wf (COLUMN_MAPPING g) -> cache_sound (COLUMN_MAPPING g) (columns_cache h) ->
  exists g' h' r, insert g h table key vs = Some (g', h', r) /\
    cm_wf (COLUMN_MAPPING g') /\ cache_sound (COLUMN_MAPPING g') (columns_cache h') /\
    (forall h2, cache_sound (COLUMN_MAPPING g) (columns_cache h2) ->
                cache_sound (COLUMN_MAPPING g') (columns_cache h2)).
Proof.
  intros Hwf Hs.
  destruct (insert_inv g h table key vs Hwf Hs) as (g' & h' & Hins & Hwf' & Hs' & _ & Hother).
  exists g', h', (Ok tt). auto.
Qed.

Lemma insert_keys g h table key vs g' h' r :
  insert g h table key vs = Some (g', h', r) ->
  dom (MUTEX_INSTANCE g') = {[key]} ∪ dom (MUTEX_INSTANCE g).
Proof.
  unfold insert. destruct (convert_to_row _ _ _ _); [|done].
  intros [= <- <- <-]. simpl. by rewrite dom_insert_L.
Qed.

(** The engine discharges the interface laws of [Db]. *)
#[export] Instance StdBTreeMapMutex_DBLaws : DBLaws Globals StdBTreeMapMutex := {
  db_shared_inv g := cm_wf (COLUMN_MAPPING g);
  db_handle_inv g h := cache_sound (COLUMN_MAPPING g) (columns_cache h);
  db_keys g := dom (MUTEX_INSTANCE g);
  db_insert_keys := insert_keys;
  db_inv_new g _ := new_handle_sound (COLUMN_MAPPING g);
  db_insert_total := insert_total
}.

(** ** Reachable states of the shared engine *)

Lemma engine_step_inv st st' : engine_step st st' -> engine_inv st -> engine_inv st'.
Proof.
  intros [g hs | g hs i h table key values g' h' r Hi Hins] (Hlen & Hwf & Hall); simpl in *.
  - split_and!; [done|done|]. apply Forall_app. split; [done|].
    apply Forall_singleton. apply new_handle_sound.
  - pose proof (proj1 (Forall_lookup _ _) Hall i h Hi) as Hs.
    destruct (insert_inv g h table key values Hwf Hs)
      as (g'' & h'' & Hins' & Hwf' & Hs' & _ & Hother).
    pose proof (insert_len _ _ _ _ _ _ _ _ Hins) as Hlen'.
    rewrite Hins in Hins'. injection Hins' as -> -> _.
    unfold engine_inv; simpl. split_and!; [lia|done|]. apply Forall_insert; [|done].
    eapply Forall_impl; [exact Hall|]. auto.
Qed.

(** C4: in every state reachable from the initial statics by creating
    handles and inserting through any of them, in any interleaving,
    [COLUMN_MAPPING_LEN] is still 0 (the code only ever adds 0 to it), the
    registry is well formed and every handle's cache is sound; hence no
    [insert] of any handle panics. *)
Theorem engine_reachable_inv st :
  rtc engine_step (globals_init, []) st ->
  engine_inv st /\
  (forall i h table key values, st.2 !! i = Some h ->
     exists g' h', insert st.1 h table key values = Some (g', h', Ok tt)).
Proof.
  intros Hrtc.
  assert (Hinv : engine_inv st).
  { revert st Hrtc. apply rtc_ind_r.
    - split_and!; [done|apply cm_wf_empty|constructor].
    - intros y z _ Hyz IH. by eapply engine_step_inv. }
  split; [done|]. destruct Hinv as (_ & Hwf & Hall). intros i h table key values Hi.
  destruct (insert_inv st.1 h table key values Hwf (proj1 (Forall_lookup _ _) Hall i h Hi))
    as (g' & h' & Hins & _). eauto.
Qed.

Lemma run_engine_rtc ops st st' :
  run_engine ops st = Some st' -> rtc engine_step st st'.
Proof.
  revert st. induction ops as [|[|i table key values] ops IH]; intros [g hs] Hrun; simpl in Hrun.
  - by injection Hrun as <-.
  - eapply rtc_l; [constructor | by apply IH].
  - destruct (hs !! i) as [h|] eqn:Hi; [|done].
    destruct (insert g h table key values) as [[[g' h'] r]|] eqn:Hins; [|done].
    eapply rtc_l; [by econstructor | by apply IH].
Qed.

(** C14: the registry is not append-only per name: a fresh handle (empty
    cache) never reads the registry, because [COLUMN_MAPPING_LEN] stays 0
    and the cache refresh only runs when the cache length differs from it;
    on the cache miss it appends the name again at a new index and
    overwrites the name's entry in the map, even when the name is already
    registered.  This is what every worker's handle does on its first
    insert when [threadcount > 1]. *)
Theorem fresh_handle_reregisters g table key k v i :
  COLUMN_MAPPING_LEN g = 0%nat -> cm_wf (COLUMN_MAPPING g) ->
  cm_index (COLUMN_MAPPING g) !! k = Some i ->
  exists g' h',
    insert g new_handle table key [(k, v)] = Some (g', h', Ok tt) /\
    cm_names (COLUMN_MAPPING g') = cm_names (COLUMN_MAPPING g) ++ [k] /\
    cm_index (COLUMN_MAPPING g') !! k = Some (length (cm_names (COLUMN_MAPPING g))) /\
    i <> length (cm_names (COLUMN_MAPPING g)).
Proof.
  intros Hlen [Hwf1 _] Hi.
  unfold insert, convert_to_row, sync_cache. rewrite Hlen. simpl.
  rewrite lookup_empty. do 2 eexists. split_and!; [reflexivity| | |].
  - done.
  - simpl. apply lookup_insert_eq.
  - apply Hwf1, lookup_lt_Some in Hi. lia.
Qed.

(** C15: with two worker handles, the registry ends up holding the same
    field name twice, the name's index moves from 0 to 1, and the rows
    written by the two handles store the same field in different columns:
    the spec's registry contract (one permanent index per name, [K]
    indices for [K] distinct names) does not hold for the code. *)
Theorem two_handles_split_column :
  exists g hs, rtc engine_step (globals_init, []) (g, hs) /\
    cm_names (COLUMN_MAPPING g) = ["field0"; "field0"] /\
    cm_index (COLUMN_MAPPING g) !! "field0" = Some 1%nat /\
    MUTEX_INSTANCE g !! "user1" = Some [Some [Byte.x01]] /\
    MUTEX_INSTANCE g !! "user2" = Some [None; Some [Byte.x02]].
Proof.
  pose proof (run_engine_rtc
    [OpNew; OpNew;
     OpInsert 0 "usertable" "user1" [("field0", [Byte.x01])];
     OpInsert 1 "usertable" "user2" [("field0", [Byte.x02])]]
    (globals_init, [])) as Hrtc.
  remember (run_engine _ (globals_init, [])) as r eqn:E.
  vm_compute in E. subst r. specialize (Hrtc _ eq_refl).
  eexists _, _. split; [exact Hrtc|]. vm_compute. auto.
Qed.

(** ** A single handle *)

Lemma cm_wf_nodup_size cm :
  cm_wf cm -> NoDup (cm_names cm) -> size (cm_index cm) = length (cm_names cm).
Proof.
  intros (H1 & H2 & _) Hnd.
  assert (Hdom : dom (cm_index cm) = list_to_set (C := gset string) (cm_names cm)).
  { apply set_eq. intros k. rewrite elem_of_dom, elem_of_list_to_set. split.
    - intros [i Hi]. apply list_elem_of_lookup. eauto.
    - intros [i Hi]%list_elem_of_lookup. eauto. }
  by rewrite <- size_dom, Hdom, size_list_to_set.
Qed.

(** With a coherent handle, the cache refresh is the identity. *)
Lemma sync_cache_coherent n cm :
  cm_wf cm -> NoDup (cm_names cm) -> sync_cache n cm cm = Some cm.
Proof.
  intros Hwf Hnd. unfold sync_cache. case_decide; [|done].
  rewrite cm_wf_nodup_size by done. by rewrite Nat.sub_diag.
Qed.

Definition conv_coherent (s : ConvState) : Prop :=
  cs_cache s = cs_columns s /\ cm_wf (cs_columns s) /\ NoDup (cm_names (cs_columns s)).

Lemma place_coherent s kv :
  conv_coherent s ->
  conv_coherent (place s kv) /\
  (forall k i, cm_index (cs_columns s) !! k = Some i ->
               cm_index (cs_columns (place s kv)) !! k = Some i).
Proof.
  intros (Hc & Hwf & Hnd). destruct kv as [k v]. unfold place. rewrite Hc.
  destruct (cm_index (cs_columns s) !! k) as [i|] eqn:E; simpl.
  - split; [by split_and!|done].
  - split; [split_and!|].
    + done.
    + by apply cm_push_wf.
    + apply NoDup_app. split_and!; [done| |apply NoDup_singleton].
      intros k' Hk' ->%list_elem_of_singleton.
      apply list_elem_of_lookup in Hk' as [j Hj].
      destruct (proj1 (proj2 Hwf) j k Hj) as [? Hk]. congruence.
    + intros k' i Hk'. rewrite lookup_insert_ne; [done|]. congruence.
Qed.

Lemma foldl_place_coherent s l :
  conv_coherent s ->
  conv_coherent (foldl place s l) /\
  (forall k i, cm_index (cs_columns s) !! k = Some i ->
               cm_index (cs_columns (foldl place s l)) !! k = Some i).
Proof.
  revert s. induction l as [|kv l IH]; intros s Hc; cbn [foldl]; [done|].
  destruct (place_coherent s kv Hc) as [Hc' Hst].
  destruct (IH _ Hc') as [? Hst']. auto.
Qed.

(** C22: with a single handle (the default [threadcount = 1]) the
    engine keeps the registry contract: the handle's cache stays equal to
    the registry, each name is registered once, an [insert] never panics,
    and a name's index never changes once assigned. *)
Theorem single_handle_stable g h table key values :
  coherent g h ->
  exists g' h',
    insert g h table key values = Some (g', h', Ok tt) /\ coherent g' h' /\
    (forall k i, cm_index (COLUMN_MAPPING g) !! k = Some i ->
                 cm_index (COLUMN_MAPPING g') !! k = Some i).
Proof.
  intros (Hc & Hwf & Hnd).
  unfold insert. rewrite convert_to_row_fold, Hc, sync_cache_coherent by done. simpl.
  set (s0 := mkConvState (replicate (Nat.max (length (cm_names (COLUMN_MAPPING g)))
                                              (length values)) None)
                         (COLUMN_MAPPING_LEN g) (COLUMN_MAPPING g) (COLUMN_MAPPING g)).
  destruct (foldl_place_coherent s0 (visit_order values)) as [(Hc' & Hwf' & Hnd') Hst];
    [done|].
  do 2 eexists. split; [reflexivity|]. split; [by split_and!|]. exact Hst.
Qed.

(** ** Inserting a key twice *)

(** C24: a second [insert] of the same key replaces the whole row
    ([BTreeMap::insert]): the row holds exactly the fields of the second
    call, and no slot named by a field that only the first call provided
    keeps a value.  The spec's tested behaviour (the union of both field
    sets) is not what the code does. *)
Theorem reinsert_replaces_row g h table key vs1 vs2 g1 h1 r1 :
  cm_wf (COLUMN_MAPPING g) -> cache_sound (COLUMN_MAPPING g) (columns_cache h) ->
  NoDup vs2.*1 ->
  insert g h table key vs1 = Some (g1, h1, r1) ->
  exists g2 h2 row,
    insert g1 h1 table key vs2 = Some (g2, h2, Ok tt) /\
    MUTEX_INSTANCE g2 !! key = Some row /\
    row_sound (cm_names (COLUMN_MAPPING g2)) row vs2 /\
    (forall k j x, k ∉ vs2.*1 -> cm_names (COLUMN_MAPPING g2) !! j = Some k ->
                   row !! j <> Some (Some x)).
Proof.
  intros Hwf Hs Hnd Hins1.
  destruct (insert_spec g h table key vs1 Hwf Hs)
    as (row1 & g1' & h1' & Hins1' & Hwf1 & Hs1 & _).
  rewrite Hins1 in Hins1'. injection Hins1' as <- <- _.
  destruct (insert_spec g1 h1 table key vs2 Hwf1 Hs1)
    as (row & g2 & h2 & Hins2 & _ & _ & _ & _ & _ & Htab & Hrow).
  specialize (Hrow Hnd).
  exists g2, h2, row. split_and!; [done| by rewrite Htab, lookup_insert_eq | done |].
  intros k j x Hk Hj Hrj. destruct (proj2 Hrow j x Hrj) as (k' & Hin & Hj').
  rewrite Hj in Hj'. injection Hj' as <-.
  apply Hk. apply list_elem_of_fmap. by exists (k, x).
Qed.

(** ** Witnesses *)

Lemma insert_correct_witness :
  exists row g' h',
    insert globals_init new_handle "usertable" "user1" [("field0", [Byte.x01])] = Some (g', h', Ok tt) /\
    MUTEX_INSTANCE g' = <["user1" := row]> ∅ /\
    row_sound (cm_names (COLUMN_MAPPING g')) row [("field0", [Byte.x01])].
Proof.
  destruct (insert_correct globals_init new_handle "usertable" "user1" [("field0", [Byte.x01])]
              cm_wf_empty (new_handle_sound _))
    as (row & g' & h' & Hins & _ & _ & _ & _ & _ & Htab & Hrow).
  exists row, g', h'. split_and!; [exact Hins | exact Htab |].
  apply Hrow. repeat constructor. set_solver.
Defined.

Lemma engine_reachable_inv_witness :
  exists st, rtc engine_step (globals_init, []) st /\ length st.2 = 1%nat /\ engine_inv st.
Proof.
  pose proof (run_engine_rtc
    [OpNew; OpInsert 0 "usertable" "user1" [("field0", [Byte.x01])]] (globals_init, [])) as Hrtc.
  remember (run_engine _ (globals_init, [])) as r eqn:E.
  vm_compute in E. subst r. specialize (Hrtc _ eq_refl).
  eexists. split_and!; [exact Hrtc | reflexivity | exact (proj1 (engine_reachable_inv _ Hrtc))].
Defined.

Lemma convert_loop_visit_order_witness :
  convert_loop 3 (mkConvState [] 0 cm_empty cm_empty)
    [("a", [Byte.x01]); ("b", [Byte.x02]); ("c", [Byte.x03])] =
  Some (foldl place (mkConvState [] 0 cm_empty cm_empty)
    [("a", [Byte.x01]); ("c", [Byte.x03]); ("b", [Byte.x02])]).
Proof.
  exact (convert_loop_visit_order 3 (mkConvState [] 0 cm_empty cm_empty)
           [("a", [Byte.x01]); ("b", [Byte.x02]); ("c", [Byte.x03])] ltac:(simpl; lia)).
Defined.

Lemma fresh_handle_reregisters_witness :
  exists g' h',
    insert (mkGlobals 0 (cm_push cm_empty "field0" 0) ∅) new_handle "usertable" "user2"
      [("field0", [Byte.x02])] = Some (g', h', Ok tt) /\
    cm_names (COLUMN_MAPPING g') = ["field0"; "field0"] /\
    cm_index (COLUMN_MAPPING g') !! "field0" = Some 1%nat /\ 0%nat <> 1%nat.
Proof.
  exact (fresh_handle_reregisters (mkGlobals 0 (cm_push cm_empty "field0" 0) ∅)
           "usertable" "user2" "field0" [Byte.x02] 0 eq_refl
           (cm_push_wf cm_empty "field0" cm_wf_empty) ltac:(vm_compute; reflexivity)).
Defined.

Lemma single_handle_stable_witness :
  exists g' h',
    insert globals_init new_handle "usertable" "user1"
      [("field0", [Byte.x01]); ("field1", [Byte.x02])] = Some (g', h', Ok tt) /\
    coherent g' h' /\
    (forall k i, cm_index (COLUMN_MAPPING globals_init) !! k = Some i ->
                 cm_index (COLUMN_MAPPING g') !! k = Some i).
Proof.
  exact (single_handle_stable globals_init new_handle "usertable" "user1" _
           (conj eq_refl (conj cm_wf_empty (NoDup_nil_2)))).
Defined.

Lemma reinsert_replaces_row_witness :
  exists g2 h2 row,
    insert (mkGlobals 0 (cm_push (cm_push cm_empty "field0" 0) "field1" 1)
              {["user1" := [Some [Byte.x01]; Some [Byte.x02]]]})
           (mkStdBTreeMapMutex (cm_push (cm_push cm_empty "field0" 0) "field1" 1))
           "usertable" "user1" [("field1", [Byte.x03])] = Some (g2, h2, Ok tt) /\
    MUTEX_INSTANCE g2 !! "user1" = Some row /\
    row_sound (cm_names (COLUMN_MAPPING g2)) row [("field1", [Byte.x03])] /\
    (forall k j x, k ∉ [("field1", [Byte.x03])].*1 -> cm_names (COLUMN_MAPPING g2) !! j = Some k ->
                   row !! j <> Some (Some x)).
Proof.
  exact (reinsert_replaces_row globals_init new_handle "usertable" "user1"
           [("field0", [Byte.x01]); ("field1", [Byte.x02])] [("field1", [Byte.x03])]
           _ _ (Ok tt) cm_wf_empty (new_handle_sound _)
           ltac:(repeat constructor; set_solver) ltac:(vm_compute; reflexivity)).
Defined.

End StdBTreeFacts.
