(* ===== verification/KeyIndices.v ===== *)
(** [get_key_indices] of [src/ycsb/src/db/std_btree.rs] (lines 34-69), a
    helper the engine never calls: it resolves the field names of a value
    list against the shared registry under the read lock, releases it,
    and allocates the missing names under the write lock.  The two
    critical sections are separate functions ([read_indices],
    [write_indices]) so that their interleaving between two callers can
    be stated; [get_key_indices] is their sequential composition.  The
    [cache] argument is never used by the code and is not modelled. *)

From S2P Require Import Prelude Db StdBTree.

Module KeyIndices.
Import StdBTree.

(** Lines 41-54, under [columns.read()]: one entry per value, the
    registry index ([*i as isize]) or [-1], and the largest index found. *)
Fixpoint read_indices (index : gmap string nat) (values : ValueListType)
    (key_to_idx : list Z) (max_idx : nat) : list Z * nat :=
  match values with
  | [] => (key_to_idx, max_idx)
  | (k, _) :: rest =>
      match index !! k with
      | Some i => read_indices index rest (key_to_idx ++ [Z.of_nat i]) (Nat.max max_idx i)
      | None => read_indices index rest (key_to_idx ++ [-1]) max_idx
      end
  end.

(** Lines 55-67, under [columns.write()]: [for i in 0..values.len()],
    skipping the entries already resolved and allocating the next
    registry slot for each [-1], in order.  The loop walks [values] and
    [key_to_idx] together (they have the same length, so the indexing
    never panics) and rebuilds [key_to_idx] with its updated entries. *)
Fixpoint write_indices (cm : ColumnMappingType) (values : ValueListType) (key_to_idx : list Z)
    (max_idx : nat) : ColumnMappingType * list Z * nat :=
  match values, key_to_idx with
  | (k, _) :: rest, z :: zs =>
      if bool_decide (0 <= z) then
        let '(cm', r, m) := write_indices cm rest zs max_idx in (cm', z :: r, m)
      else
        let new_idx := length (cm_names cm) in
        let '(cm', r, m) := write_indices (cm_push cm k new_idx) rest zs new_idx in
        (cm', Z.of_nat new_idx :: r, m)
  | _, _ => (cm, key_to_idx, max_idx)
  end.

(** [fn get_key_indices(columns, cache, values) -> (Vec<isize>, usize)]:
    the new registry, the indices and [max_idx + 1]. *)
Definition get_key_indices (cm : ColumnMappingType) (values : ValueListType)
    : ColumnMappingType * (list Z * nat) :=
  let '(kti, m) := read_indices (cm_index cm) values [] 0 in
  let '(cm', kti', m') := write_indices cm values kti m in
  (cm', (kti', Datatypes.S m')).

End KeyIndices.

Module KeyIndicesFacts.
Import StdBTree StdBTreeFacts KeyIndices.

(** The registry slot of a resolved name, [-1] for an unknown one. *)
Definition resolve (index : gmap string nat) (kv : string * bytes) : Z :=
  match index !! kv.1 with Some i => Z.of_nat i | None => -1 end.

Lemma read_indices_spec index values acc m :
  (read_indices index values acc m).1 = acc ++ (resolve index <$> values) /\
  (m <= (read_indices index values acc m).2)%nat /\
  ((read_indices index values acc m).2 = m \/
   exists k, k ∈ values.*1 /\ index !! k = Some (read_indices index values acc m).2) /\
  (forall kv i, kv ∈ values -> index !! kv.1 = Some i -> (i <= (read_indices index values acc m).2)%nat).
Proof.
  revert acc m. induction values as [|[k v] values IH]; intros acc m; simpl.
  - rewrite app_nil_r. split_and!; [done|lia|by left|set_solver].
  - unfold resolve at 1. simpl.
    destruct (index !! k) as [i|] eqn:Ek;
      [destruct (IH (acc ++ [Z.of_nat i]) (Nat.max m i)) as (H1 & H2 & H3 & H4)
      |destruct (IH (acc ++ [-1]) m) as (H1 & H2 & H3 & H4)];
      (split_and!; [by rewrite H1, <- app_assoc | lia | | ]).
    + destruct H3 as [->|(k' & ? & ?)]; [|right; exists k'; set_solver].
      destruct (Nat.max_spec m i) as [[? ->]|[? ->]]; [right; exists k; set_solver|by left].
    + intros kv i' [-> | Hin]%elem_of_cons Hi'; [simpl in Hi'; simplify_eq; lia|].
      by apply (H4 kv i').
    + destruct H3 as [->|(k' & ? & ?)]; [by left|right; exists k'; set_solver].
    + intros kv i' [-> | Hin]%elem_of_cons Hi'; [simpl in Hi'; congruence|].
      by apply (H4 kv i').
Qed.

(** What the read phase guarantees about each entry. *)
Definition entries_ok (cm : ColumnMappingType) (values : list (string * bytes)) (kti : list Z)
    (m : nat) : Prop :=
  length kti = length values /\
  (forall j k v z, values !! j = Some (k, v) -> kti !! j = Some z ->
     (0 <= z -> exists i, z = Z.of_nat i /\ cm_names cm !! i = Some k /\ (i <= m)%nat) /\
     (z < 0 -> k ∉ cm_names cm)) /\
  (m <= length (cm_names cm))%nat.

Lemma entries_ok_tail cm k v values z zs m :
  entries_ok cm ((k, v) :: values) (z :: zs) m -> entries_ok cm values zs m.
Proof.
  intros (Hl & He & Hm). split_and!; [simpl in Hl; lia| |done].
  intros j k' v' z' Hj Hz. exact (He (Datatypes.S j) k' v' z' Hj Hz).
Qed.

Lemma entries_ok_push cm k v values z zs m :
  cm_wf cm -> NoDup ((k, v) :: values).*1 -> z < 0 ->
  entries_ok cm ((k, v) :: values) (z :: zs) m ->
  entries_ok (cm_push cm k (length (cm_names cm))) values zs (length (cm_names cm)).
Proof.
  intros Hwf Hnd Hz Hok. destruct (entries_ok_tail _ _ _ _ _ _ _ Hok) as (Hl & He & Hm).
  simpl in Hnd. apply NoDup_cons in Hnd as [Hk _].
  split_and!; [done| |simpl; rewrite length_app; simpl; lia].
  intros j k' v' z' Hj Hz'. destruct (He j k' v' z' Hj Hz') as [H1 H2]. split.
  - intros Hz0. destruct (H1 Hz0) as (i & -> & Hi & Him). exists i. split_and!; [done| |].
    + simpl. by apply lookup_app_l_Some.
    + apply lookup_lt_Some in Hi. lia.
  - intros Hz0 Hin. simpl in Hin. apply elem_of_app in Hin as [Hin|Hin]; [by apply (H2 Hz0)|].
    apply list_elem_of_singleton in Hin as ->. apply Hk.
    apply list_elem_of_fmap. exists (k, v'). split; [done|]. by eapply list_elem_of_lookup_2.
Qed.

Lemma write_indices_spec cm values kti m :
  cm_wf cm -> NoDup (cm_names cm) -> NoDup values.*1 -> entries_ok cm values kti m ->
  let '(cm', r, m') := write_indices cm values kti m in
  cm_wf cm' /\ NoDup (cm_names cm') /\ cm_names cm `prefix_of` cm_names cm' /\
  length r = length values /\ (m <= m')%nat /\
  (forall j k v, values !! j = Some (k, v) ->
     exists i, r !! j = Some (Z.of_nat i) /\ cm_names cm' !! i = Some k /\ (i <= m')%nat).
Proof.
  revert cm kti m. induction values as [|[k v] values IH]; intros cm kti m Hwf Hnd Hndv Hok.
  { destruct kti; [|destruct Hok as [[=] _]]. simpl. split_and!; done. }
  destruct kti as [|z zs]; [destruct Hok as [[=] _]|]. cbn [write_indices].
  pose proof Hndv as Hndv'. simpl in Hndv'. apply NoDup_cons in Hndv' as [_ Hndr].
  destruct (Hok) as (_ & He & Hm). destruct (He 0%nat k v z eq_refl eq_refl) as [H1 H2].
  case_bool_decide as Hz.
  - specialize (IH cm zs m Hwf Hnd Hndr (entries_ok_tail _ _ _ _ _ _ _ Hok)).
    destruct (write_indices cm values zs m) as [[cm' r] m'].
    destruct IH as (Hwf' & Hnd' & Hp & Hl & Hmm & Hr). split_and!; try done; [simpl; lia|].
    intros [|j] k' v' Hj; simpl in Hj.
    + simplify_eq. destruct (H1 Hz) as (i & -> & Hi & Him). exists i.
      split_and!; [done|by eapply prefix_lookup_Some|lia].
    + exact (Hr j k' v' Hj).
  - assert (Hk : k ∉ cm_names cm) by (apply H2; lia).
    assert (Hnd1 : NoDup (cm_names (cm_push cm k (length (cm_names cm)))))
      by (simpl; apply NoDup_app; split_and!; [done|set_solver|apply NoDup_singleton]).
    assert (Hz0 : z < 0) by lia.
    specialize (IH _ zs _ (cm_push_wf cm k Hwf) Hnd1 Hndr (entries_ok_push _ _ _ _ _ _ _ Hwf Hndv Hz0 Hok)).
    destruct (write_indices _ values zs _) as [[cm' r] m'].
    destruct IH as (Hwf' & Hnd' & Hp & Hl & Hmm & Hr). split_and!; try done.
    + trans (cm_names (cm_push cm k (length (cm_names cm)))); [|done]. by apply prefix_app_r.
    + simpl. lia.
    + lia.
    + intros [|j] k' v' Hj; simpl in Hj.
      * simplify_eq. exists (length (cm_names cm)). split_and!; [done| |lia].
        eapply prefix_lookup_Some; [|exact Hp]. apply lookup_snoc_last.
      * exact (Hr j k' v' Hj).
Qed.

(** C28: called alone (no other thread between its two critical
    sections), on a well-formed registry without duplicate names and a
    value list with distinct field names, [get_key_indices] keeps the
    registry well formed, append-only and free of duplicates, returns one
    index per value, each a registry slot holding that value's field name
    and below the returned count; for an empty value list the count is
    1, not 0. *)
Theorem get_key_indices_sound cm values :
  cm_wf cm -> NoDup (cm_names cm) -> NoDup values.*1 ->
  let '(cm', (kti, cnt)) := get_key_indices cm values in
  cm_wf cm' /\ NoDup (cm_names cm') /\ cm_names cm `prefix_of` cm_names cm' /\
  length kti = length values /\
  (forall j k v, values !! j = Some (k, v) ->
     exists i, kti !! j = Some (Z.of_nat i) /\ cm_names cm' !! i = Some k /\ (i < cnt)%nat) /\
  (values = [] -> cnt = 1%nat).
Proof.
  intros Hwf Hnd Hndv. pose proof Hwf as (Hw1 & Hw2 & _). unfold get_key_indices.
  unfold ValueListType in *.
  destruct (read_indices_spec (cm_index cm) values [] 0) as (H1 & _ & H3 & H4).
  destruct (read_indices (cm_index cm) values [] 0) as [kti m]. simpl in H1, H3, H4. subst kti.
  assert (Hok : entries_ok cm values (resolve (cm_index cm) <$> values) m).
  { split_and!; [by rewrite length_fmap| |].
    - intros j k v z Hj Hz. apply list_lookup_fmap_Some in Hz as (kv & -> & Hkv).
      rewrite Hj in Hkv. injection Hkv as <-.
      unfold resolve. simpl. destruct (cm_index cm !! k) as [i|] eqn:Ek; split; try lia.
      + intros _. exists i. split_and!; [done|by apply Hw1|].
        apply (H4 (k, v)); [by eapply list_elem_of_lookup_2|done].
      + intros _ (i & Hi)%list_elem_of_lookup. destruct (Hw2 i k Hi) as [? Hk]. congruence.
    - destruct H3 as [->|(k & _ & Hk)]; [lia|]. apply Hw1, lookup_lt_Some in Hk. lia. }
  pose proof (write_indices_spec cm values _ m Hwf Hnd Hndv Hok) as Hw.
  destruct (write_indices cm values _ m) as [[cm' r] m'] eqn:Ew.
  destruct Hw as (Hwf' & Hnd' & Hp & Hl & Hmm & Hr). split_and!; try done.
  - intros j k v Hj. destruct (Hr j k v Hj) as (i & ? & ? & ?). exists i. split_and!; [done|done|lia].
  - intros ->. destruct H3 as [->|(k & Hk & _)]; [|set_solver].
    simpl in Ew. congruence.
Qed.

(** C29: the two critical sections of [get_key_indices] release the lock
    in between: when two callers with the same unregistered field name
    both finish the read phase before either writes, the name is
    registered twice, at two consecutive slots; the callers receive
    different indices for the same field, and the registry maps the name
    to the second one only. *)
Theorem key_indices_race cm k v1 v2 :
  cm_index cm !! k = None ->
  let r1 := read_indices (cm_index cm) [(k, v1)] [] 0 in
  let r2 := read_indices (cm_index cm) [(k, v2)] [] 0 in
  let '(cm1, kti1, _) := write_indices cm [(k, v1)] r1.1 r1.2 in
  let '(cm2, kti2, _) := write_indices cm1 [(k, v2)] r2.1 r2.2 in
  cm_names cm2 = cm_names cm ++ [k; k] /\
  kti1 = [Z.of_nat (length (cm_names cm))] /\
  kti2 = [Z.of_nat (Datatypes.S (length (cm_names cm)))] /\
  cm_index cm2 !! k = Some (Datatypes.S (length (cm_names cm))).
Proof.
  intros Hk. simpl. rewrite Hk. simpl. rewrite length_app, Nat.add_1_r.
  split_and!; [by rewrite <- app_assoc|done|done|]. by rewrite lookup_insert_eq.
Qed.

(** Witnesses: two fresh fields on the empty registry. *)
Lemma get_key_indices_sound_witness :
  let '(cm', (kti, cnt)) := get_key_indices cm_empty [("field0", [Byte.x01]); ("field1", [Byte.x02])] in
  cm_wf cm' /\ NoDup (cm_names cm') /\ cm_names cm_empty `prefix_of` cm_names cm' /\
  length kti = length [("field0", [Byte.x01]); ("field1", [Byte.x02])] /\
  (forall j k v, [("field0", [Byte.x01]); ("field1", [Byte.x02])] !! j = Some (k, v) ->
     exists i, kti !! j = Some (Z.of_nat i) /\ cm_names cm' !! i = Some k /\ (i < cnt)%nat) /\
  ([("field0", [Byte.x01]); ("field1", [Byte.x02])] = [] -> cnt = 1%nat).
Proof.
  refine (get_key_indices_sound cm_empty [("field0", [Byte.x01]); ("field1", [Byte.x02])]
            cm_wf_empty NoDup_nil_2 _).
  apply (bool_decide_unpack _). vm_compute. reflexivity.
Defined.

Lemma key_indices_race_witness :
  let r1 := read_indices (cm_index cm_empty) [("field0", [Byte.x01])] [] 0 in
  let r2 := read_indices (cm_index cm_empty) [("field0", [Byte.x02])] [] 0 in
  let '(cm1, kti1, _) := write_indices cm_empty [("field0", [Byte.x01])] r1.1 r1.2 in
  let '(cm2, kti2, _) := write_indices cm1 [("field0", [Byte.x02])] r2.1 r2.2 in
  cm_names cm2 = cm_names cm_empty ++ ["field0"; "field0"] /\
  kti1 = [Z.of_nat (length (cm_names cm_empty))] /\
  kti2 = [Z.of_nat (Datatypes.S (length (cm_names cm_empty)))] /\
  cm_index cm2 !! "field0" = Some (Datatypes.S (length (cm_names cm_empty))).
Proof. exact (key_indices_race cm_empty "field0" [Byte.x01] [Byte.x02] eq_refl). Defined.

End KeyIndicesFacts.
