(* ===== verification/Keys.v ===== *)
(** The core workload of [src/ycsb/src/workloads/core.rs]: its
    [Properties] with their [serde] defaults, [CoreWorkload::new],
    [build_key], [build_values] and [do_insert], and the [Workload] trait
    of [workloads/mod.rs] as a type class.

    [build_key] hashes the sequence number with [std]'s [DefaultHasher]
    when [insertorder] is not [ordered]: [DefaultHasher::new()] is
    SipHash-1-3 with both keys 0, and [write_u64(n)] feeds the 8 bytes of
    [n.to_ne_bytes()] (little endian on the targets the program runs on).
    [Module Sip] writes out that function on 64-bit [Z] words with their
    wrap-around.  The decimal rendering [to_string] is [dec_digits] with 20
    digits of fuel, enough for every [u64] ([u64_to_string_parse]).  The
    zero padding is computed in [i32] as the code does:
    [(zero_padding as i32) - (keynum.len() as i32)], with [wrap_i32]. *)

From S2P Require Import Prelude Db Generators.
From Stdlib Require Import Ascii PrimFloat.

Module Sip.

Definition M64 : Z := Z.ones 64.

(** [u64::wrapping_add] and [u64::rotate_left]. *)
Definition add64 (a b : Z) : Z := Z.land (a + b) M64.
Definition rotl64 (x : Z) (r : Z) : Z :=
  Z.land (Z.lor (Z.shiftl x r) (Z.shiftr x (64 - r))) M64.

(** The four state words of [core::hash::sip::State]. *)
Record State := mkState { v0 : Z; v1 : Z; v2 : Z; v3 : Z }.

(** [compress!]: one SipRound. *)
Definition compress (s : State) : State :=
  let v0 := add64 (v0 s) (v1 s) in
  let v1 := rotl64 (v1 s) 13 in
  let v1 := Z.lxor v1 v0 in
  let v0 := rotl64 v0 32 in
  let v2 := add64 (v2 s) (v3 s) in
  let v3 := rotl64 (v3 s) 16 in
  let v3 := Z.lxor v3 v2 in
  let v0 := add64 v0 v3 in
  let v3 := rotl64 v3 21 in
  let v3 := Z.lxor v3 v0 in
  let v2 := add64 v2 v1 in
  let v1 := rotl64 v1 17 in
  let v1 := Z.lxor v1 v2 in
  let v2 := rotl64 v2 32 in
  mkState v0 v1 v2 v3.

Fixpoint rounds (n : nat) (s : State) : State :=
  match n with
  | O => s
  | S n => rounds n (compress s)
  end.

(** [Hasher::reset] with keys [k0], [k1]. *)
Definition init (k0 k1 : Z) : State :=
  mkState (Z.lxor k0 0x736f6d6570736575) (Z.lxor k1 0x646f72616e646f6d)
          (Z.lxor k0 0x6c7967656e657261) (Z.lxor k1 0x7465646279746573).

(** Absorbing one little-endian message word [m] with [c] rounds. *)
Definition absorb (c : nat) (s : State) (m : Z) : State :=
  let s := rounds c (mkState (v0 s) (v1 s) (v2 s) (Z.lxor (v3 s) m)) in
  mkState (Z.lxor (v0 s) m) (v1 s) (v2 s) (v3 s).

(** [Hasher::finish] after [length] bytes whose incomplete last word is
    [tail]. *)
Definition finish (c d : nat) (s : State) (length : Z) (tail : Z) : Z :=
  let b := Z.lor (Z.shiftl (Z.land length 0xff) 56) tail in
  let s := absorb c s b in
  let s := rounds d (mkState (v0 s) (v1 s) (Z.lxor (v2 s) 0xff) (v3 s)) in
  Z.lxor (Z.lxor (v0 s) (v1 s)) (Z.lxor (v2 s) (v3 s)).

(** SipHash-c-d of a message of 8-bit values, processed as [write] does:
    whole 8-byte words first, the remaining bytes as the tail. *)
Fixpoint le_word (bs : list Z) : Z :=
  match bs with
  | [] => 0
  | b :: t => Z.lor b (Z.shiftl (le_word t) 8)
  end.

Fixpoint absorb_words (c : nat) (fuel : nat) (s : State) (bs : list Z) : State * list Z :=
  match fuel with
  | O => (s, bs)
  | S fuel =>
      if (8 <=? length bs)%nat
      then absorb_words c fuel (absorb c s (le_word (take 8 bs))) (drop 8 bs)
      else (s, bs)
  end.

Definition siphash (c d : nat) (k0 k1 : Z) (msg : list Z) : Z :=
  let '(s, tail) := absorb_words c (length msg) (init k0 k1) msg in
  finish c d s (Z.of_nat (length msg)) (le_word tail).

(** [n.to_ne_bytes()] on a little-endian target. *)
Definition to_le_bytes (n : Z) : list Z :=
  map (fun i => Z.land (Z.shiftr n (8 * i)) 0xff) (seqZ 0 8).

(** [let mut hasher = DefaultHasher::new(); hasher.write_u64(n);
     hasher.finish()] *)
Definition default_hash_u64 (n : Z) : Z := siphash 1 3 0 0 (to_le_bytes n).

End Sip.

Module Core.

(** [struct Properties] of [core.rs]; [u32]/[u64] fields are [Z], the
    [f64] field a primitive float. *)
Record Properties := mkProperties {
  table : string;
  field_count : Z;
  field_name_prefix : string;
  field_length : Z;
  field_length_min : Z;
  field_length_distribution : string;
  request_distribution : string;
  min_scan_length : Z;
  max_scan_length : Z;
  scan_length_distribution : string;
  insert_start : Z;
  insert_count : option Z;
  zero_padding : Z;
  read_all_fields : bool;
  read_all_fields_by_name : bool;
  write_all_fields : bool;
  insert_order : string;
  insert_proportion : PrimFloat.float
}.

(** The [serde] defaults ([default_table] ... [default_insert_proportion]);
    [insertcount] has none and is [None] when absent. *)
Definition default_properties : Properties := {|
  table := "usertable";
  field_count := 10;
  field_name_prefix := "field";
  field_length := 100;
  field_length_min := 1;
  field_length_distribution := "constant";
  request_distribution := "uniform";
  min_scan_length := 1;
  max_scan_length := 1000;
  scan_length_distribution := "uniform";
  insert_start := 0;
  insert_count := None;
  zero_padding := 1;
  read_all_fields := true;
  read_all_fields_by_name := false;
  write_all_fields := false;
  insert_order := "hashed";
  insert_proportion := 0%float
|}.

(** [pub struct CoreWorkload]; [client_props] is stored but never read
    and is not modelled. *)
Record CoreWorkload := mkCoreWorkload {
  props : Properties;
  key_sequence : Counter.Counter;
  ordered_inserts : bool;
  field_length_generator : Constant.Constant;
  field_names : list string
}.

(** The ASCII digit of [d], [0 <= d < 10]. *)
Definition digit_char (d : Z) : ascii := ascii_of_nat (48 + Z.to_nat d).

(** [u64::to_string]: the decimal digits of [n], most significant first,
    prepended to [acc]; [fuel] bounds the number of digits. *)
Fixpoint dec_digits (fuel : nat) (n : Z) (acc : string) : string :=
  match fuel with
  | O => acc
  | S fuel =>
      let acc := String (digit_char (n mod 10)) acc in
      if n <? 10 then acc else dec_digits fuel (n / 10) acc
  end.

Definition u64_to_string (n : Z) : string := dec_digits 20 n EmptyString.

(** [for _ in 0..fill { key.push('0'); }] *)
Fixpoint push_zeros (k : nat) (s : string) : string :=
  match k with
  | O => s
  | S k => push_zeros k (s +:+ "0")
  end.

(** [fn build_key(&self, n: u64) -> String]. *)
Definition build_key (ordered_inserts : bool) (zero_padding : Z) (n : Z) : string :=
  let n := if negb ordered_inserts then Sip.default_hash_u64 n else n in
  let keynum := u64_to_string n in
  let fill := wrap_i32 (u32_as_i32 zero_padding - Z.of_nat (String.length keynum)) in
  let key := "user" in
  let key := push_zeros (Z.to_nat fill) key in
  key +:+ keynum.

(** The loop of [CoreWorkload::new] building [field_names]:
    [prefix + &i.to_string()] for [i in 0..field_count]. *)
Definition make_field_names (prefix : string) (field_count : Z) : list string :=
  map (fun i => prefix +:+ u64_to_string i) (seqZ 0 field_count).

(** [CoreWorkload::new]: panics unless the field length distribution is
    ["constant"]. *)
Definition new (p : Properties) : option CoreWorkload :=
  let key_sequence := Counter.new (insert_start p) in
  let ordered_inserts := negb (String.eqb (insert_order p) "hashed") in
  let field_names := make_field_names (field_name_prefix p) (field_count p) in
  if String.eqb (field_length_distribution p) "constant"
  then Some (mkCoreWorkload p key_sequence ordered_inserts
               (Constant.new (field_length p)) field_names)
  else None.

(** The thread-local random generator: an unknown byte stream and the
    position reached in it. *)
Record Rng := mkRng { rng_src : nat -> Byte.byte; rng_pos : nat }.

(** [rng.fill_bytes(&mut v)] for a buffer of length [len]. *)
Definition fill_bytes (r : Rng) (len : nat) : bytes * Rng :=
  (map (fun i => rng_src r (rng_pos r + i)%nat) (seq 0 len),
   mkRng (rng_src r) (rng_pos r + len)).

(** [fn build_values(&self, key: &str) -> ValueListType]: one buffer of
    [field_length_generator.next()] random bytes per field name. *)
Fixpoint build_values_aux (gen : Constant.Constant) (names : list string) (r : Rng)
  : list (string * bytes) * Rng :=
  match names with
  | [] => ([], r)
  | name :: names =>
      let '(len, gen') := Constant.next gen in
      let '(v, r) := fill_bytes r (Z.to_nat len) in
      let '(rest, r) := build_values_aux gen' names r in
      ((name, v) :: rest, r)
  end.

Definition build_values (w : CoreWorkload) (r : Rng) : ValueListType * Rng :=
  build_values_aux (field_length_generator w) (field_names w) r.

(** [fn do_insert<T: DB>(&self, db: &mut T)]: the key from the shared
    [key_sequence], the values, and [db.insert] whose result is dropped. *)
Definition do_insert {S H} `{!DB S H} (w : CoreWorkload) (r : Rng) (s : S) (h : H)
  : option (CoreWorkload * Rng * S * H) :=
  let '(n, ks) := Counter.next (key_sequence w) in
  let key := build_key (ordered_inserts w) (zero_padding (props w)) n in
  let '(values, r) := build_values w r in
  match db_insert s h (table (props w)) key values with
  | None => None
  | Some (s, h, _) =>
      Some (mkCoreWorkload (props w) ks (ordered_inserts w) (field_length_generator w)
              (field_names w), r, s, h)
  end.

End Core.

(** [pub trait Workload]: the insert action against any [DB]. *)
Class Workload (W : Type) := {
  wl_do_insert : forall {S H} `{!DB S H}, W -> Core.Rng -> S -> H -> option (W * Core.Rng * S * H)
}.

#[export] Instance CoreWorkload_Workload : Workload Core.CoreWorkload := {
  wl_do_insert S H _ := Core.do_insert
}.

(** Reading a key back: the inverse of the decimal rendering, used to
    state the round trip of [build_key]. *)
Module KeyParse.

Definition char_digit (c : ascii) : option Z :=
  let n := nat_of_ascii c in
  if (48 <=? n)%nat && (n <? 58)%nat then Some (Z.of_nat n - 48) else None.

Fixpoint parse_digits (s : string) (acc : Z) : option Z :=
  match s with
  | EmptyString => Some acc
  | String c s => match char_digit c with
                  | Some d => parse_digits s (acc * 10 + d)
                  | None => None
                  end
  end.

Definition parse_key (s : string) : option Z :=
  match s with
  | String u (String s1 (String e (String r rest))) =>
      if String.eqb (String u (String s1 (String e (String r EmptyString)))) "user"
      then parse_digits rest 0 else None
  | _ => None
  end.

End KeyParse.

Module KeysFacts.
Import Core KeyParse.

(** ** Decimal rendering *)

Lemma char_digit_digit_char d : 0 <= d < 10 -> char_digit (digit_char d) = Some d.
Proof.
  intros Hd.
  assert (d = 0 \/ d = 1 \/ d = 2 \/ d = 3 \/ d = 4 \/ d = 5 \/ d = 6 \/ d = 7 \/ d = 8 \/ d = 9)
    as Hc by lia.
  destruct_or! Hc; subst; reflexivity.
Qed.

Lemma parse_digits_app s1 s2 a :
  parse_digits (s1 +:+ s2) a = parse_digits s1 a ≫= parse_digits s2.
Proof.
  revert a. induction s1 as [|c s1 IH]; intros a; simpl; [done|].
  destruct (char_digit c); simpl; [apply IH|done].
Qed.

Lemma dec_digits_parse fuel n acc :
  0 <= n < 10 ^ Z.of_nat fuel ->
  parse_digits (dec_digits fuel n acc) 0 = parse_digits acc n.
Proof.
  revert n acc. induction fuel as [|fuel IH]; intros n acc Hn.
  - simpl in Hn. assert (n = 0) as -> by lia. done.
  - rewrite Nat2Z.inj_succ, Z.pow_succ_r in Hn by lia. cbn [dec_digits].
    pose proof (Z.mod_pos_bound n 10 ltac:(lia)).
    destruct (Z.ltb_spec n 10).
    + cbn [parse_digits]. rewrite char_digit_digit_char by lia. f_equal.
      rewrite Z.mod_small; lia.
    + rewrite IH by (split; [apply Z.div_pos | apply Z.div_lt_upper_bound]; lia).
      cbn [parse_digits]. rewrite char_digit_digit_char by lia. f_equal.
      pose proof (Z.div_mod n 10 ltac:(lia)). lia.
Qed.

Lemma u64_to_string_parse n :
  0 <= n < 2 ^ 64 -> parse_digits (u64_to_string n) 0 = Some n.
Proof.
  intros Hn. unfold u64_to_string. rewrite dec_digits_parse; [done|].
  change (10 ^ Z.of_nat 20) with 100000000000000000000. lia.
Qed.

Lemma u64_to_string_inj n m :
  0 <= n < 2 ^ 64 -> 0 <= m < 2 ^ 64 -> u64_to_string n = u64_to_string m -> n = m.
Proof.
  intros Hn Hm Heq. apply (f_equal (fun s => parse_digits s 0)) in Heq.
  rewrite !u64_to_string_parse in Heq by done. congruence.
Qed.

Lemma push_zeros_app k s : push_zeros k s = s +:+ push_zeros k EmptyString.
Proof.
  revert s. induction k as [|k IH]; intros s; simpl.
  - by rewrite string_app_nil_r.
  - rewrite IH, (IH (EmptyString +:+ "0")), <- string_app_assoc. done.
Qed.

Lemma parse_zeros k : parse_digits (push_zeros k EmptyString) 0 = Some 0.
Proof.
  induction k as [|k IH]; [done|]. cbn [push_zeros].
  rewrite push_zeros_app, parse_digits_app. simpl. exact IH.
Qed.

(** [build_key] is the prefix, the zeros of the padding and the digits
    of the (hashed or not) sequence number. *)
Lemma build_key_unfold b zp n :
  build_key b zp n =
    let n := if negb b then Sip.default_hash_u64 n else n in
    "user" +:+ (push_zeros (Z.to_nat (wrap_i32 (u32_as_i32 zp -
                   Z.of_nat (String.length (u64_to_string n))))) EmptyString +:+ u64_to_string n).
Proof. unfold build_key. cbv zeta. by rewrite push_zeros_app, string_app_assoc. Qed.

Lemma parse_key_user s : parse_key ("user" +:+ s) = parse_digits s 0.
Proof. reflexivity. Qed.

Lemma parse_user_key k m :
  0 <= m < 2 ^ 64 -> parse_key ("user" +:+ (push_zeros k EmptyString +:+ u64_to_string m)) = Some m.
Proof.
  intros Hm. rewrite parse_key_user, parse_digits_app, parse_zeros.
  exact (u64_to_string_parse _ Hm).
Qed.

(** ** Range of [DefaultHasher] *)

Definition in64 (x : Z) : Prop := 0 <= x < 2 ^ 64.

Lemma land_M64_range x : in64 (Z.land x Sip.M64).
Proof.
  unfold in64, Sip.M64. rewrite Z.land_ones by lia.
  apply Z.mod_pos_bound. lia.
Qed.

Lemma lxor_range a b : in64 a -> in64 b -> in64 (Z.lxor a b).
Proof.
  unfold in64. intros Ha Hb.
  assert (0 <= Z.lxor a b) by (apply Z.lxor_nonneg; lia). split; [done|].
  destruct (Z.eq_dec (Z.lxor a b) 0) as [->|Hne]; [lia|].
  apply Z.log2_lt_pow2; [lia|].
  eapply Z.le_lt_trans; [apply Z.log2_lxor; lia|].
  apply Z.max_lub_lt;
    [destruct (Z.eq_dec a 0) as [->|]; [simpl; lia | apply Z.log2_lt_pow2; lia]
    |destruct (Z.eq_dec b 0) as [->|]; [simpl; lia | apply Z.log2_lt_pow2; lia]].
Qed.

Definition state_in64 (s : Sip.State) : Prop :=
  in64 (Sip.v0 s) /\ in64 (Sip.v1 s) /\ in64 (Sip.v2 s) /\ in64 (Sip.v3 s).

Lemma compress_range s : state_in64 (Sip.compress s).
Proof.
  unfold Sip.compress, Sip.add64, Sip.rotl64. cbv zeta.
  split_and!; simpl; auto using lxor_range, land_M64_range.
Qed.

Lemma rounds_range n s : state_in64 s -> state_in64 (Sip.rounds n s).
Proof.
  revert s. induction n as [|n IH]; intros s Hs; [done|]. apply IH, compress_range.
Qed.

Lemma finish_range c d s len tail : (1 <= d)%nat -> in64 (Sip.finish c d s len tail).
Proof.
  intros Hd. unfold Sip.finish. cbv zeta.
  generalize (Sip.absorb c s (Z.lor (Z.shiftl (Z.land len 255) 56) tail)) as s1. intros s1.
  destruct d as [|d]; [lia|]. cbn [Sip.rounds].
  destruct (rounds_range d _ (compress_range (Sip.mkState (Sip.v0 s1) (Sip.v1 s1)
              (Z.lxor (Sip.v2 s1) 255) (Sip.v3 s1)))) as (H0 & H1 & H2 & H3).
  apply lxor_range; apply lxor_range; assumption.
Qed.

Lemma default_hash_u64_range n : in64 (Sip.default_hash_u64 n).
Proof.
  unfold Sip.default_hash_u64, Sip.siphash.
  destruct (Sip.absorb_words 1 (length (Sip.to_le_bytes n)) (Sip.init 0 0) (Sip.to_le_bytes n))
    as [s tail].
  apply finish_range. lia.
Qed.

Lemma dec_digits_length fuel n acc :
  (String.length (dec_digits fuel n acc) <= fuel + String.length acc)%nat.
Proof.
  revert n acc. induction fuel as [|fuel IH]; intros n acc; cbn [dec_digits]; [lia|].
  destruct (n <? 10); [simpl; lia|]. etrans; [apply IH|]. simpl. lia.
Qed.

Lemma u64_to_string_length n : (String.length (u64_to_string n) <= 20)%nat.
Proof. apply dec_digits_length. Qed.

Lemma push_zeros_length k s : String.length (push_zeros k s) = (String.length s + k)%nat.
Proof.
  revert s. induction k as [|k IH]; intros s; cbn [push_zeros]; [lia|].
  rewrite IH, string_length_app. simpl. lia.
Qed.

Lemma make_field_names_nodup prefix count :
  count <= 2 ^ 64 -> NoDup (make_field_names prefix count).
Proof.
  intros Hc. unfold make_field_names.
  change (map ?f ?l) with (f <$> l). apply NoDup_fmap_2_strong; [|apply NoDup_seqZ].
  intros x y Hx%elem_of_seqZ Hy%elem_of_seqZ Hxy.
  apply string_app_inj_l in Hxy. apply u64_to_string_inj in Hxy; lia.
Qed.

Lemma build_values_aux_spec gen names r :
  let '(vs, r') := build_values_aux gen names r in
  vs.*1 = names /\
  Forall (fun kv => length kv.2 = Z.to_nat (Constant.value gen)) vs /\
  rng_pos r' = (rng_pos r + length names * Z.to_nat (Constant.value gen))%nat.
Proof.
  revert r. induction names as [|name names IH]; intros r; simpl; [split_and!; done || lia|].
  specialize (IH (mkRng (rng_src r) (rng_pos r + Z.to_nat (Constant.value gen)))).
  destruct (build_values_aux gen names _) as [vs r'] eqn:E. simpl in IH |- *.
  destruct IH as (Hn & Hall & Hpos). split_and!; [f_equal; exact Hn| |lia].
  constructor; [|done]. simpl. by rewrite length_map, length_seq.
Qed.

(** ** Keys *)

(** C13: reading back a key built by [build_key] gives the sequence number
    itself with [insertorder = ordered] and its [DefaultHasher] hash
    otherwise, whatever the zero padding; keys are the prefix [user], zeros
    and the decimal digits of that number. *)
Theorem build_key_roundtrip b zp n :
  0 <= n < 2 ^ 64 ->
  parse_key (build_key b zp n) = Some (if b then n else Sip.default_hash_u64 n).
Proof.
  intros Hn. rewrite build_key_unfold. cbv zeta.
  destruct b; [rewrite if_negb_true | rewrite if_negb_false];
    apply parse_user_key; [done | apply default_hash_u64_range].
Qed.

(** C25: with [insertorder = ordered], distinct sequence numbers of a
    [Counter] range give distinct keys, for every zero padding. *)
Theorem ordered_keys_distinct zp start N :
  0 <= start -> start + N <= 2 ^ 64 -> NoDup (map (build_key true zp) (seqZ start N)).
Proof.
  intros Hs HN. change (map ?f ?l) with (f <$> l).
  apply NoDup_fmap_2_strong; [|apply NoDup_seqZ].
  intros x y Hx%elem_of_seqZ Hy%elem_of_seqZ Hxy.
  apply (f_equal parse_key) in Hxy. rewrite !build_key_unfold in Hxy. cbv zeta in Hxy.
  rewrite !if_negb_true in Hxy. rewrite (parse_user_key _ x), (parse_user_key _ y) in Hxy by lia.
  congruence.
Qed.

(** C33: for a zero padding below [2^31] the key is [user], then
    [zeropadding - len] zeros, then the [len] digits: its length is
    [4 + max zeropadding len]. *)
Theorem build_key_padded_length b zp n :
  0 <= zp < 2 ^ 31 ->
  String.length (build_key b zp n) =
    (4 + Nat.max (Z.to_nat zp)
       (String.length (u64_to_string (if negb b then Sip.default_hash_u64 n else n))))%nat.
Proof.
  intros Hzp. rewrite build_key_unfold. cbv zeta.
  pose proof (u64_to_string_length (if negb b then Sip.default_hash_u64 n else n)) as Hk.
  revert Hk. generalize (u64_to_string (if negb b then Sip.default_hash_u64 n else n)).
  intros k Hk. rewrite (u32_as_i32_low zp), (wrap_i32_small (zp - _)) by lia.
  rewrite !string_length_app, push_zeros_length. simpl. lia.
Qed.

(** C34: the padding width is computed as [zeropadding as i32]: a
    [zeropadding] of [2^31 + 20] or more reads as a negative [i32] and the
    key gets no padding at all. *)
Theorem build_key_padding_overflow b zp n :
  2 ^ 31 + 20 <= zp < 2 ^ 32 ->
  build_key b zp n = "user" +:+ u64_to_string (if negb b then Sip.default_hash_u64 n else n).
Proof.
  intros Hzp. rewrite build_key_unfold. cbv zeta.
  pose proof (u64_to_string_length (if negb b then Sip.default_hash_u64 n else n)).
  rewrite (u32_as_i32_high zp), (wrap_i32_small (zp - 2 ^ 32 - _)) by lia.
  replace (Z.to_nat _) with 0%nat by lia. done.
Qed.

Lemma hashed_key_reflects zp x y :
  build_key false zp x = build_key false zp y -> Sip.default_hash_u64 x = Sip.default_hash_u64 y.
Proof.
  intros H. apply (f_equal parse_key) in H. rewrite !build_key_unfold in H.
  cbv zeta in H. rewrite !if_negb_false in H.
  rewrite (parse_user_key _ (Sip.default_hash_u64 x)),
    (parse_user_key _ (Sip.default_hash_u64 y)) in H by apply default_hash_u64_range.
  congruence.
Qed.

Lemma hashes_distinct_1000 : NoDup (map Sip.default_hash_u64 (seqZ 0 1000)).
Proof. apply (bool_decide_unpack _). vm_compute. reflexivity. Qed.

(** C26: with the default [insertorder = hashed] and [insertstart = 0],
    the keys of the first 1000 sequence numbers are pairwise distinct, for
    every zero padding: the [DefaultHasher] values of [0 .. 999] are
    distinct (checked by evaluation) and a key determines its hash. *)
Theorem hashed_keys_distinct_1000 zp : NoDup (map (build_key false zp) (seqZ 0 1000)).
Proof.
  apply (NoDup_map_reflect _ Sip.default_hash_u64); [apply hashed_key_reflects|].
  exact hashes_distinct_1000.
Qed.

(** ** Records *)

(** C35: [CoreWorkload::new] panics exactly when [fieldlengthdistribution]
    is not ["constant"]; otherwise [build_values] returns one value per
    field name, the names [prefix0 .. prefix(n-1)] are distinct, every
    buffer has [fieldlength] bytes, and the random stream advances by
    [fieldcount * fieldlength] bytes. *)
Theorem new_build_values p r :
  (Core.new p = None <-> field_length_distribution p <> "constant") /\
  (forall w, Core.new p = Some w -> 0 <= field_count p <= 2 ^ 64 ->
     let '(vs, r') := build_values w r in
     vs.*1 = make_field_names (field_name_prefix p) (field_count p) /\
     NoDup vs.*1 /\
     length vs = Z.to_nat (field_count p) /\
     Forall (fun kv => length kv.2 = Z.to_nat (field_length p)) vs /\
     rng_pos r' = (rng_pos r + Z.to_nat (field_count p) * Z.to_nat (field_length p))%nat).
Proof.
  unfold Core.new. split.
  - destruct (String.eqb_spec (field_length_distribution p) "constant"); naive_solver.
  - intros w Hw Hc. destruct (String.eqb _ _); [|done]. injection Hw as <-.
    unfold build_values. simpl.
    pose proof (build_values_aux_spec (Constant.new (field_length p))
                  (make_field_names (field_name_prefix p) (field_count p)) r) as Hs.
    destruct (build_values_aux _ _ _) as [vs r'].
    destruct Hs as (Hn & Hall & Hpos). simpl in Hall, Hpos.
    assert (Hlen : length (make_field_names (field_name_prefix p) (field_count p)) =
                   Z.to_nat (field_count p))
      by (unfold make_field_names; by rewrite length_map, length_seqZ).
    split_and!; [done | rewrite Hn; apply make_field_names_nodup; lia | | done | lia].
    rewrite <- Hlen, <- Hn. by rewrite length_fmap.
Qed.

(** ** Witnesses *)

Lemma build_key_roundtrip_witness : parse_key (build_key true 8 42) = Some 42.
Proof. exact (build_key_roundtrip true 8 42 ltac:(lia)). Defined.

Lemma ordered_keys_distinct_witness : NoDup (map (build_key true 1) (seqZ 0 1000)).
Proof. exact (ordered_keys_distinct 1 0 1000 ltac:(lia) ltac:(lia)). Defined.

Lemma build_key_padded_length_witness : String.length (build_key true 8 42) = 12%nat.
Proof. exact (build_key_padded_length true 8 42 ltac:(lia)). Defined.

Lemma build_key_padding_overflow_witness : build_key true (2 ^ 31 + 100) 42 = "user42".
Proof. exact (build_key_padding_overflow true (2 ^ 31 + 100) 42 ltac:(lia)). Defined.

Lemma new_build_values_witness :
  exists w, Core.new default_properties = Some w /\
    let '(vs, _) := build_values w (mkRng (fun _ => Byte.x00) 0) in
    NoDup vs.*1 /\ length vs = 10%nat.
Proof.
  destruct (new_build_values default_properties (mkRng (fun _ => Byte.x00) 0)) as [_ H].
  eexists. split; [reflexivity|].
  specialize (H _ eq_refl ltac:(simpl; lia)).
  destruct (build_values _ _) as [vs r']. destruct H as (_ & Hnd & Hl & _).
  split; [exact Hnd | exact Hl].
Defined.

End KeysFacts.
