(* ===== verification/Client.v ===== *)
(** The per-worker client of [src/ycsb/src/client.rs]: its properties, the
    striping partition of [recordcount] and [operationcount] over the
    workers, [setup_initial_data] (the load loop: [do_insert] then a
    relaxed [fetch_add] on the worker's progress counter) and [benchmark]
    (the run loop, which only counts).  The loops are written against the
    [DB] and [Workload] interfaces, so their theorems hold for any engine
    satisfying [DBLaws]. *)

From S2P Require Import Prelude Db Generators StdBTree Keys.

Module Client.

(** [pub struct ClientProperties]: two [u64]s, default 0. *)
Record ClientProperties := mkClientProperties {
  operation_count : Z;
  record_count : Z
}.

Definition default_client_properties : ClientProperties := mkClientProperties 0 0.

(** [pub struct Client<T: DB, U: Workload>]: the engine handle, the thread
    index and count, and the value of its [progress] counter (an
    [Arc<AtomicU64>] shared with the coordinator). The [Arc<U>] workload
    is shared by all workers and is passed to the operations. *)
Record Client (H : Type) := mkClient {
  props : ClientProperties;
  db : H;
  thread_index : Z;
  thread_count : Z;
  progress : Z
}.
Arguments mkClient {H}.
Arguments props {H}.
Arguments db {H}.
Arguments thread_index {H}.
Arguments thread_count {H}.
Arguments progress {H}.

(** [Client::new]: [T::new(props)] for the handle. *)
Definition new {S H} `{!DB S H} (p : ClientProperties) (idx count : Z) (progress : Z) : Client H :=
  mkClient p db_new idx count progress.

(** The count of lines 50-56 and 64-71:
    [total / thread_count + (if thread_index < total % thread_count {1} else {0})];
    a zero [thread_count] panics (division by zero). *)
Definition stripe_count (total thread_index thread_count : Z) : option Z :=
  if thread_count =? 0 then None
  else Some (total / thread_count + (if thread_index <? total mod thread_count then 1 else 0)).

(** The body of the load loop: [self.workload.do_insert(&mut self.db);
    self.progress.fetch_add(1, Ordering::Relaxed);]. *)
Definition load_step {S H W} `{!DB S H} `{!Workload W} (c : Client H) (w : W) (r : Core.Rng) (s : S)
  : option (Client H * W * Core.Rng * S) :=
  match wl_do_insert w r s (db c) with
  | None => None
  | Some (w, r, s, h) =>
      Some (mkClient (props c) h (thread_index c) (thread_count c) (progress c +w 1)%ycsb, w, r, s)
  end.

Fixpoint load_loop {S H W} `{!DB S H} `{!Workload W} (n : nat) (c : Client H) (w : W)
    (r : Core.Rng) (s : S) : option (Client H * W * Core.Rng * S) :=
  match n with
  | O => Some (c, w, r, s)
  | S n =>
      match load_step c w r s with
      | None => None
      | Some (c, w, r, s) => load_loop n c w r s
      end
  end.

(** [pub fn setup_initial_data(&mut self)]: [for _ in 0..count]. *)
Definition setup_initial_data {S H W} `{!DB S H} `{!Workload W} (c : Client H) (w : W)
    (r : Core.Rng) (s : S) : option (Client H * W * Core.Rng * S) :=
  match stripe_count (record_count (props c)) (thread_index c) (thread_count c) with
  | None => None
  | Some count => load_loop (Z.to_nat count) c w r s
  end.

(** [pub fn benchmark(&mut self)]: [count] relaxed increments. *)
Fixpoint bench_loop {H} (n : nat) (c : Client H) : Client H :=
  match n with
  | O => c
  | S n => bench_loop n (mkClient (props c) (db c) (thread_index c) (thread_count c)
                           (progress c +w 1)%ycsb)
  end.

Definition benchmark {H} (c : Client H) : option (Client H) :=
  match stripe_count (operation_count (props c)) (thread_index c) (thread_count c) with
  | None => None
  | Some count => Some (bench_loop (Z.to_nat count) c)
  end.

End Client.

Module ClientFacts.
Import Client.

(** ** The striping partition *)

Lemma sumZ_indicator r n :
  0 <= r ->
  sumZ (fun i => if i <? r then 1 else 0) (seqZ 0 (Z.of_nat n)) = Z.min r (Z.of_nat n).
Proof.
  intros Hr. induction n as [|n IH]; [simpl; lia|].
  rewrite seqZ_S, sumZ_app, IH. simpl. destruct (Z.ltb_spec (0 + Z.of_nat n) r); lia.
Qed.

Lemma sumZ_const_plus (c : Z) (f : Z -> Z) n :
  sumZ (fun i => c + f i) (seqZ 0 (Z.of_nat n)) = Z.of_nat n * c + sumZ f (seqZ 0 (Z.of_nat n)).
Proof. induction n as [|n IH]; [done|]. rewrite !seqZ_S, !sumZ_app, IH. simpl. lia. Qed.

Lemma stripe_count_some total i tc :
  1 <= tc -> stripe_count total i tc = Some (total / tc + (if i <? total mod tc then 1 else 0)).
Proof. intros Htc. unfold stripe_count. destruct (Z.eqb_spec tc 0); [lia|done]. Qed.

Lemma stripe_sum total tc :
  0 <= total -> 1 <= tc ->
  sumZ (fun i => default 0 (stripe_count total i tc)) (seqZ 0 tc) = total.
Proof.
  intros Ht Htc.
  rewrite (sumZ_ext _ (fun i => total / tc + (if i <? total mod tc then 1 else 0)));
    [|intros i _; by rewrite stripe_count_some].
  pose proof (sumZ_const_plus (total / tc) (fun i => if i <? total mod tc then 1 else 0)
                (Z.to_nat tc)) as Hs.
  pose proof (sumZ_indicator (total mod tc) (Z.to_nat tc)) as Hi.
  rewrite Z2Nat.id in Hs, Hi by lia. rewrite Hs, Hi by (apply Z.mod_pos_bound; lia).
  pose proof (Z.mod_pos_bound total tc ltac:(lia)). pose proof (Z.div_mod total tc ltac:(lia)).
  rewrite Z.min_l; lia.
Qed.

Lemma stripe_count_range total i tc :
  0 <= total -> 0 <= i -> 1 <= tc ->
  exists k, stripe_count total i tc = Some k /\ 0 <= k <= total.
Proof.
  intros Ht Hi Htc. rewrite stripe_count_some by done. eexists. split; [done|].
  pose proof (Z.mod_pos_bound total tc ltac:(lia)). pose proof (Z.div_mod total tc ltac:(lia)).
  assert (0 <= total / tc) by (apply Z.div_pos; lia).
  assert (total / tc * 1 <= total / tc * tc) by (apply Z.mul_le_mono_nonneg_l; lia).
  destruct (Z.ltb_spec i (total mod tc)); lia.
Qed.

(** C7: for [T >= 1] workers and a total [R >= 0], the counts the workers
    compute sum to [R] exactly and no two of them differ by more than one. *)
Theorem stripe_partition total tc :
  0 <= total -> 1 <= tc ->
  sumZ (fun i => default 0 (stripe_count total i tc)) (seqZ 0 tc) = total /\
  (forall i j ki kj, stripe_count total i tc = Some ki -> stripe_count total j tc = Some kj ->
     Z.abs (ki - kj) <= 1).
Proof.
  intros Ht Htc. split; [by apply stripe_sum|].
  intros i j ki kj Hi Hj. rewrite stripe_count_some in Hi, Hj by done.
  injection Hi as <-. injection Hj as <-.
  destruct (i <? _), (j <? _); lia.
Qed.

(** C32: the count of worker [i] is [R / T + 1] for the first [R mod T]
    workers and [R / T] for the others; it never exceeds [R], so the
    [+ 1] cannot overflow a [u64]; with [T = 0] the division panics. *)
Theorem stripe_count_bounds total i tc :
  0 <= total < 2 ^ 64 -> 0 <= i ->
  (tc = 0 -> stripe_count total i tc = None) /\
  (1 <= tc -> exists k, stripe_count total i tc = Some k /\ 0 <= k <= total /\
     (k = total / tc + 1 <-> i < total mod tc) /\ (k = total / tc <-> total mod tc <= i)).
Proof.
  intros Ht Hi. split.
  - intros ->. done.
  - intros Htc. rewrite stripe_count_some by done. eexists. split; [done|].
    pose proof (Z.mod_pos_bound total tc ltac:(lia)). pose proof (Z.div_mod total tc ltac:(lia)).
    assert (0 <= total / tc) by (apply Z.div_pos; lia).
    assert (total / tc * 1 <= total / tc * tc) by (apply Z.mul_le_mono_nonneg_l; lia).
    destruct (Z.ltb_spec i (total mod tc)); split_and!; lia.
Qed.

(** ** The loops, against the [DB] interface *)

Section Loops.
Context {S H : Type} `{!DB S H} `{!DBLaws S H}.

Lemma do_insert_spec (w : Core.CoreWorkload) r s h :
  db_shared_inv s -> db_handle_inv s h ->
  exists w' r' s' h', Core.do_insert w r s h = Some (w', r', s', h') /\
    db_shared_inv s' /\ db_handle_inv s' h' /\
    (forall h2, db_handle_inv s h2 -> db_handle_inv s' h2) /\
    Counter.counter (Core.key_sequence w') = (Counter.counter (Core.key_sequence w) +w 1)%ycsb /\
    Core.props w' = Core.props w.
Proof.
  intros Hs Hh. unfold Core.do_insert. simpl.
  destruct (Core.build_values w r) as [vs r'].
  destruct (db_insert_total s h (Core.table (Core.props w))
              (Core.build_key (Core.ordered_inserts w) (Core.zero_padding (Core.props w))
                 (Counter.counter (Core.key_sequence w))) vs Hs Hh)
    as (s' & h' & res & -> & Hs' & Hh' & Hframe).
  do 4 eexists. split; [reflexivity|]. simpl. auto.
Qed.

Lemma load_loop_spec n (c : Client H) (w : Core.CoreWorkload) r s :
  0 <= progress c < 2 ^ 64 -> 0 <= Counter.counter (Core.key_sequence w) < 2 ^ 64 ->
  db_shared_inv s -> db_handle_inv s (db c) ->
  exists c' w' r' s', load_loop n c w r s = Some (c', w', r', s') /\
    progress c' = wrap_u64 (progress c + Z.of_nat n) /\
    Counter.counter (Core.key_sequence w') =
      wrap_u64 (Counter.counter (Core.key_sequence w) + Z.of_nat n) /\
    props c' = props c /\ thread_index c' = thread_index c /\ thread_count c' = thread_count c /\
    Core.props w' = Core.props w /\
    db_shared_inv s' /\ db_handle_inv s' (db c') /\
    (forall h2, db_handle_inv s h2 -> db_handle_inv s' h2).
Proof.
  revert c w r s. induction n as [|n IH]; intros c w r s Hp Hk Hs Hh.
  - exists c, w, r, s. rewrite !Z.add_0_r, !wrap_u64_small by done. auto 10.
  - destruct (do_insert_spec w r s (db c) Hs Hh)
      as (w1 & r1 & s1 & h1 & Hins & Hs1 & Hh1 & Hf1 & Hk1 & Hp1).
    cbn [load_loop]. unfold load_step. simpl. rewrite Hins.
    destruct (IH (mkClient (props c) h1 (thread_index c) (thread_count c) (progress c +w 1)%ycsb)
                w1 r1 s1) as (c' & w' & r' & s' & Hl & Hp' & Hk' & Hpr & Hti & Htc & Hwp & Hs' & Hh' & Hf');
      [apply wrap_u64_range | rewrite Hk1; apply wrap_u64_range | done | done |].
    exists c', w', r', s'. rewrite Hl. simpl in *.
    rewrite Hp', Hk', Hk1, !wrap_u64_add_wrap_l. split_and!; auto; try (f_equal; lia).
    congruence.
Qed.

Lemma bench_loop_spec n (c : Client H) :
  0 <= progress c < 2 ^ 64 ->
  progress (bench_loop n c) = wrap_u64 (progress c + Z.of_nat n) /\
  db (bench_loop n c) = db c /\ props (bench_loop n c) = props c.
Proof.
  revert c. induction n as [|n IH]; intros c Hp; simpl.
  - rewrite Z.add_0_r, wrap_u64_small by done. auto.
  - destruct (IH (mkClient (props c) (db c) (thread_index c) (thread_count c)
                  (progress c +w 1)%ycsb)) as (-> & -> & ->); [apply wrap_u64_range|].
    simpl. rewrite wrap_u64_add_wrap_l. split_and!; [f_equal; lia|done|done].
Qed.

(** C21: [setup_initial_data] of worker [i] of [T >= 1], over any engine
    satisfying the [DB] laws, never panics, performs exactly its stripe
    count [k] of inserts: its progress counter and the shared key
    sequence both advance by [k], and the engine invariants of every
    handle are kept. *)
Theorem setup_initial_data_spec (c : Client H) (w : Core.CoreWorkload) r s :
  1 <= thread_count c -> 0 <= thread_index c -> 0 <= record_count (props c) ->
  0 <= progress c < 2 ^ 64 -> 0 <= Counter.counter (Core.key_sequence w) < 2 ^ 64 ->
  db_shared_inv s -> db_handle_inv s (db c) ->
  exists k c' w' r' s',
    stripe_count (record_count (props c)) (thread_index c) (thread_count c) = Some k /\
    setup_initial_data c w r s = Some (c', w', r', s') /\
    progress c' = wrap_u64 (progress c + k) /\
    Counter.counter (Core.key_sequence w') = wrap_u64 (Counter.counter (Core.key_sequence w) + k) /\
    db_shared_inv s' /\ db_handle_inv s' (db c') /\
    (forall h2, db_handle_inv s h2 -> db_handle_inv s' h2).
Proof.
  intros Htc Hti Hrc Hp Hk Hs Hh. unfold setup_initial_data.
  rewrite stripe_count_some by done.
  set (k := _ / _ + _).
  assert (0 <= k) by (subst k; assert (0 <= record_count (props c) / thread_count c)
                        by (apply Z.div_pos; lia); destruct (_ <? _); lia).
  destruct (load_loop_spec (Z.to_nat k) c w r s Hp Hk Hs Hh)
    as (c' & w' & r' & s' & Hl & Hp' & Hk' & _ & _ & _ & _ & Hs' & Hh' & Hf).
  rewrite Z2Nat.id in Hp', Hk' by done.
  exists k, c', w', r', s'. auto 10.
Qed.

(** C31: [benchmark] of worker [i] of [T >= 1] only counts: its progress
    counter advances by its stripe count of [operationcount]. *)
Theorem benchmark_spec (c : Client H) :
  1 <= thread_count c -> 0 <= thread_index c -> 0 <= operation_count (props c) ->
  0 <= progress c < 2 ^ 64 ->
  exists k c', stripe_count (operation_count (props c)) (thread_index c) (thread_count c) = Some k /\
    benchmark c = Some c' /\ progress c' = wrap_u64 (progress c + k) /\
    db c' = db c /\ props c' = props c.
Proof.
  intros Htc Hti Hoc Hp. unfold benchmark. rewrite stripe_count_some by done.
  set (k := _ / _ + _).
  assert (0 <= k) by (subst k; assert (0 <= operation_count (props c) / thread_count c)
                        by (apply Z.div_pos; lia); destruct (_ <? _); lia).
  destruct (bench_loop_spec (Z.to_nat k) c Hp) as (Hp' & Hdb & Hpr).
  rewrite Z2Nat.id in Hp' by done. eauto 10.
Qed.

End Loops.

(** ** Witnesses: 1000 records over 4 workers, on the [StdBTree] engine *)

Import StdBTree.StdBTree StdBTreeFacts.

Lemma stripe_partition_witness :
  sumZ (fun i => default 0 (stripe_count 1000 i 4)) (seqZ 0 4) = 1000 /\
  (forall i j ki kj, stripe_count 1000 i 4 = Some ki -> stripe_count 1000 j 4 = Some kj ->
     Z.abs (ki - kj) <= 1).
Proof. exact (stripe_partition 1000 4 ltac:(lia) ltac:(lia)). Defined.

Lemma stripe_count_bounds_witness :
  (4 = 0 -> stripe_count 1002 1 4 = None) /\
  (1 <= 4 -> exists k, stripe_count 1002 1 4 = Some k /\ 0 <= k <= 1002 /\
     (k = 1002 / 4 + 1 <-> 1 < 1002 mod 4) /\ (k = 1002 / 4 <-> 1002 mod 4 <= 1)).
Proof. exact (stripe_count_bounds 1002 1 4 ltac:(lia) ltac:(lia)). Defined.

Definition witness_client : Client StdBTree.StdBTreeMapMutex :=
  mkClient (mkClientProperties 0 1000) StdBTree.new_handle 1 4 0.

Definition witness_workload : Core.CoreWorkload :=
  Core.mkCoreWorkload Core.default_properties (Counter.new 0) false (Constant.new 100)
    (Core.make_field_names "field" 10).

Lemma setup_initial_data_spec_witness :
  exists k c' w' r' s',
    stripe_count 1000 1 4 = Some k /\
    setup_initial_data witness_client witness_workload (Core.mkRng (fun _ => Byte.x00) 0)
      StdBTree.globals_init = Some (c', w', r', s') /\
    progress c' = wrap_u64 (0 + k) /\
    Counter.counter (Core.key_sequence w') = wrap_u64 (0 + k) /\
    StdBTree.cm_wf (StdBTree.COLUMN_MAPPING s') /\
    StdBTree.cache_sound (StdBTree.COLUMN_MAPPING s') (StdBTree.columns_cache (db c')) /\
    (forall h2, StdBTree.cache_sound (StdBTree.COLUMN_MAPPING StdBTree.globals_init)
                  (StdBTree.columns_cache h2) ->
                StdBTree.cache_sound (StdBTree.COLUMN_MAPPING s') (StdBTree.columns_cache h2)).
Proof.
  exact (setup_initial_data_spec witness_client witness_workload (Core.mkRng (fun _ => Byte.x00) 0)
           StdBTree.globals_init ltac:(simpl; lia) ltac:(simpl; lia) ltac:(simpl; lia)
           ltac:(simpl; lia) ltac:(simpl; lia)
           StdBTreeFacts.cm_wf_empty (StdBTreeFacts.new_handle_sound _)).
Defined.

Lemma benchmark_spec_witness :
  exists k c', stripe_count 10 1 4 = Some k /\
    benchmark (mkClient (mkClientProperties 10 1000) StdBTree.new_handle 1 4 0) = Some c' /\
    progress c' = wrap_u64 (0 + k) /\ db c' = StdBTree.new_handle /\
    props c' = mkClientProperties 10 1000.
Proof.
  exact (benchmark_spec
           (mkClient (mkClientProperties 10 1000) StdBTree.new_handle 1 4 0)
           ltac:(simpl; lia) ltac:(simpl; lia) ltac:(simpl; lia) ltac:(simpl; lia)).
Defined.

End ClientFacts.
