(* ===== verification/Driver.v ===== *)
(** The benchmark driver of [src/ycsb/src/main.rs]: the coordinator
    ([main] with its [show_progress] closure) and the [T] worker threads
    spawned by [init_clients_internal], synchronised by one [Barrier] of
    size [T + 1] used three times.  The whole process is a state
    ([DState]) and an actor-indexed step function [step]: each call of
    [step] is one atomic action of one thread, or the release of a barrier
    once every participant has arrived.  The scheduler's choice of actor
    is the only nondeterminism; [dstep] is the step relation and
    [reachable] its reflexive-transitive closure from [init_state].
    [Instant::now()] reads a logical clock [d_clock] that every step
    advances.  Workers' progress counters are the [progress] fields of
    their [Client]s, which the coordinator reads when it polls. *)

From S2P Require Import Prelude Db Generators StdBTree Keys Client.

Module Driver.
Import Client.

(** Where a worker thread is in the closure of lines 140-168. *)
Inductive wpc :=
  | WB1                        (* at [barrier.wait()] of line 152 *)
  | WLoadStart                 (* entering [setup_initial_data] *)
  | WLoad (rem : nat) (pend : bool)
      (* in the load loop, [rem] iterations left; [pend]: the insert of the
         current iteration is done, its [fetch_add] not yet *)
  | WB2                        (* at [barrier.wait()] of line 159 *)
  | WReset                     (* before [progress_client.store(0)] *)
  | WBenchStart                (* entering [benchmark] *)
  | WBench (rem : nat)         (* in the run loop *)
  | WB3                        (* at [barrier.wait()] of line 167 *)
  | WExit                      (* the closure has returned *)
  | WPanic.                    (* the thread panicked *)

#[export] Instance wpc_eq_dec : EqDecision wpc.
Proof. solve_decision. Defined.

(** Where the coordinator is in [main], lines 56-84. *)
Inductive cpc :=
  | CB1                        (* at [barrier.wait()] of line 57 *)
  | CStart                     (* before [start_time = Instant::now()] *)
  | CLoadPoll (prev : Z)       (* in [show_progress(record_count)] *)
  | CB2                        (* at [barrier.wait()] of line 62 *)
  | CReport                    (* lines 63-74 *)
  | CRunPoll (prev : Z)        (* in [show_progress(operation_count)] *)
  | CB3                        (* at [barrier.wait()] of line 78 *)
  | CJoin                      (* the [join] loop of lines 80-82 *)
  | CDone                      (* [Ok(())] *)
  | CPanic.                    (* the coordinator panicked *)

#[export] Instance cpc_eq_dec : EqDecision cpc.
Proof. solve_decision. Defined.

(** Lines printed by the coordinator: a progress line (line 47) and the
    load time in clock ticks (line 70). *)
Inductive output :=
  | OutProgress (percentage progress count : Z)
  | OutInsertTime (ticks : nat).

(** The scheduler's choice: a worker, the coordinator, or the barrier. *)
Inductive actor := AWorker (i : nat) | ACoord | ABarrier.

Section Driver.
Context {S H : Type} `{!DB S H}.

(** A worker thread: its position, its [Client] (whose [progress] is the
    shared [Arc<AtomicU64>]), its [thread_rng()] and the two timestamps
    behind the [Arc<Mutex<Instant>>]s of [ClientHandle]. *)
Record Worker := mkWorker {
  w_pc : wpc;
  w_client : Client H;
  w_rng : Core.Rng;
  w_insert_end : nat;
  w_bench_end : nat
}.

(** The process: the shared [Arc<CoreWorkload>], the engine's shared
    state, the workers in spawn order, the coordinator, [start_time], the
    clock and the output. *)
Record DState := mkDState {
  d_props : ClientProperties;
  d_workload : Core.CoreWorkload;
  d_db : S;
  d_workers : list Worker;
  d_coord : cpc;
  d_start : nat;
  d_clock : nat;
  d_out : list output
}.

Definition set_pc (w : Worker) (pc : wpc) : Worker :=
  mkWorker pc (w_client w) (w_rng w) (w_insert_end w) (w_bench_end w).

Definition set_progress (c : Client H) (p : Z) : Client H :=
  mkClient (props c) (db c) (thread_index c) (thread_count c) p.

(** [init_clients_internal]: worker [i] of [T] is spawned with a fresh
    progress counter 0, both timestamps [Instant::now()], and runs
    [Client::new] (which creates its engine handle with [T::new]);
    [init_workload] ([CoreWorkload::init] is empty) and [init_database]
    (empty) do nothing, so the thread goes straight to the first barrier. *)
Definition spawn (p : ClientProperties) (T : nat) (rngs : nat -> Core.Rng) (i : nat) : Worker :=
  mkWorker WB1 (Client.new p (Z.of_nat i) (Z.of_nat T) 0) (rngs i) 0 0.

Definition init_state (p : ClientProperties) (T : nat) (w : Core.CoreWorkload) (s : S)
    (rngs : nat -> Core.Rng) : DState :=
  mkDState p w s (spawn p T rngs <$> seq 0 T) CB1 0 0 [].

(** One iteration of [show_progress(count)] after its sleep: the sum of
    the workers' counters, the percentage (a division by zero panics when
    [count = 0]), the line printed when the percentage changed, and
    whether the loop exits.  The [.sum()] and [progress * 100] are [u64]
    operations, which wrap in a release build. *)
Definition poll (count prev : Z) (ws : list Worker) : option (Z * list output * bool) :=
  let progress := wrap_u64 (sumZ (fun w => Client.progress (w_client w)) ws) in
  if count =? 0 then None
  else
    let percentage := wrap_u64 (progress * 100) / count in
    let out := if negb (prev =? percentage) then [OutProgress percentage progress count] else [] in
    let prev := if negb (prev =? percentage) then percentage else prev in
    Some (prev, out, progress =? count).

(** The maximum of the workers' [insert_end_time]s; [None] for no worker,
    where [.max().unwrap()] panics. *)
Definition max_insert_end (ws : list Worker) : option nat :=
  match ws with
  | [] => None
  | w :: ws => Some (foldl (fun m w => Nat.max m (w_insert_end w)) (w_insert_end w) ws)
  end.

(** One action of worker [w]; [None] when it is blocked at a barrier or
    finished.  The shared workload and engine state and the clock are
    passed in and returned. *)
Definition worker_step (p : ClientProperties) (wl : Core.CoreWorkload) (s : S) (now : nat)
    (w : Worker) : option (Core.CoreWorkload * S * Worker) :=
  let c := w_client w in
  match w_pc w with
  | WLoadStart =>
      match stripe_count (record_count (props c)) (thread_index c) (thread_count c) with
      | None => Some (wl, s, set_pc w WPanic)
      | Some k => Some (wl, s, set_pc w (WLoad (Z.to_nat k) false))
      end
  | WLoad (Datatypes.S rem) false =>
      match Core.do_insert wl (w_rng w) s (db c) with
      | None => Some (wl, s, set_pc w WPanic)
      | Some (wl', r', s', h') =>
          Some (wl', s', mkWorker (WLoad rem true)
                           (mkClient (props c) h' (thread_index c) (thread_count c) (progress c))
                           r' (w_insert_end w) (w_bench_end w))
      end
  | WLoad rem true =>
      Some (wl, s, mkWorker (WLoad rem false) (set_progress c (progress c +w 1)%ycsb)
                     (w_rng w) (w_insert_end w) (w_bench_end w))
  | WLoad O false =>
      Some (wl, s, mkWorker WB2 c (w_rng w) now (w_bench_end w))
  | WReset =>
      Some (wl, s, mkWorker WBenchStart (set_progress c 0) (w_rng w) (w_insert_end w) (w_bench_end w))
  | WBenchStart =>
      match stripe_count (operation_count (props c)) (thread_index c) (thread_count c) with
      | None => Some (wl, s, set_pc w WPanic)
      | Some k => Some (wl, s, set_pc w (WBench (Z.to_nat k)))
      end
  | WBench (Datatypes.S rem) =>
      Some (wl, s, mkWorker (WBench rem) (set_progress c (progress c +w 1)%ycsb)
                     (w_rng w) (w_insert_end w) (w_bench_end w))
  | WBench O =>
      Some (wl, s, mkWorker WB3 c (w_rng w) (w_insert_end w) now)
  | WB1 | WB2 | WB3 | WExit | WPanic => None
  end.

Definition all_at (pc : wpc) (ws : list Worker) : bool :=
  forallb (fun w => bool_decide (w_pc w = pc)) ws.

Definition with_clock (st : DState) (ws : list Worker) (c : cpc) (start : nat)
    (out : list output) (wl : Core.CoreWorkload) (s : S) : DState :=
  mkDState (d_props st) wl s ws c start (Datatypes.S (d_clock st)) out.

(** One atomic action of [a] in [st]. *)
Definition step (a : actor) (st : DState) : option DState :=
  let ws := d_workers st in
  let wl := d_workload st in
  let s := d_db st in
  match a with
  | AWorker i =>
      match ws !! i with
      | None => None
      | Some w =>
          match worker_step (d_props st) wl s (d_clock st) w with
          | None => None
          | Some (wl', s', w') =>
              Some (with_clock st (<[i := w']> ws) (d_coord st) (d_start st) (d_out st) wl' s')
          end
      end
  | ACoord =>
      match d_coord st with
      | CStart => Some (with_clock st ws (CLoadPoll 0) (d_clock st) (d_out st) wl s)
      | CLoadPoll prev =>
          match poll (record_count (d_props st)) prev ws with
          | None => Some (with_clock st ws CPanic (d_start st) (d_out st) wl s)
          | Some (prev', out, done) =>
              Some (with_clock st ws (if done then CB2 else CLoadPoll prev') (d_start st)
                      (d_out st ++ out) wl s)
          end
      | CReport =>
          match max_insert_end ws with
          | None => Some (with_clock st ws CPanic (d_start st) (d_out st) wl s)
          | Some e =>
              Some (with_clock st ws (CRunPoll 0) (d_start st)
                      (d_out st ++ [OutInsertTime (e - d_start st)]) wl s)
          end
      | CRunPoll prev =>
          match poll (operation_count (d_props st)) prev ws with
          | None => Some (with_clock st ws CPanic (d_start st) (d_out st) wl s)
          | Some (prev', out, done) =>
              Some (with_clock st ws (if done then CB3 else CRunPoll prev') (d_start st)
                      (d_out st ++ out) wl s)
          end
      | CJoin => Some (with_clock st ws CDone (d_start st) (d_out st) wl s)
      | CB1 | CB2 | CB3 | CDone | CPanic => None
      end
  | ABarrier =>
      let release (pc pc' : wpc) (c' : cpc) :=
        if all_at pc ws then
          Some (with_clock st ((fun w => set_pc w pc') <$> ws) c' (d_start st) (d_out st) wl s)
        else None in
      match d_coord st with
      | CB1 => release WB1 WLoadStart CStart
      | CB2 => release WB2 WReset CReport
      | CB3 => release WB3 WExit CJoin
      | _ => None
      end
  end.

Definition dstep (st st' : DState) : Prop := exists a, step a st = Some st'.

Definition reachable (st0 st : DState) : Prop := rtc dstep st0 st.

(** A schedule run to its end; [None] when a chosen actor is blocked. *)
Fixpoint run (sched : list actor) (st : DState) : option DState :=
  match sched with
  | [] => Some st
  | a :: sched => match step a st with None => None | Some st' => run sched st' end
  end.

End Driver.

Arguments Worker : clear implicits.
Arguments DState : clear implicits.

End Driver.

(** * Invariant of the driver *)

Module DriverFacts.
Import Client ClientFacts Driver.

Section Inv.
Context {S H : Type} `{!DB S H} `{!DBLaws S H}.

(** The worker's stripes of [recordcount] and [operationcount], as its
    client computes them at the start of each loop. *)
Definition kcount (w : Worker H) : Z :=
  default 0 (stripe_count (record_count (props (w_client w))) (thread_index (w_client w))
               (thread_count (w_client w))).

Definition ocount (w : Worker H) : Z :=
  default 0 (stripe_count (operation_count (props (w_client w))) (thread_index (w_client w))
               (thread_count (w_client w))).

(** The inserts worker [w] has completed. *)
Definition loaded (w : Worker H) : Z :=
  match w_pc w with
  | WB1 | WLoadStart | WPanic => 0
  | WLoad rem _ => kcount w - Z.of_nat rem
  | _ => kcount w
  end.

(** The value its progress counter holds at each point of the closure. *)
Definition expected_progress (w : Worker H) : Z :=
  match w_pc w with
  | WB1 | WLoadStart | WBenchStart | WPanic => 0
  | WLoad rem pend => kcount w - Z.of_nat rem - (if pend then 1 else 0)
  | WB2 | WReset => kcount w
  | WBench rem => ocount w - Z.of_nat rem
  | WB3 | WExit => ocount w
  end.

Definition pc_ok (w : Worker H) : Prop :=
  match w_pc w with
  | WLoad rem pend => Z.of_nat rem + (if pend then 1 else 0) <= kcount w
  | WBench rem => Z.of_nat rem <= ocount w
  | WPanic => False
  | _ => True
  end.

(** The phase a thread is in: setup, load, run, finished. *)
Definition wphase (pc : wpc) : nat :=
  match pc with
  | WB1 => 1
  | WLoadStart | WLoad _ _ | WB2 => 2
  | WReset | WBenchStart | WBench _ | WB3 => 3
  | WExit | WPanic => 4
  end.

Definition coord_ok (c : cpc) (ph : nat) : Prop :=
  match c with
  | CB1 => ph = 1%nat
  | CStart | CLoadPoll _ | CB2 => ph = 2%nat
  | CReport | CRunPoll _ | CB3 => ph = 3%nat
  | CJoin | CDone => ph = 4%nat
  | CPanic => ph = 2%nat \/ ph = 3%nat
  end.

Record winv (p : ClientProperties) (T : nat) (s : S) (i : nat) (w : Worker H) : Prop := {
  wi_props : props (w_client w) = p;
  wi_index : thread_index (w_client w) = Z.of_nat i;
  wi_count : thread_count (w_client w) = Z.of_nat T;
  wi_handle : db_handle_inv s (db (w_client w));
  wi_progress : progress (w_client w) = expected_progress w;
  wi_pc : pc_ok w
}.

Definition with_counter (wl : Core.CoreWorkload) (n : Z) : Core.CoreWorkload :=
  Core.mkCoreWorkload (Core.props wl) (Counter.mkCounter n) (Core.ordered_inserts wl)
    (Core.field_length_generator wl) (Core.field_names wl).

(** The key of the [j]-th insert of the run. *)
Definition key_of (wl0 : Core.CoreWorkload) (j : Z) : string :=
  Core.build_key (Core.ordered_inserts wl0) (Core.zero_padding (Core.props wl0))
    (wrap_u64 (Counter.counter (Core.key_sequence wl0) + j)).

Definition u64_props (p : ClientProperties) : Prop :=
  0 <= record_count p < 2 ^ 64 /\ 0 <= operation_count p < 2 ^ 64.

(** The driver invariant: every worker's client, handle and counter agree
    with its position; the shared key sequence has advanced by the number
    of completed inserts and the table holds exactly their keys besides
    the initial ones; all threads are in the coordinator's phase; and once
    the coordinator has left the load-phase polling loop the counters sum
    to [recordcount]. *)
Record dinv (wl0 : Core.CoreWorkload) (keys0 : gset string) (st : DState S H) : Prop := {
  di_props : u64_props (d_props st);
  di_start : 0 <= Counter.counter (Core.key_sequence wl0) < 2 ^ 64;
  di_shared : db_shared_inv (d_db st);
  di_workers : forall i w, d_workers st !! i = Some w ->
    winv (d_props st) (length (d_workers st)) (d_db st) i w;
  di_workload : d_workload st =
    with_counter wl0 (wrap_u64 (Counter.counter (Core.key_sequence wl0) + sumZ loaded (d_workers st)));
  di_keys : db_keys (d_db st) =
    keys0 ∪ list_to_set (map (key_of wl0) (seqZ 0 (sumZ loaded (d_workers st))));
  di_phase : exists ph, Forall (fun w => wphase (w_pc w) = ph) (d_workers st) /\
    coord_ok (d_coord st) ph;
  di_cb2 : d_coord st = CB2 -> sumZ expected_progress (d_workers st) = record_count (d_props st)
}.

(** ** One worker's action *)

Lemma winv_frame p T s s' i w :
  winv p T s i w -> (forall h2, db_handle_inv s h2 -> db_handle_inv s' h2) -> winv p T s' i w.
Proof. intros [] Hf. split; auto. Qed.

Lemma winv_counts p T s i w :
  u64_props p -> (i < T)%nat -> winv p T s i w ->
  0 <= kcount w <= record_count p /\ 0 <= ocount w <= operation_count p.
Proof.
  intros [Hr Ho] HiT [Hp Hi Hc _ _ _]. unfold kcount, ocount. rewrite Hp, Hi, Hc.
  destruct (stripe_count_range (record_count p) (Z.of_nat i) (Z.of_nat T)) as (k & -> & ?); [lia..|].
  destruct (stripe_count_range (operation_count p) (Z.of_nat i) (Z.of_nat T)) as (o & -> & ?); [lia..|].
  simpl. lia.
Qed.

Lemma do_insert_inv wl r s h wl' r' s' h' :
  db_shared_inv s -> db_handle_inv s h -> Core.do_insert wl r s h = Some (wl', r', s', h') ->
  db_shared_inv s' /\ db_handle_inv s' h' /\ (forall h2, db_handle_inv s h2 -> db_handle_inv s' h2) /\
  wl' = with_counter wl (Counter.counter (Core.key_sequence wl) +w 1)%ycsb /\
  db_keys s' = {[Core.build_key (Core.ordered_inserts wl) (Core.zero_padding (Core.props wl))
                   (Counter.counter (Core.key_sequence wl))]} ∪ db_keys s.
Proof.
  intros Hs Hh. unfold Core.do_insert. simpl.
  destruct (Core.build_values wl r) as [vs r1].
  edestruct (db_insert_total s h) as (s1 & h1 & res & Heq & Hs1 & Hh1 & Hf); [exact Hs|exact Hh|].
  rewrite Heq. intros [= <- <- <- <-]. split_and!; auto. exact (db_insert_keys _ _ _ _ _ _ _ _ Heq).
Qed.

(** A worker's action keeps its invariant and the engine's, stays in its
    phase, never lowers its counter during the load phase, and either
    leaves the workload and the engine alone or is one insert: the key of
    the current counter value enters the table and the counter moves on. *)
Lemma worker_step_inv p T s i w wl now wl' s' w' :
  u64_props p -> (i < T)%nat -> db_shared_inv s -> winv p T s i w ->
  worker_step p wl s now w = Some (wl', s', w') ->
  winv p T s' i w' /\ db_shared_inv s' /\ (forall h2, db_handle_inv s h2 -> db_handle_inv s' h2) /\
  wphase (w_pc w') = wphase (w_pc w) /\
  (wphase (w_pc w) = 2%nat -> expected_progress w <= expected_progress w') /\
  ((wl' = wl /\ s' = s /\ loaded w' = loaded w) \/
   (loaded w' = loaded w + 1 /\
    wl' = with_counter wl (Counter.counter (Core.key_sequence wl) +w 1)%ycsb /\
    db_keys s' = {[Core.build_key (Core.ordered_inserts wl) (Core.zero_padding (Core.props wl))
                    (Counter.counter (Core.key_sequence wl))]} ∪ db_keys s)).
Proof.
  intros Hp HiT Hs Hw Hstep.
  destruct (winv_counts p T s i w Hp HiT Hw) as [Hk Ho].
  destruct Hw as [Hpr Hi Hc Hh Hprog Hpc]. pose proof Hp as [HRb HOb].
  destruct w as [pc c r ie be].
  unfold loaded, expected_progress, pc_ok, worker_step in *. unfold kcount, ocount in *. simpl in *.
  assert (0 <= record_count (props c) /\ 0 <= operation_count (props c)) as [HR HO]
    by (rewrite Hpr; destruct Hp; lia).
  assert (1 <= thread_count c /\ 0 <= thread_index c) as [HT HI] by lia.
  destruct (stripe_count_range (record_count (props c)) (thread_index c) (thread_count c))
    as (k & Ek & Hk'); [lia..|].
  destruct (stripe_count_range (operation_count (props c)) (thread_index c) (thread_count c))
    as (o & Eo & Ho'); [lia..|].
  rewrite Ek, Eo in *. simpl in *.
  destruct pc as [| |rem [|]| | | |[|rem]| | |]; try discriminate;
    [| destruct rem | destruct rem as [|rem] | | | |].
  all: try (injection Hstep as Hwl' Hs' Hw'; subst wl' s' w').
  all: try (destruct (do_insert_spec wl r s (db c) Hs Hh) as (wl1 & r1 & s1 & h1 & Ei & _);
            rewrite Ei in Hstep; injection Hstep as Hwl' Hs' Hw'; subst wl' s' w';
            destruct (do_insert_inv _ _ _ _ _ _ _ _ Hs Hh Ei) as (Hs1 & Hh1 & Hf1 & Hwl & Hkeys)).
  all: unfold loaded, expected_progress, pc_ok, kcount, ocount; simpl; rewrite ?Ek, ?Eo; simpl.
  all: split_and!; [split; unfold expected_progress, pc_ok; unfold kcount, ocount; simpl; rewrite ?Ek, ?Eo;
                    simpl; rewrite ?wrap_u64_small by lia; auto; lia | done | auto | done | lia | ].
  all: first [left; split_and!; auto; lia | right; split_and!; auto; lia].
Qed.

Lemma winv_loaded p T s i w :
  u64_props p -> (i < T)%nat -> winv p T s i w ->
  0 <= loaded w <= kcount w /\
  ((wphase (w_pc w) <= 2)%nat -> expected_progress w <= loaded w) /\
  ((3 <= wphase (w_pc w))%nat -> loaded w = kcount w).
Proof.
  intros Hp HiT Hw. destruct (winv_counts p T s i w Hp HiT Hw) as [Hk _].
  destruct Hw as [_ _ _ _ _ Hpc]. unfold loaded, expected_progress, pc_ok in *.
  destruct (w_pc w) as [| |rem []| | | |rem| | |]; simpl in *; split_and!; intros; lia.
Qed.

Lemma sum_kcount p T s ws :
  u64_props p -> (1 <= T)%nat -> length ws = T ->
  (forall i w, ws !! i = Some w -> winv p T s i w) -> sumZ kcount ws = record_count p.
Proof.
  intros Hp HT Hlen Hws.
  rewrite (sumZ_lookup_seqZ kcount (fun i => default 0 (stripe_count (record_count p) i (Z.of_nat T))) ws 0).
  - rewrite Hlen. apply stripe_sum; [apply Hp|lia].
  - intros i w Hi. destruct (Hws i w Hi) as [Hpr Hix Hc _ _ _].
    unfold kcount. by rewrite Hpr, Hix, Hc.
Qed.

Lemma with_counter_twice wl a b : with_counter (with_counter wl a) b = with_counter wl b.
Proof. done. Qed.

Lemma keys_seqZ_snoc (f : Z -> string) n :
  0 <= n -> list_to_set (map f (seqZ 0 (n + 1))) = ({[f n]} ∪ list_to_set (map f (seqZ 0 n)) : gset string).
Proof.
  intros Hn. rewrite seqZ_app by lia. rewrite map_app, list_to_set_app_L.
  change (seqZ (0 + n) 1) with (seqZ (0 + n) (Z.succ 0)).
  rewrite (seqZ_cons (0 + n)) by lia. simpl. rewrite Z.add_0_l. set_solver.
Qed.

(** ** Preservation, actor by actor *)

Lemma lookup_forall {A} (P : A -> Prop) (l : list A) :
  (forall i x, l !! i = Some x -> P x) -> forall x, x ∈ l -> P x.
Proof. intros HP x (j & Hj)%list_elem_of_lookup. exact (HP j x Hj). Qed.

Lemma sumZ_loaded_nonneg p s ws :
  u64_props p -> (forall i w, ws !! i = Some w -> winv p (length ws) s i w) ->
  0 <= sumZ loaded ws.
Proof.
  intros Hp Hws. transitivity (sumZ (fun _ => 0) ws).
  - clear. induction ws; simpl; lia.
  - apply sumZ_le, lookup_forall. intros i w Hi.
    by destruct (winv_loaded p _ s i w Hp (lookup_lt_Some _ _ _ Hi) (Hws i w Hi)) as [[? _] _].
Qed.

(** During the load phase the counters sum to at most [recordcount]. *)
Lemma sum_progress_le p s ws :
  u64_props p -> (1 <= length ws)%nat ->
  (forall i w, ws !! i = Some w -> winv p (length ws) s i w) ->
  Forall (fun w => wphase (w_pc w) = 2%nat) ws ->
  sumZ expected_progress ws <= record_count p.
Proof.
  intros Hp HT Hws Hph. rewrite <- (sum_kcount p (length ws) s ws Hp HT eq_refl Hws).
  apply sumZ_le, lookup_forall. intros i w Hi.
  destruct (winv_loaded p _ s i w Hp (lookup_lt_Some _ _ _ Hi) (Hws i w Hi)) as [[_ ?] [Hle _]].
  pose proof (Forall_lookup_1 _ _ _ _ Hph Hi) as Hw2. simpl in Hw2.
  specialize (Hle ltac:(lia)). lia.
Qed.

Lemma step_worker_inv wl0 keys0 st i st' :
  dinv wl0 keys0 st -> step (AWorker i) st = Some st' -> dinv wl0 keys0 st'.
Proof.
  intros [Hp Hst Hs Hws Hwl Hkeys [ph [Hph Hc]] Hcb2] Hstep. unfold step in Hstep.
  destruct (d_workers st !! i) as [w|] eqn:Ew; [|discriminate].
  destruct (worker_step (d_props st) (d_workload st) (d_db st) (d_clock st) w)
    as [[[wl' s'] w']|] eqn:Es; [|discriminate].
  injection Hstep as <-. unfold with_clock.
  pose proof (lookup_lt_Some _ _ _ Ew) as HiT. pose proof (Hws i w Ew) as Hw.
  destruct (worker_step_inv _ _ _ _ _ _ _ _ _ _ Hp HiT Hs Hw Es)
    as (Hw' & Hs' & Hf & Hphw & Hmono & Hcase).
  pose proof (sumZ_loaded_nonneg _ _ _ Hp Hws) as Hsum0.
  assert (Hws' : forall j wj, <[i:=w']> (d_workers st) !! j = Some wj ->
            winv (d_props st) (length (<[i:=w']> (d_workers st))) s' j wj).
  { intros j wj. rewrite length_insert. destruct (decide (i = j)) as [<-|Hne].
    - rewrite list_lookup_insert_eq by done. by intros [= <-].
    - rewrite list_lookup_insert_ne by done. intros Hj. eapply winv_frame; [apply Hws, Hj | exact Hf]. }
  assert (Hph' : Forall (fun w => wphase (w_pc w) = ph) (<[i:=w']> (d_workers st))).
  { apply Forall_insert; [done|]. rewrite Hphw. exact (Forall_lookup_1 _ _ _ _ Hph Ew). }
  constructor; cbn [d_props d_workers d_db d_coord d_workload]; try done.
  - rewrite (sumZ_insert _ _ _ _ _ Ew).
    destruct Hcase as [(-> & -> & ->) | (Hlw & -> & _)].
    + rewrite Hwl. do 2 f_equal. lia.
    + rewrite Hwl, with_counter_twice.
      change (Counter.counter (Core.key_sequence (with_counter wl0 ?x))) with x.
      rewrite wrap_u64_add_wrap_l. do 2 f_equal. lia.
  - rewrite (sumZ_insert _ _ _ _ _ Ew).
    destruct Hcase as [(-> & -> & ->) | (Hlw & Hwl' & Hk)].
    + rewrite Hkeys. do 4 f_equal. lia.
    + rewrite Hk, Hkeys, Hwl.
      change (Counter.counter (Core.key_sequence (with_counter wl0 ?x))) with x.
      change (Core.ordered_inserts (with_counter wl0 ?x)) with (Core.ordered_inserts wl0).
      change (Core.props (with_counter wl0 ?x)) with (Core.props wl0).
      replace (sumZ loaded (d_workers st) - loaded w + loaded w')
        with (sumZ loaded (d_workers st) + 1) by lia.
      rewrite keys_seqZ_snoc by done.
      replace (Core.build_key _ _ _) with (key_of wl0 (sumZ loaded (d_workers st))) by reflexivity.
      by rewrite !union_assoc_L, (union_comm_L keys0).
  - by exists ph.
  - intros Hcb. rewrite (sumZ_insert _ _ _ _ _ Ew). specialize (Hcb2 Hcb).
    rewrite Hcb in Hc. simpl in Hc. subst ph.
    pose proof (Hmono (Forall_lookup_1 _ _ _ _ Hph Ew)).
    pose proof (sum_progress_le (d_props st) s' (<[i:=w']> (d_workers st)) Hp
                  ltac:(rewrite length_insert; lia) Hws' Hph').
    rewrite (sumZ_insert _ _ _ _ _ Ew) in *. lia.
Qed.

Lemma sum_progress_clients p s ws :
  (forall i w, ws !! i = Some w -> winv p (length ws) s i w) ->
  sumZ (fun w => progress (w_client w)) ws = sumZ expected_progress ws.
Proof. intros Hws. apply sumZ_ext, lookup_forall. intros i w Hi. apply (Hws i w Hi). Qed.

Lemma poll_done count prev (ws : list (Worker H)) prev' out :
  poll count prev ws = Some (prev', out, true) ->
  0 <= sumZ (fun w => progress (w_client w)) ws < 2 ^ 64 ->
  sumZ (fun w => progress (w_client w)) ws = count.
Proof.
  unfold poll. destruct (count =? 0); [done|]. intros [= _ _ Hd%Z.eqb_eq] Hr.
  by rewrite wrap_u64_small in Hd.
Qed.

Lemma expected_progress_nonneg p T s i w :
  u64_props p -> (i < T)%nat -> winv p T s i w -> 0 <= expected_progress w.
Proof.
  intros Hp HiT Hw. destruct (winv_counts p T s i w Hp HiT Hw) as [Hk Ho].
  destruct Hw as [_ _ _ _ _ Hpc]. unfold expected_progress, pc_ok in *.
  destruct (w_pc w) as [| |rem []| | | |rem| | |]; lia.
Qed.

(** While the coordinator polls the load phase the counters' sum is a
    [u64] in range, so the [.sum()] does not wrap. *)
Lemma sum_progress_range p s ws :
  u64_props p -> (forall i w, ws !! i = Some w -> winv p (length ws) s i w) ->
  Forall (fun w => wphase (w_pc w) = 2%nat) ws ->
  0 <= sumZ expected_progress ws < 2 ^ 64.
Proof.
  intros Hp Hws Hph. split.
  - transitivity (sumZ (fun _ => 0) ws); [clear; induction ws; simpl; lia|].
    apply sumZ_le, lookup_forall. intros i w Hi.
    exact (expected_progress_nonneg _ _ _ _ _ Hp (lookup_lt_Some _ _ _ Hi) (Hws i w Hi)).
  - destruct ws as [|w0 ws']; [simpl; lia|].
    pose proof (sum_progress_le p s (w0 :: ws') Hp ltac:(simpl; lia) Hws Hph). destruct Hp. lia.
Qed.

Lemma step_coord_inv wl0 keys0 st st' :
  dinv wl0 keys0 st -> step ACoord st = Some st' -> dinv wl0 keys0 st'.
Proof.
  intros [Hp Hst Hs Hws Hwl Hkeys [ph [Hph Hc]] Hcb2] Hstep. unfold step in Hstep.
  assert (Hfin : forall c', coord_ok c' ph ->
            (c' = CB2 -> sumZ expected_progress (d_workers st) = record_count (d_props st)) ->
            forall start out,
            dinv wl0 keys0 (with_clock st (d_workers st) c' start out (d_workload st) (d_db st))).
  { intros c' Hc' Hcb' start out. constructor; simpl; try done. by exists ph. }
  destruct (d_coord st) as [| |prev| | |prev| | | |]; try discriminate; simpl in Hc.
  - injection Hstep as <-. apply Hfin; [simpl; lia | by intros [=]].
  - destruct (poll _ _ _) as [[[prev' out] []]|] eqn:Ep; injection Hstep as <-;
      apply Hfin; simpl; try lia; try by intros [=].
    intros _. rewrite <- (sum_progress_clients _ _ _ Hws). apply (poll_done _ _ _ _ _ Ep).
    rewrite (sum_progress_clients _ _ _ Hws). apply (sum_progress_range _ _ _ Hp Hws).
    by rewrite Hc in Hph.
  - destruct (max_insert_end _); injection Hstep as <-; apply Hfin; simpl; try lia; by intros [=].
  - destruct (poll _ _ _) as [[[prev' out] []]|]; injection Hstep as <-;
      apply Hfin; simpl; try lia; by intros [=].
  - injection Hstep as <-. apply Hfin; simpl; [lia | by intros [=]].
Qed.

(** The three barrier releases and what they do to one thread. *)
Definition barrier_pair (pc pc' : wpc) : Prop :=
  (pc = WB1 /\ pc' = WLoadStart) \/ (pc = WB2 /\ pc' = WReset) \/ (pc = WB3 /\ pc' = WExit).

Lemma release_worker p T s i w pc' :
  barrier_pair (w_pc w) pc' ->
  loaded (set_pc w pc') = loaded w /\ wphase pc' = Datatypes.S (wphase (w_pc w)) /\
  (winv p T s i w -> winv p T s i (set_pc w pc')).
Proof.
  intros Hb. destruct w as [pc c r ie be]. unfold loaded; simpl in *.
  destruct Hb as [[-> ->]|[[-> ->]|[-> ->]]]; (split; [done|split; [done|]]);
    intros [Hpr Hi Hc Hh Hprog Hpc]; split; done.
Qed.

Lemma all_at_spec pc (ws : list (Worker H)) : all_at pc ws = true -> Forall (fun w => w_pc w = pc) ws.
Proof.
  unfold all_at. intros Ha. rewrite forallb_forall in Ha. rewrite Forall_forall.
  intros w Hw. apply (bool_decide_eq_true_1 _), (Ha w), list_elem_of_In, Hw.
Qed.

Lemma step_barrier_inv wl0 keys0 st st' :
  dinv wl0 keys0 st -> step ABarrier st = Some st' -> dinv wl0 keys0 st'.
Proof.
  intros [Hp Hst Hs Hws Hwl Hkeys [ph [Hph Hc]] Hcb2] Hstep. unfold step in Hstep.
  assert (Hfin : forall pc pc' c', barrier_pair pc pc' -> all_at pc (d_workers st) = true ->
            coord_ok c' (Datatypes.S ph) -> c' <> CB2 ->
            dinv wl0 keys0 (with_clock st ((fun w => set_pc w pc') <$> d_workers st) c'
                              (d_start st) (d_out st) (d_workload st) (d_db st))).
  { intros pc pc' c' Hb Ha%all_at_spec Hc' Hne.
    assert (Hrel : forall w, w ∈ d_workers st -> barrier_pair (w_pc w) pc').
    { intros w Hw. by rewrite (proj1 (Forall_forall _ _) Ha w Hw). }
    assert (Hl : sumZ loaded ((fun w => set_pc w pc') <$> d_workers st) = sumZ loaded (d_workers st)).
    { rewrite sumZ_fmap. apply sumZ_ext. intros w Hw.
      exact (proj1 (release_worker (d_props st) 0 (d_db st) 0 w pc' (Hrel w Hw))). }
    constructor; simpl; rewrite ?Hl; try done.
    - intros j wj. rewrite length_fmap, list_lookup_fmap.
      destruct (d_workers st !! j) as [w|] eqn:Ej; [|done]. intros [= <-].
      apply (release_worker _ _ _ _ w pc' (Hrel w (list_elem_of_lookup_2 _ _ _ Ej))), Hws, Ej.
    - exists (Datatypes.S ph). split; [|done]. apply Forall_fmap, Forall_forall. intros w Hw. simpl.
      rewrite (proj1 (proj2 (release_worker (d_props st) 0 (d_db st) 0 w pc' (Hrel w Hw)))).
      by rewrite (proj1 (Forall_forall _ _) Hph w Hw). }
  destruct (d_coord st); try discriminate; simpl in Hc;
    (destruct (all_at _ _) eqn:Ea; [|discriminate]); injection Hstep as <-;
    (eapply Hfin; [unfold barrier_pair; naive_solver | exact Ea | simpl; lia | done]).
Qed.

Lemma dstep_inv wl0 keys0 st st' : dinv wl0 keys0 st -> dstep st st' -> dinv wl0 keys0 st'.
Proof.
  intros Hinv [[i| |] Hstep].
  - exact (step_worker_inv _ _ _ _ _ Hinv Hstep).
  - exact (step_coord_inv _ _ _ _ Hinv Hstep).
  - exact (step_barrier_inv _ _ _ _ Hinv Hstep).
Qed.

Lemma rtc_dinv wl0 keys0 st st' : dinv wl0 keys0 st -> rtc dstep st st' -> dinv wl0 keys0 st'.
Proof. intros Hinv Hr. induction Hr; eauto using dstep_inv. Qed.

Lemma init_dinv p T wl0 s0 rngs :
  u64_props p -> 0 <= Counter.counter (Core.key_sequence wl0) < 2 ^ 64 -> db_shared_inv s0 ->
  dinv wl0 (db_keys s0) (init_state p T wl0 s0 rngs).
Proof.
  intros Hp Hst Hs. unfold init_state.
  assert (Hl : sumZ loaded (spawn p T rngs <$> seq 0 T) = 0).
  { rewrite sumZ_fmap. unfold loaded, spawn. simpl. clear. induction (seq 0 T); simpl; lia. }
  constructor; simpl; rewrite ?Hl; try done.
  - intros i w. rewrite length_fmap, length_seq, list_lookup_fmap.
    destruct (seq 0 T !! i) as [j|] eqn:Ej; [|done]. intros [= <-].
    apply lookup_seq in Ej as [-> HiT].
    split; simpl; try done. apply db_inv_new, Hs.
  - destruct wl0 as [pr [c] b flg names]. unfold with_counter. simpl in *.
    by rewrite Z.add_0_r, wrap_u64_small by lia.
  - simpl. set_solver.
  - exists 1%nat. split; [|done]. apply Forall_fmap, Forall_forall. done.
Qed.


(** ** What a step can do to the coordinator *)

Definition coord_after_load (c : cpc) : bool :=
  match c with CB2 | CReport | CRunPoll _ | CB3 | CJoin | CDone => true | _ => false end.

Definition coord_after_run (c : cpc) : bool :=
  match c with CB3 | CJoin | CDone => true | _ => false end.

Lemma step_frame a st st' :
  step a st = Some st' ->
  d_props st' = d_props st /\ length (d_workers st') = length (d_workers st).
Proof.
  destruct a; unfold step; repeat case_match; intros; simplify_eq/=;
    rewrite ?length_insert, ?length_fmap; done.
Qed.

Lemma rtc_frame st st' :
  rtc dstep st st' -> d_props st' = d_props st /\ length (d_workers st') = length (d_workers st).
Proof.
  induction 1 as [|x y z [a Hs] _ [IH1 IH2]]; [done|].
  destruct (step_frame _ _ _ Hs). split; congruence.
Qed.

(** The coordinator leaves the load phase only through an exit of
    [show_progress(record_count)], and the run phase only through an exit
    of [show_progress(operation_count)]. *)
Lemma step_leave_load a st st' :
  step a st = Some st' -> coord_after_load (d_coord st) = false ->
  coord_after_load (d_coord st') = true ->
  exists prev prev' out, d_coord st = CLoadPoll prev /\
    poll (record_count (d_props st)) prev (d_workers st) = Some (prev', out, true).
Proof. destruct a; unfold step; repeat case_match; intros; simplify_eq/=; try congruence; eauto. Qed.

Lemma step_leave_run a st st' :
  step a st = Some st' -> coord_after_run (d_coord st) = false ->
  coord_after_run (d_coord st') = true ->
  exists prev prev' out, d_coord st = CRunPoll prev /\
    poll (operation_count (d_props st)) prev (d_workers st) = Some (prev', out, true).
Proof. destruct a; unfold step; repeat case_match; intros; simplify_eq/=; try congruence; eauto. Qed.

(** The coordinator panics only by a division by zero in [show_progress]
    or by [.max().unwrap()] on no worker. *)
Lemma step_panic a st st' :
  step a st = Some st' -> d_coord st <> CPanic -> d_coord st' = CPanic ->
  (exists prev, d_coord st = CLoadPoll prev /\ record_count (d_props st) = 0) \/
  (d_coord st = CReport /\ d_workers st = []) \/
  (exists prev, d_coord st = CRunPoll prev /\ operation_count (d_props st) = 0).
Proof.
  destruct a; unfold step; repeat case_match; intros; simplify_eq/=; try congruence;
    unfold poll, max_insert_end in *; repeat case_match; simplify_eq/=;
    first [left; eexists; split; [done|]; lia | right; left; done | right; right; eexists; split; [done|]; lia].
Qed.

Lemma poll_nonzero count prev (ws : list (Worker H)) r : poll count prev ws = Some r -> count <> 0.
Proof. unfold poll. destruct (Z.eqb_spec count 0); [done|]. intros _. done. Qed.

(** ** The load phase, once it is over *)

Lemma after_load_loaded wl0 keys0 st :
  dinv wl0 keys0 st -> (1 <= length (d_workers st))%nat -> coord_after_load (d_coord st) = true ->
  sumZ loaded (d_workers st) = record_count (d_props st).
Proof.
  intros [Hp _ _ Hws _ _ [ph [Hph Hc]] Hcb2] HT Ha.
  pose proof (sum_kcount _ _ _ _ Hp HT eq_refl Hws) as Hk.
  assert (Hle : forall w, w ∈ d_workers st -> loaded w <= kcount w /\
             ((wphase (w_pc w) <= 2)%nat -> expected_progress w <= loaded w) /\
             ((3 <= wphase (w_pc w))%nat -> loaded w = kcount w)).
  { apply lookup_forall. intros i w Hi.
    destruct (winv_loaded _ _ _ _ _ Hp (lookup_lt_Some _ _ _ Hi) (Hws i w Hi)) as [[_ ?] ?]. done. }
  rewrite Forall_forall in Hph.
  assert (sumZ loaded (d_workers st) <= record_count (d_props st))
    by (rewrite <- Hk; apply sumZ_le; intros w Hw; apply Hle, Hw).
  destruct (d_coord st) eqn:Ec; try discriminate; simpl in Hc.
  1: { specialize (Hcb2 eq_refl).
    assert (sumZ expected_progress (d_workers st) <= sumZ loaded (d_workers st)); [|lia].
    apply sumZ_le. intros w Hw. apply Hle; [done|]. rewrite Hph by done. lia. }
  all: rewrite <- Hk; apply sumZ_ext; intros w Hw; apply Hle; [done|]; rewrite Hph by done; lia.
Qed.

Lemma reachable_dinv p T wl0 s0 rngs st :
  u64_props p -> 0 <= Counter.counter (Core.key_sequence wl0) < 2 ^ 64 -> db_shared_inv s0 ->
  reachable (init_state p T wl0 s0 rngs) st ->
  dinv wl0 (db_keys s0) st /\ d_props st = p /\ length (d_workers st) = T.
Proof.
  intros Hp Hst Hs Hr. destruct (rtc_frame _ _ Hr) as [Hpr Hlen].
  split; [exact (rtc_dinv _ _ _ _ (init_dinv p T wl0 s0 rngs Hp Hst Hs) Hr)|].
  split; [done|]. rewrite Hlen. simpl. by rewrite length_fmap, length_seq.
Qed.

Lemma after_load_state p T wl0 s0 rngs st :
  u64_props p -> 0 <= Counter.counter (Core.key_sequence wl0) < 2 ^ 64 -> db_shared_inv s0 ->
  (1 <= T)%nat -> reachable (init_state p T wl0 s0 rngs) st ->
  coord_after_load (d_coord st) = true ->
  d_workload st = with_counter wl0 (wrap_u64 (Counter.counter (Core.key_sequence wl0) + record_count p)) /\
  db_keys (d_db st) = db_keys s0 ∪ list_to_set (map (key_of wl0) (seqZ 0 (record_count p))).
Proof.
  intros Hp Hst Hs HT Hr Ha.
  destruct (reachable_dinv p T wl0 s0 rngs st Hp Hst Hs Hr) as (Hinv & Hpr & Hlen).
  pose proof (after_load_loaded _ _ _ Hinv ltac:(lia) Ha) as Hl. rewrite Hpr in Hl.
  destruct Hinv as [_ _ _ _ Hwl Hkeys _ _]. rewrite <- Hl. done.
Qed.

Lemma rtc_preserve (Q : DState S H -> Prop) st st' :
  (forall a x y, step a x = Some y -> Q x -> Q y) -> rtc dstep st st' -> Q st -> Q st'.
Proof. intros HQ. induction 1 as [|x y z [a Hs] _ IH]; eauto. Qed.

Lemma rtc_coord_invariant (Q : ClientProperties -> cpc -> Prop) st st' :
  (forall a x y, step a x = Some y -> Q (d_props x) (d_coord x) -> Q (d_props x) (d_coord y)) ->
  rtc dstep st st' -> Q (d_props st) (d_coord st) -> Q (d_props st) (d_coord st').
Proof.
  intros HQ. induction 1 as [|x y z [a Hs] _ IH]; [done|]. intros Hx.
  destruct (step_frame _ _ _ Hs) as [Hp _]. rewrite <- Hp. apply IH. rewrite Hp. by eapply HQ.
Qed.

Lemma worker_enabled p wl s now (w : Worker H) :
  w_pc w <> WB1 -> w_pc w <> WB2 -> w_pc w <> WB3 -> w_pc w <> WExit -> w_pc w <> WPanic ->
  exists r, worker_step p wl s now w = Some r.
Proof.
  unfold worker_step. destruct (w_pc w) as [| |[|rem] []| | | |[|rem]| | |]; intros; try congruence;
    repeat case_match; eauto.
Qed.

Lemma all_at_false pc (ws : list (Worker H)) :
  all_at pc ws = false -> exists i w, ws !! i = Some w /\ w_pc w <> pc.
Proof.
  unfold all_at. induction ws as [|w ws IH]; [done|]. simpl.
  case_bool_decide as Hb; simpl; intros Ha.
  - destruct (IH Ha) as (i & w' & ? & ?). by exists (Datatypes.S i), w'.
  - by exists 0%nat, w.
Qed.

(** At a barrier, either every worker has arrived and the barrier
    releases, or some worker of the phase has not and can move. *)
Lemma barrier_enabled wl0 keys0 st pc c' :
  dinv wl0 keys0 st ->
  (d_coord st = CB1 /\ pc = WB1 /\ c' = CStart) \/ (d_coord st = CB2 /\ pc = WB2 /\ c' = CReport) \/
  (d_coord st = CB3 /\ pc = WB3 /\ c' = CJoin) ->
  exists a st', step a st = Some st'.
Proof.
  intros [Hp _ _ Hws _ _ [ph [Hph Hc]] _] Hb.
  destruct (all_at pc (d_workers st)) eqn:Ea.
  - exists ABarrier. unfold step.
    destruct Hb as [(-> & -> & ->)|[(-> & -> & ->)|(-> & -> & ->)]]; rewrite Ea; by eexists.
  - destruct (all_at_false _ _ Ea) as (i & w & Hi & Hne).
    pose proof (Forall_lookup_1 _ _ _ _ Hph Hi) as Hw. simpl in Hw.
    pose proof (wi_pc _ _ _ _ _ (Hws i w Hi)) as Hpc. unfold pc_ok in Hpc.
    destruct (worker_enabled (d_props st) (d_workload st) (d_db st) (d_clock st) w)
      as [[[wl' s'] w'] Hst];
      try (intros Heq; rewrite Heq in Hw, Hpc, Hne; simpl in Hw;
           destruct Hb as [(Hc' & -> & _)|[(Hc' & -> & _)|(Hc' & -> & _)]];
           rewrite Hc' in Hc; simpl in Hc; congruence).
    exists (AWorker i). unfold step. rewrite Hi, Hst. by eexists.
Qed.

Lemma cb2_progress p T wl0 s0 rngs st :
  u64_props p -> 0 <= Counter.counter (Core.key_sequence wl0) < 2 ^ 64 -> db_shared_inv s0 ->
  reachable (init_state p T wl0 s0 rngs) st -> d_coord st = CB2 ->
  sumZ (fun w => progress (w_client w)) (d_workers st) = record_count p.
Proof.
  intros Hp Hst Hs Hr Hc.
  destruct (reachable_dinv p T wl0 s0 rngs st Hp Hst Hs Hr) as (Hinv & Hpr & _).
  rewrite (sum_progress_clients _ _ _ (di_workers _ _ _ Hinv)), <- Hpr. exact (di_cb2 _ _ _ Hinv Hc).
Qed.

Lemma run_reachable sched st st' : run sched st = Some st' -> reachable st st'.
Proof.
  revert st. induction sched as [|a sched IH]; intros st; simpl; [intros [= <-]; apply rtc_refl|].
  destruct (step a st) as [st1|] eqn:Es; [|done]. intros Hr.
  eapply rtc_l; [by exists a | exact (IH _ Hr)].
Qed.

(** ** A worker run alone computes [setup_initial_data] *)

Lemma run_app sched1 sched2 st :
  run (sched1 ++ sched2) st = match run sched1 st with Some st' => run sched2 st' | None => None end.
Proof.
  revert st. induction sched1 as [|a sched1 IH]; intros st; simpl; [done|].
  destruct (step a st); [apply IH|done].
Qed.

Lemma step_worker_eq st i w wl' s' w' :
  d_workers st !! i = Some w ->
  worker_step (d_props st) (d_workload st) (d_db st) (d_clock st) w = Some (wl', s', w') ->
  step (AWorker i) st = Some (with_clock st (<[i:=w']> (d_workers st)) (d_coord st) (d_start st) (d_out st) wl' s').
Proof. intros Hi Hw. unfold step. by rewrite Hi, Hw. Qed.

Lemma list_insert_same {A} (l : list A) i x y : <[i:=x]> (<[i:=y]> l) = <[i:=x]> l.
Proof. rewrite list_insert_insert. by case_decide. Qed.

(** [2 n] steps of worker [i] run the [n] remaining iterations of its load
    loop exactly as [load_loop] does. *)
Lemma load_loop_run n st i w c' wl' r' s' :
  d_workers st !! i = Some w -> w_pc w = WLoad n false ->
  load_loop n (w_client w) (d_workload st) (w_rng w) (d_db st) = Some (c', wl', r', s') ->
  exists st', run (replicate (2 * n) (AWorker i)) st = Some st' /\
    d_workload st' = wl' /\ d_db st' = s' /\ d_coord st' = d_coord st /\ d_props st' = d_props st /\
    d_clock st' = (d_clock st + 2 * n)%nat /\
    d_workers st' = <[i := mkWorker (WLoad 0 false) c' r' (w_insert_end w) (w_bench_end w)]> (d_workers st).
Proof.
  revert st w. induction n as [|n IH]; intros st w Hi Hpc Hl.
  - injection Hl as <- <- <- <-. exists st. simpl. split_and!; try done; try lia.
    symmetry. apply list_insert_id. rewrite Hi. destruct w; simpl in *; by subst.
  - cbn [load_loop] in Hl. unfold load_step in Hl. simpl in Hl.
    destruct (Core.do_insert (d_workload st) (w_rng w) (d_db st) (db (w_client w)))
      as [[[[wl1 r1] s1] h1]|] eqn:Ei; [|done].
    set (c1 := mkClient (props (w_client w)) h1 (thread_index (w_client w))
                 (thread_count (w_client w)) (progress (w_client w))).
    set (w1 := mkWorker (WLoad n true) c1 r1 (w_insert_end w) (w_bench_end w)).
    set (st1 := with_clock st (<[i:=w1]> (d_workers st)) (d_coord st) (d_start st) (d_out st) wl1 s1).
    set (w2 := mkWorker (WLoad n false) (set_progress c1 (progress c1 +w 1)%ycsb) r1
                 (w_insert_end w) (w_bench_end w)).
    set (st2 := with_clock st1 (<[i:=w2]> (d_workers st1)) (d_coord st1) (d_start st1) (d_out st1) wl1 s1).
    assert (Hlen : (i < length (d_workers st))%nat) by (eapply lookup_lt_Some; eauto).
    assert (Hs1 : step (AWorker i) st = Some st1).
    { apply step_worker_eq with w; [done|]. unfold worker_step. rewrite Hpc, Ei. done. }
    assert (Hs2 : step (AWorker i) st1 = Some st2).
    { apply step_worker_eq with w1; [unfold st1; simpl; by rewrite list_lookup_insert_eq|].
      unfold st1, w1, w2. by destruct n. }
    destruct (IH st2 w2) as (st' & Hrun & Hwl & Hdb & Hc & Hp & Hclk & Hws);
      [unfold st2, st1; simpl; rewrite list_lookup_insert_eq; rewrite ?length_insert; done
      | done | exact Hl |].
    exists st'. replace (2 * Datatypes.S n)%nat with (Datatypes.S (Datatypes.S (2 * n))) by lia.
    cbn [replicate run]. rewrite Hs1, Hs2. split_and!; try done; try (rewrite Hclk; simpl; lia).
    rewrite Hws. simpl. by rewrite !list_insert_same.
Qed.

(** ** Theorems of the driver *)

(** C10: the step model of a worker refines the client's
    [setup_initial_data]: from the first step of the load phase, running
    worker [i] alone for [2 k + 2] steps ([k] its stripe) reaches the
    second barrier with exactly the client (progress counter and engine
    handle), random generator, workload and engine state that
    [Client::setup_initial_data] computes, stamps [insert_end_time] with
    the clock of its last step, and leaves the other threads and the
    coordinator as they were. *)
Theorem worker_load_refines st i w k c' wl' r' s' :
  d_workers st !! i = Some w -> w_pc w = WLoadStart ->
  stripe_count (record_count (props (w_client w))) (thread_index (w_client w))
    (thread_count (w_client w)) = Some k ->
  setup_initial_data (w_client w) (d_workload st) (w_rng w) (d_db st) = Some (c', wl', r', s') ->
  exists st', run (replicate (2 * Z.to_nat k + 2) (AWorker i)) st = Some st' /\
    d_workload st' = wl' /\ d_db st' = s' /\ d_coord st' = d_coord st /\
    d_workers st' =
      <[i := mkWorker WB2 c' r' (d_clock st + 2 * Z.to_nat k + 1)%nat (w_bench_end w)]> (d_workers st).
Proof.
  intros Hi Hpc Hk Hsetup. unfold setup_initial_data in Hsetup. rewrite Hk in Hsetup.
  assert (Hlen : (i < length (d_workers st))%nat) by (eapply lookup_lt_Some; eauto).
  set (w0 := set_pc w (WLoad (Z.to_nat k) false)).
  set (st0 := with_clock st (<[i:=w0]> (d_workers st)) (d_coord st) (d_start st) (d_out st)
                (d_workload st) (d_db st)).
  assert (Hs0 : step (AWorker i) st = Some st0).
  { apply step_worker_eq with w; [done|]. unfold worker_step. by rewrite Hpc, Hk. }
  destruct (load_loop_run (Z.to_nat k) st0 i w0 c' wl' r' s')
    as (st1 & Hrun & Hwl & Hdb & Hc & Hp & Hclk & Hws);
    [unfold st0; simpl; by rewrite list_lookup_insert_eq | done | exact Hsetup |].
  set (w2 := mkWorker (WLoad 0 false) c' r' (w_insert_end w) (w_bench_end w)).
  assert (Hs2 : step (AWorker i) st1 =
            Some (with_clock st1 (<[i := mkWorker WB2 c' r' (d_clock st1) (w_bench_end w)]> (d_workers st1))
                    (d_coord st1) (d_start st1) (d_out st1) (d_workload st1) (d_db st1))).
  { apply step_worker_eq with w2; [|done].
    rewrite Hws. unfold st0. simpl. rewrite list_lookup_insert_eq; [done|]. by rewrite length_insert. }
  eexists. replace (2 * Z.to_nat k + 2)%nat with (Datatypes.S (2 * Z.to_nat k + 1)) by lia.
  rewrite replicate_S, (replicate_add (2 * Z.to_nat k) 1). cbn [run]. rewrite Hs0, run_app, Hrun.
  cbn [replicate run]. rewrite Hs2. split_and!; [done|done|done|by rewrite Hc|].
  simpl. rewrite Hws, Hclk. unfold st0. simpl. rewrite !list_insert_same. do 3 f_equal. lia.
Qed.

(** C3: the driver invariant holds in every state reachable from the
    start of [main], under every schedule of the threads: each worker's
    client carries its index, the thread count and the properties, its
    engine handle is valid and its progress counter holds the count of
    its completed loop iterations; the shared key sequence has advanced
    by exactly the number of completed inserts and the table holds
    exactly the keys of those inserts besides the initial ones; all
    threads are in the coordinator's phase; and once the coordinator has
    left the load-phase polling loop the counters sum to [recordcount]. *)
Theorem driver_reachable_inv p T wl0 s0 rngs st :
  u64_props p -> 0 <= Counter.counter (Core.key_sequence wl0) < 2 ^ 64 -> db_shared_inv s0 ->
  reachable (init_state p T wl0 s0 rngs) st -> dinv wl0 (db_keys s0) st.
Proof. intros Hp Hst Hs Hr. apply (reachable_dinv p T wl0 s0 rngs st Hp Hst Hs Hr). Qed.

(** C2: with [T >= 1] workers, once the coordinator is past the load
    phase's [show_progress(record_count)] (at the second barrier or
    later), every insert of the load phase has completed, under every
    schedule: the key sequence stands at [insertstart + recordcount], the
    table holds exactly the keys of [insertstart .. insertstart +
    recordcount - 1] besides the initial ones, and when the polling loop
    exits the workers' counters sum to [recordcount]. *)
Theorem load_phase_complete p T wl0 s0 rngs st :
  u64_props p -> 0 <= Counter.counter (Core.key_sequence wl0) < 2 ^ 64 -> db_shared_inv s0 ->
  (1 <= T)%nat -> reachable (init_state p T wl0 s0 rngs) st ->
  coord_after_load (d_coord st) = true ->
  Counter.counter (Core.key_sequence (d_workload st)) =
    wrap_u64 (Counter.counter (Core.key_sequence wl0) + record_count p) /\
  db_keys (d_db st) = db_keys s0 ∪ list_to_set (map (key_of wl0) (seqZ 0 (record_count p))) /\
  (d_coord st = CB2 -> sumZ (fun w => progress (w_client w)) (d_workers st) = record_count p).
Proof.
  intros Hp Hst Hs HT Hr Ha.
  destruct (after_load_state p T wl0 s0 rngs st Hp Hst Hs HT Hr Ha) as [Hwl Hkeys].
  split_and!; [by rewrite Hwl | done |]. exact (cb2_progress p T wl0 s0 rngs st Hp Hst Hs Hr).
Qed.

(** With a zero count the coordinator never gets past the [show_progress]
    of that phase (it panics on its first poll there). *)
Lemma zero_count_stuck p T wl0 s0 rngs st :
  (record_count p = 0 \/ operation_count p = 0) ->
  reachable (init_state p T wl0 s0 rngs) st -> coord_after_run (d_coord st) = false.
Proof.
  intros Hz Hr.
  apply (rtc_coord_invariant (fun q c => (record_count q = 0 -> coord_after_load c = false) /\
                                         (operation_count q = 0 -> coord_after_run c = false))
           _ _) in Hr; simpl.
  - destruct Hz as [Hz|Hz]; [|by apply Hr].
    destruct (d_coord st); try done; by destruct Hr as [Hr _]; specialize (Hr Hz).
  - intros a x y Hs [H1 H2]. split; intros Hq.
    + destruct (coord_after_load (d_coord y)) eqn:E; [|done].
      destruct (step_leave_load a x y Hs (H1 Hq) E) as (? & ? & ? & _ & Hpoll).
      by apply poll_nonzero in Hpoll.
    + destruct (coord_after_run (d_coord y)) eqn:E; [|done].
      destruct (step_leave_run a x y Hs (H2 Hq) E) as (? & ? & ? & _ & Hpoll).
      by apply poll_nonzero in Hpoll.
  - split; done.
Qed.

(** C17: with [recordcount = 0] or [operationcount = 0] (the defaults of
    both) the run never completes: [show_progress] divides by zero at its
    first poll of that phase, so no schedule brings the coordinator past
    it; with [recordcount = 0] the panic is reached right after the first
    barrier. *)
Theorem zero_count_never_completes p T wl0 s0 rngs :
  (record_count p = 0 \/ operation_count p = 0) ->
  (forall st, reachable (init_state p T wl0 s0 rngs) st -> coord_after_run (d_coord st) = false) /\
  (record_count p = 0 ->
     exists st, run [ABarrier; ACoord; ACoord] (init_state p T wl0 s0 rngs) = Some st /\
       d_coord st = CPanic).
Proof.
  intros Hz. split; [intros st; by apply zero_count_stuck|].
  intros Hr. unfold run, step. simpl.
  replace (all_at WB1 _) with true.
  - simpl. unfold poll. rewrite Hr. simpl. by eexists.
  - symmetry. unfold all_at. apply forallb_forall. intros w Hw.
    apply list_elem_of_In, list_elem_of_fmap in Hw as (j & -> & _). by apply bool_decide_eq_true_2.
Qed.

(** C27: with no worker ([threadcount = 0]) and [recordcount > 0] the
    coordinator never leaves the load phase (the counters it sums are
    those of no worker, so the sum never reaches [recordcount]) and never
    panics, yet always has a step to take: [main] spins in
    [show_progress] forever. *)
Theorem no_workers_spin p wl0 s0 rngs st :
  0 < record_count p -> reachable (init_state p 0 wl0 s0 rngs) st ->
  (d_coord st = CB1 \/ d_coord st = CStart \/ exists prev, d_coord st = CLoadPoll prev) /\
  exists a st', step a st = Some st'.
Proof.
  intros HR Hr.
  set (loading c := match c with CB1 | CStart | CLoadPoll _ => true | _ => false end).
  assert (Hinv : d_props st = p /\ d_workers st = [] /\ loading (d_coord st) = true).
  { refine (rtc_preserve (fun x => d_props x = p /\ d_workers x = [] /\
                                   loading (d_coord x) = true) _ _ _ Hr _); [|done].
    intros a x y Hs (Hp & Hw & Hl). destruct (step_frame _ _ _ Hs) as [Hp' Hlen].
    rewrite Hw in Hlen. split_and!; [congruence | by destruct (d_workers y) |].
    destruct (coord_after_load (d_coord y)) eqn:Ea.
    - destruct (step_leave_load a x y Hs ltac:(by destruct (d_coord x)) Ea) as (? & ? & ? & _ & Hpoll).
      apply poll_done in Hpoll; [|rewrite Hw; simpl; lia]. rewrite Hw, Hp in Hpoll. simpl in Hpoll. lia.
    - destruct (decide (d_coord y = CPanic)) as [Hc|Hc].
      + destruct (step_panic a x y Hs ltac:(by destruct (d_coord x)) Hc)
          as [(? & _ & Hz) | [[Hc' _] | (? & Hc' & _)]]; [rewrite Hp in Hz; lia | |];
          by rewrite Hc' in Hl.
      + by destruct (d_coord y). }
  destruct Hinv as (Hp & Hw & Hl). split; [destruct (d_coord st); naive_solver|].
  unfold step. rewrite Hw. destruct (d_coord st) eqn:Ec; try discriminate.
  - exists ABarrier. by eexists.
  - exists ACoord. by eexists.
  - exists ACoord. destruct (poll _ _ _) as [[[? ?] ?]|]; by eexists.
Qed.

(** C9: with [T >= 1] workers and nonzero [recordcount] and
    [operationcount], no thread ever panics and the process never
    deadlocks: in every reachable state short of the end of [main] some
    thread can move or the barrier can release. *)
Theorem driver_no_deadlock p T wl0 s0 rngs st :
  u64_props p -> 0 <= Counter.counter (Core.key_sequence wl0) < 2 ^ 64 -> db_shared_inv s0 ->
  (1 <= T)%nat -> 1 <= record_count p -> 1 <= operation_count p ->
  reachable (init_state p T wl0 s0 rngs) st ->
  d_coord st <> CPanic /\ (forall i w, d_workers st !! i = Some w -> w_pc w <> WPanic) /\
  (d_coord st <> CDone -> exists a st', step a st = Some st').
Proof.
  intros Hp Hst Hs HT HR HO Hr.
  destruct (reachable_dinv p T wl0 s0 rngs st Hp Hst Hs Hr) as (Hinv & Hpr & Hlen).
  assert (Hnp : d_coord st <> CPanic).
  { refine (proj2 (proj2 (rtc_preserve (fun x => d_props x = p /\ length (d_workers x) = T /\
                                           d_coord x <> CPanic) _ _ _ Hr _)));
      [|simpl; rewrite length_fmap, length_seq; done].
    intros a x y Hsy (Hpx & Hlx & Hcx). destruct (step_frame _ _ _ Hsy) as [Hp' Hl'].
    split_and!; [congruence|congruence|]. intros Hcy.
    destruct (step_panic a x y Hsy Hcx Hcy) as [(? & _ & Hz)|[(_ & Hz)|(? & _ & Hz)]];
      [rewrite Hpx in Hz; lia | rewrite Hz in Hlx; simpl in Hlx; lia | rewrite Hpx in Hz; lia]. }
  split_and!; [done| |].
  - intros i w Hi Hw. pose proof (wi_pc _ _ _ _ _ (di_workers _ _ _ Hinv i w Hi)) as Hpc.
    unfold pc_ok in Hpc. by rewrite Hw in Hpc.
  - intros Hnd. destruct (d_coord st) eqn:Ec; try congruence.
    + apply (barrier_enabled _ _ _ WB1 CStart Hinv). naive_solver.
    + exists ACoord. unfold step. rewrite Ec. by eexists.
    + exists ACoord. unfold step. rewrite Ec. repeat case_match; by eexists.
    + apply (barrier_enabled _ _ _ WB2 CReport Hinv). naive_solver.
    + exists ACoord. unfold step. rewrite Ec. repeat case_match; by eexists.
    + exists ACoord. unfold step. rewrite Ec. repeat case_match; by eexists.
    + apply (barrier_enabled _ _ _ WB3 CJoin Hinv). naive_solver.
    + exists ACoord. unfold step. rewrite Ec. by eexists.
Qed.

End Inv.

(** ** On the [StdBTreeMapMutex] engine *)

Import StdBTree.StdBTree StdBTreeFacts.

Lemma new_workload_fields p w :
  Core.new p = Some w ->
  Core.props w = p /\ Core.ordered_inserts w = negb (String.eqb (Core.insert_order p) "hashed") /\
  Core.key_sequence w = Counter.new (Core.insert_start p).
Proof. unfold Core.new. destruct (String.eqb _ _); [|done]. by intros [= <-]. Qed.

(** The keys of the default workload: hashed, padded to one digit,
    numbered from 0; the first 1000 are distinct. *)
Lemma default_keys_nodup wl0 R :
  Core.new Core.default_properties = Some wl0 -> 0 <= R <= 1000 ->
  NoDup (map (key_of wl0) (seqZ 0 R)).
Proof.
  intros Hnew HR. destruct (new_workload_fields _ _ Hnew) as (Hpr & Hord & Hks).
  assert (Hmap : map (key_of wl0) (seqZ 0 R) = map (Core.build_key false 1) (seqZ 0 R)).
  { apply map_ext_in. intros j Hj%list_elem_of_In%elem_of_seqZ. unfold key_of.
    rewrite Hord, Hpr, Hks. change (Counter.counter (Counter.new ?n)) with n.
    replace (Core.insert_start Core.default_properties) with 0 by reflexivity.
    replace (negb _) with false by reflexivity.
    replace (Core.zero_padding Core.default_properties) with 1 by reflexivity.
    rewrite wrap_u64_small by lia. done. }
  rewrite Hmap. apply (NoDup_map_reflect _ Sip.default_hash_u64); [apply KeysFacts.hashed_key_reflects|].
  eapply sublist_NoDup; [exact KeysFacts.hashes_distinct_1000|].
  replace 1000 with (R + (1000 - R)) by lia. rewrite seqZ_app by lia. rewrite map_app.
  apply sublist_inserts_r. done.
Qed.

(** C8: the end-to-end load scenario on the default engine and the
    default core workload (hashed keys from 0): with [T >= 1] workers and
    [recordcount = R <= 1000], under every schedule, once the coordinator
    is past the load phase the table holds exactly [R] distinct keys, and
    when [show_progress(record_count)] exits the counters sum to [R]. *)
Theorem load_distinct_keys R O T wl0 rngs st :
  0 <= R <= 1000 -> 0 <= O < 2 ^ 64 -> (1 <= T)%nat -> Core.new Core.default_properties = Some wl0 ->
  reachable (init_state (mkClientProperties O R) T wl0 globals_init rngs) st ->
  coord_after_load (d_coord st) = true ->
  size (dom (MUTEX_INSTANCE (d_db st))) = Z.to_nat R /\
  (d_coord st = CB2 -> sumZ (fun w => progress (w_client w)) (d_workers st) = R).
Proof.
  intros HR HO HT Hnew Hr Ha.
  assert (Hp : u64_props (mkClientProperties O R)) by (split; simpl; lia).
  assert (Hst : 0 <= Counter.counter (Core.key_sequence wl0) < 2 ^ 64)
    by (destruct (new_workload_fields _ _ Hnew) as (_ & _ & ->); cbn; lia).
  assert (Hs : @db_shared_inv Globals StdBTreeMapMutex _ _ globals_init) by exact cm_wf_empty.
  split.
  - destruct (after_load_state (H:=StdBTreeMapMutex) _ T wl0 globals_init rngs st Hp Hst Hs HT Hr Ha)
      as [_ Hkeys].
    change (dom (MUTEX_INSTANCE (d_db st))) with (db_keys (d_db st)). rewrite Hkeys.
    change (db_keys globals_init) with (dom (∅ : gmap string RowValueType)).
    rewrite dom_empty_L, union_empty_l_L, size_list_to_set by (apply default_keys_nodup; [done|simpl; lia]).
    rewrite length_map, length_seqZ. done.
  - exact (cb2_progress (H:=StdBTreeMapMutex) _ T wl0 globals_init rngs st Hp Hst Hs Hr).
Qed.

(** ** Concrete runs *)

(** The default core workload, as [CoreWorkload::new] builds it. *)
Definition demo_workload : Core.CoreWorkload :=
  Core.mkCoreWorkload Core.default_properties (Counter.new 0) false (Constant.new 100)
    (Core.make_field_names "field" 10).

Definition demo_rngs (i : nat) : Core.Rng := Core.mkRng (fun _ => Byte.x00) 0.

Definition demo_init (R O : Z) (T : nat) : DState Globals StdBTreeMapMutex :=
  init_state (mkClientProperties O R) T demo_workload globals_init demo_rngs.

(** The state a schedule reaches, or the start when it blocks. *)
Definition demo_run (sched : list actor) (R O : Z) (T : nat) : DState Globals StdBTreeMapMutex :=
  default (demo_init R O T) (run sched (demo_init R O T)).

Lemma demo_run_reachable sched R O T :
  run sched (demo_init R O T) <> None -> reachable (demo_init R O T) (demo_run sched R O T).
Proof.
  unfold demo_run. destruct (run sched _) as [st|] eqn:E; [|done]. intros _.
  exact (run_reachable _ _ _ E).
Qed.

(** One worker: the first barrier, [start_time], the [R] iterations of the
    load loop and its exit, and the poll that sees [R]. *)
Definition load_sched (R : nat) : list actor :=
  [ABarrier; ACoord] ++ replicate (2 * R + 2) (AWorker 0) ++ [ACoord].

(** C16: the coordinator can leave the run phase's
    [show_progress(operation_count)] before any worker has started the
    run phase: the workers reset their counters only after the second
    barrier, concurrently with the coordinator's polls, so a poll can read
    the load phase's counts.  With one worker and [recordcount =
    operationcount = 1], the coordinator prints 100% twice and waits at
    the last barrier while the worker has not reset its counter. *)
Theorem run_phase_stale_exit :
  let st := demo_run (load_sched 1 ++ [ABarrier; ACoord; ACoord]) 1 1 1 in
  reachable (demo_init 1 1 1) st /\ d_coord st = CB3 /\
  map w_pc (d_workers st) = [WReset] /\ map (fun w => progress (w_client w)) (d_workers st) = [1] /\
  d_out st = [OutProgress 100 1 1; OutInsertTime 4; OutProgress 100 1 1].
Proof.
  intros st. split; [apply demo_run_reachable; vm_compute; discriminate|].
  vm_compute. split_and!; reflexivity.
Qed.

(** C38: for the same reason a run-phase poll can print a percentage
    above 100: with [recordcount = 2] and [operationcount = 1] the first
    run-phase line is [200% (2/1)], and the polling loop goes on. *)
Theorem run_phase_over_100 :
  let st := demo_run (load_sched 2 ++ [ABarrier; ACoord; ACoord]) 2 1 1 in
  reachable (demo_init 2 1 1) st /\ d_coord st = CRunPoll 200 /\
  d_out st = [OutProgress 100 2 2; OutInsertTime 6; OutProgress 200 2 1].
Proof.
  intros st. split; [apply demo_run_reachable; vm_compute; discriminate|].
  vm_compute. split_and!; reflexivity.
Qed.

(** [start_time] is read by the coordinator after it leaves the first
    barrier, racing with the workers: a worker can finish its whole load
    before it, and [end_time - start_time] saturates to zero, so the load
    of one record is reported as taking no time (and [R / 0.0] is printed
    as the throughput). *)
Theorem load_time_zero :
  let st := demo_run ([ABarrier] ++ replicate 4 (AWorker 0) ++ [ACoord; ACoord; ABarrier; ACoord]) 1 1 1 in
  reachable (demo_init 1 1 1) st /\ d_out st = [OutProgress 100 1 1; OutInsertTime 0].
Proof.
  intros st. split; [apply demo_run_reachable; vm_compute; discriminate|].
  vm_compute. reflexivity.
Qed.

(** ** Witnesses: one worker, one record, one operation, after the load *)

Definition demo_loaded : DState Globals StdBTreeMapMutex := demo_run (load_sched 1) 1 1 1.

Lemma demo_shared : @db_shared_inv Globals StdBTreeMapMutex _ _ globals_init.
Proof. exact cm_wf_empty. Qed.

Lemma driver_reachable_inv_witness :
  dinv demo_workload (dom (MUTEX_INSTANCE globals_init)) demo_loaded.
Proof.
  refine (driver_reachable_inv (mkClientProperties 1 1) 1 demo_workload globals_init demo_rngs
            demo_loaded _ _ demo_shared _).
  - split; simpl; lia.
  - simpl; lia.
  - apply demo_run_reachable. vm_compute. discriminate.
Defined.

Lemma load_phase_complete_witness :
  Counter.counter (Core.key_sequence (d_workload demo_loaded)) = wrap_u64 (0 + 1) /\
  dom (MUTEX_INSTANCE (d_db demo_loaded)) =
    dom (MUTEX_INSTANCE globals_init) ∪ list_to_set (map (key_of demo_workload) (seqZ 0 1)) /\
  (d_coord demo_loaded = CB2 -> sumZ (fun w => progress (w_client w)) (d_workers demo_loaded) = 1).
Proof.
  refine (load_phase_complete (mkClientProperties 1 1) 1 demo_workload globals_init demo_rngs
            demo_loaded _ _ demo_shared _ _ _).
  - split; simpl; lia.
  - simpl; lia.
  - lia.
  - apply demo_run_reachable. vm_compute. discriminate.
  - vm_compute. reflexivity.
Defined.

Lemma zero_count_never_completes_witness :
  (forall st, reachable (init_state (mkClientProperties 0 0) 2 demo_workload globals_init demo_rngs) st ->
     coord_after_run (d_coord st) = false) /\
  (0 = 0 ->
     exists st, run [ABarrier; ACoord; ACoord]
                  (init_state (mkClientProperties 0 0) 2 demo_workload globals_init demo_rngs) = Some st /\
       d_coord st = CPanic).
Proof.
  exact (zero_count_never_completes (mkClientProperties 0 0) 2 demo_workload globals_init demo_rngs
           (or_introl eq_refl)).
Defined.

Lemma no_workers_spin_witness :
  (d_coord (demo_run [ABarrier; ACoord; ACoord] 1 1 0) = CB1 \/
   d_coord (demo_run [ABarrier; ACoord; ACoord] 1 1 0) = CStart \/
   exists prev, d_coord (demo_run [ABarrier; ACoord; ACoord] 1 1 0) = CLoadPoll prev) /\
  exists a st', step a (demo_run [ABarrier; ACoord; ACoord] 1 1 0) = Some st'.
Proof.
  refine (no_workers_spin (mkClientProperties 1 1) demo_workload globals_init demo_rngs _ _ _).
  - simpl. lia.
  - apply demo_run_reachable. vm_compute. discriminate.
Defined.

Lemma driver_no_deadlock_witness :
  d_coord demo_loaded <> CPanic /\
  (forall i w, d_workers demo_loaded !! i = Some w -> w_pc w <> WPanic) /\
  (d_coord demo_loaded <> CDone -> exists a st', step a demo_loaded = Some st').
Proof.
  refine (driver_no_deadlock (mkClientProperties 1 1) 1 demo_workload globals_init demo_rngs
            demo_loaded _ _ demo_shared _ _ _ _).
  - split; simpl; lia.
  - simpl; lia.
  - lia.
  - simpl; lia.
  - simpl; lia.
  - apply demo_run_reachable. vm_compute. discriminate.
Defined.

Lemma load_distinct_keys_witness :
  size (dom (MUTEX_INSTANCE (d_db demo_loaded))) = Z.to_nat 1 /\
  (d_coord demo_loaded = CB2 -> sumZ (fun w => progress (w_client w)) (d_workers demo_loaded) = 1).
Proof.
  refine (load_distinct_keys 1 1 1 demo_workload demo_rngs demo_loaded _ _ _ _ _ _).
  - lia.
  - lia.
  - lia.
  - vm_compute. reflexivity.
  - apply demo_run_reachable. vm_compute. discriminate.
  - vm_compute. reflexivity.
Defined.

(** The worker after the first barrier, and what [setup_initial_data]
    computes for it. *)
Definition demo_started : DState Globals StdBTreeMapMutex := demo_run [ABarrier] 1 1 1.

Definition demo_worker : Worker StdBTreeMapMutex :=
  set_pc (spawn (mkClientProperties 1 1) 1 demo_rngs 0) WLoadStart.

Definition demo_setup_out : Client StdBTreeMapMutex * Core.CoreWorkload * Core.Rng * Globals :=
  default (w_client demo_worker, demo_workload, demo_rngs 0, globals_init)
    (setup_initial_data (w_client demo_worker) (d_workload demo_started) (w_rng demo_worker)
       (d_db demo_started)).

Lemma worker_load_refines_witness :
  exists st', run (replicate (2 * Z.to_nat 1 + 2) (AWorker 0)) demo_started = Some st' /\
    d_workload st' = demo_setup_out.1.1.2 /\ d_db st' = demo_setup_out.2 /\
    d_coord st' = d_coord demo_started /\
    d_workers st' =
      <[0%nat := mkWorker WB2 demo_setup_out.1.1.1 demo_setup_out.1.2
               (d_clock demo_started + 2 * Z.to_nat 1 + 1)%nat (w_bench_end demo_worker)]>
        (d_workers demo_started).
Proof.
  refine (worker_load_refines demo_started 0 demo_worker 1 _ _ _ _ _ _ _ _);
    vm_compute; reflexivity.
Defined.

End DriverFacts.
