(* ===== verification/Termination.v ===== *)
(** Termination of the worker threads of [src/ycsb/src/main.rs]: the
    closure spawned on lines 140-168 runs two counted loops
    ([setup_initial_data] and [benchmark], [client.rs]) between three
    barriers, so each worker performs a bounded number of actions, whatever
    the schedule.  The bound is a measure on a worker's position ([wpc])
    and its two stripe counts, which every worker action and every barrier
    release decreases and the coordinator's actions leave alone.  The
    coordinator's polling loop is not bounded (it spins while the workers
    have not finished, [Driver.DriverFacts.no_workers_spin]), so the
    theorem counts the workers' actions. *)

From S2P Require Import Prelude Db Generators StdBTree Keys Client Driver.

Module Termination.
Import Client ClientFacts Driver DriverFacts.

Section Measure.
Context {S H : Type} `{!DB S H}.

(** The iterations of one of the two loops of worker [c]: its stripe of
    [total], 0 where the stripe computation panics. *)
Definition stripe_of (total : Z) (c : Client H) : Z :=
  Z.max 0 (default 0 (stripe_count total (thread_index c) (thread_count c))).

(** The actions left to worker [w]: two per load iteration (the insert
    and the [fetch_add]), one per run iteration, and the fixed steps
    between the loops and the barriers. *)
Definition wmeasure (w : Worker H) : Z :=
  let c := w_client w in
  let L := stripe_of (record_count (props c)) c in
  let B := stripe_of (operation_count (props c)) c in
  match w_pc w with
  | WB1 => 2 * L + B + 8
  | WLoadStart => 2 * L + B + 7
  | WLoad r false => 2 * Z.of_nat r + B + 6
  | WLoad r true => 2 * Z.of_nat r + B + 7
  | WB2 => B + 5
  | WReset => B + 4
  | WBenchStart => B + 3
  | WBench r => Z.of_nat r + 2
  | WB3 => 1
  | WExit | WPanic => 0
  end.

Definition dmeasure (st : DState S H) : Z := sumZ wmeasure (d_workers st).

Definition is_worker (a : actor) : bool := match a with AWorker _ => true | _ => false end.

Lemma wmeasure_nonneg w : 0 <= wmeasure w.
Proof.
  unfold wmeasure, stripe_of.
  destruct (w_pc w) as [| |r []| | | |r| | |]; lia.
Qed.

Lemma worker_step_measure p wl s now w wl' s' w' :
  worker_step p wl s now w = Some (wl', s', w') -> wmeasure w' < wmeasure w.
Proof.
  destruct w as [pc c rng ie be]. unfold worker_step, wmeasure, stripe_of. cbn [w_pc w_client].
  destruct pc as [| |[|r] []| | | |[|r]| | |]; cbn; try done; intros Hs;
    repeat match type of Hs with context [match ?x with _ => _ end] => destruct x eqn:? end;
    simplify_eq; cbn; repeat match goal with E : _ = Some _ |- _ => rewrite E end; cbn; lia.
Qed.

(** A barrier release moves a worker to the position after the barrier. *)
Lemma release_measure pc pc' w :
  barrier_pair pc pc' -> w_pc w = pc -> wmeasure (set_pc w pc') < wmeasure w.
Proof.
  unfold barrier_pair, wmeasure, stripe_of, set_pc. cbn. intros Hp ->.
  destruct_or! Hp; destruct_and! Hp; subst; lia.
Qed.

Lemma step_measure a st st' :
  step a st = Some st' -> dmeasure st' + (if is_worker a then 1 else 0) <= dmeasure st.
Proof.
  unfold step, dmeasure. destruct a as [i| |]; cbn [is_worker].
  - destruct (d_workers st !! i) as [w|] eqn:Ei; [|done].
    destruct (worker_step _ _ _ _ w) as [[[wl' s'] w']|] eqn:Ew; [|done]. intros [= <-]. unfold with_clock. cbn [d_workers].
    rewrite (sumZ_insert _ _ _ _ _ Ei). pose proof (worker_step_measure _ _ _ _ _ _ _ _ Ew). lia.
  - repeat case_match; intros; simplify_eq; unfold with_clock; cbn [d_workers]; lia.
  - assert (Hrel : forall pc pc', barrier_pair pc pc' -> all_at pc (d_workers st) = true ->
              sumZ wmeasure ((fun w => set_pc w pc') <$> d_workers st) <= sumZ wmeasure (d_workers st)).
    { intros pc pc' Hp Ha%all_at_spec. rewrite sumZ_fmap. apply sumZ_le. intros w Hw.
      rewrite Forall_forall in Ha. pose proof (release_measure pc pc' w Hp (Ha w Hw)). lia. }
    destruct (d_coord st); try done;
      match goal with |- (if all_at ?pc _ then _ else _) = _ -> _ =>
        destruct (all_at pc (d_workers st)) eqn:Ha; [|done] end;
      intros [= <-]; unfold with_clock; cbn [d_workers]; rewrite Z.add_0_r;
      (eapply Hrel; [|exact Ha]); unfold barrier_pair; naive_solver.
Qed.

Lemma run_measure sched st st' :
  run sched st = Some st' ->
  dmeasure st' + Z.of_nat (length (filter is_worker sched)) <= dmeasure st.
Proof.
  revert st. induction sched as [|a sched IH]; intros st; cbn [run]; [intros [= <-]; simpl; lia|].
  destruct (step a st) as [st1|] eqn:Es; [|done]. intros Hr.
  pose proof (step_measure _ _ _ Es). specialize (IH _ Hr).
  rewrite filter_cons. destruct (is_worker a); simpl length; lia.
Qed.

(** The measure at the start of the process: each worker owes twice its
    load stripe, its run stripe, and eight fixed actions. *)
Lemma init_measure p T wl0 (s0 : S) rngs :
  0 <= record_count p -> 0 <= operation_count p -> (1 <= T)%nat ->
  dmeasure (init_state p T wl0 s0 rngs) = 2 * record_count p + operation_count p + 8 * Z.of_nat T.
Proof.
  intros HR HO HT. unfold dmeasure, init_state. cbn [d_workers].
  set (a total z := default 0 (stripe_count total z (Z.of_nat T))).
  rewrite (sumZ_lookup_seqZ _ (fun z => 2 * a (record_count p) z + a (operation_count p) z + 8) _ 0).
  2:{ intros i w Hw. rewrite list_lookup_fmap in Hw.
      destruct (seq 0 T !! i) as [j|] eqn:Ej; [|done]. injection Hw as <-.
      apply lookup_seq in Ej as [-> _]. unfold wmeasure, stripe_of, spawn, a. cbn.
      rewrite Z.add_0_l. destruct (stripe_count_range (record_count p) (Z.of_nat i) (Z.of_nat T)) as (k3 & -> & ?); [lia..|].
      destruct (stripe_count_range (operation_count p) (Z.of_nat i) (Z.of_nat T)) as (k4 & -> & ?); [lia..|].
      cbn. lia. }
  rewrite length_fmap, length_seq, !sumZ_plus, !sumZ_scale, sumZ_const, length_seqZ.
  unfold a. rewrite !stripe_sum by lia. lia.
Qed.

(** C11: under every schedule, from the start of the process, the worker
    threads perform at most [2 * recordcount + operationcount + 8 * T]
    actions in total (two per insert, one per run iteration, and the
    fixed steps around the loops and barriers): no schedule, however it
    interleaves the threads, makes the workers act more often than that. *)
Theorem workers_terminate p T wl0 (s0 : S) rngs sched st :
  0 <= record_count p -> 0 <= operation_count p -> (1 <= T)%nat ->
  run sched (init_state p T wl0 s0 rngs) = Some st ->
  Z.of_nat (length (filter is_worker sched)) <= 2 * record_count p + operation_count p + 8 * Z.of_nat T.
Proof.
  intros HR HO HT Hr. rewrite <- (init_measure p T wl0 s0 rngs HR HO HT).
  pose proof (run_measure _ _ _ Hr).
  pose proof (sumZ_nonneg wmeasure (d_workers st) wmeasure_nonneg). unfold dmeasure in *. lia.
Qed.

End Measure.
Import StdBTree.StdBTree StdBTreeFacts.

(** The load phase of one worker with [recordcount = operationcount = 1]. *)
Lemma workers_terminate_witness :
  Z.of_nat (length (filter is_worker (load_sched 1))) <= 2 * 1 + 1 + 8 * Z.of_nat 1.
Proof.
  apply (workers_terminate (H:=StdBTreeMapMutex) (mkClientProperties 1 1) 1
           demo_workload globals_init demo_rngs (load_sched 1)
           (demo_run (load_sched 1) 1 1 1)); [simpl; lia|simpl; lia|lia|vm_compute; reflexivity].
Defined.

End Termination.
