(* ===== verification/Config.v ===== *)
(** The command line of [src/ycsb/src/main.rs], [parse_args] (lines
    179-219): [-P <path>] merges a TOML file into the table, [-p k=v]
    records an override, and after the whole argument list is read the
    overrides are applied in order, each value coerced to an [i64], else
    an [f64], else a [bool] (after ASCII lower-casing), else kept as a
    string.  Reading and parsing a file is I/O and is the [Section]
    variable [load] ([None] where [read_to_string(..).unwrap()] or
    [parse::<Table>().unwrap()] panics); an [f64] value is kept as its
    literal (its rounding is not modelled), the recogniser deciding which
    strings [f64::from_str] accepts. *)

From S2P Require Import Prelude.
From Stdlib Require Import Ascii.

Module Config.

(** [toml::Value]: the variants the overrides produce, and the others
    (datetimes, arrays, tables) a file may hold. *)
Inductive Value :=
  | VString (s : string)
  | VInteger (n : Z)
  | VFloat (literal : string)
  | VBoolean (b : bool)
  | VOther.

#[export] Instance Value_eq_dec : EqDecision Value.
Proof. solve_decision. Defined.

(** ** Value coercion *)

Definition ascii_digit (c : ascii) : option Z :=
  let n := Z.of_nat (nat_of_ascii c) - 48 in
  if (0 <=? n) && (n <? 10) then Some n else None.

Fixpoint digits_value (s : string) (acc : Z) : option Z :=
  match s with
  | EmptyString => Some acc
  | String c rest =>
      match ascii_digit c with
      | Some d => digits_value rest (acc * 10 + d)
      | None => None
      end
  end.

(** [v.parse::<i64>()]: an optional sign, at least one digit, and a value
    within [i64]. *)
Definition parse_i64 (s : string) : option Z :=
  let '(neg, body) :=
    match s with
    | String c rest =>
        if Ascii.eqb c "-" then (true, rest) else if Ascii.eqb c "+" then (false, rest) else (false, s)
    | EmptyString => (false, s)
    end in
  match body with
  | EmptyString => None
  | _ =>
      match digits_value body 0 with
      | None => None
      | Some n =>
          let z := if neg then - n else n in
          if (- 2 ^ 63 <=? z) && (z <? 2 ^ 63) then Some z else None
      end
  end.

Definition strip_sign (s : string) : string :=
  match s with
  | String c rest => if Ascii.eqb c "-" || Ascii.eqb c "+" then rest else s
  | EmptyString => s
  end.

(** The leading digits of a string: how many, and the rest. *)
Fixpoint span_digits (s : string) : nat * string :=
  match s with
  | String c rest =>
      match ascii_digit c with
      | Some _ => let '(n, r) := span_digits rest in (Datatypes.S n, r)
      | None => (0%nat, s)
      end
  | EmptyString => (0%nat, s)
  end.

Definition ascii_lower (c : ascii) : ascii :=
  let n := nat_of_ascii c in
  if (65 <=? n)%nat && (n <=? 90)%nat then ascii_of_nat (n + 32) else c.

(** [str::to_ascii_lowercase] *)
Fixpoint to_ascii_lowercase (s : string) : string :=
  match s with
  | EmptyString => EmptyString
  | String c rest => String (ascii_lower c) (to_ascii_lowercase rest)
  end.

(** [Exp ::= ('e' | 'E') Sign? Digit+] at the end of the literal. *)
Definition exp_ok (s : string) : bool :=
  match s with
  | EmptyString => true
  | String c rest =>
      (Ascii.eqb c "e" || Ascii.eqb c "E") &&
      (let '(n, r) := span_digits (strip_sign rest) in negb (n =? 0)%nat && String.eqb r EmptyString)
  end.

(** [Number ::= (Digit+ | Digit+ '.' Digit* | Digit* '.' Digit+) Exp?] *)
Definition is_number (s : string) : bool :=
  let '(n1, r1) := span_digits s in
  let '(n2, r2) :=
    match r1 with
    | String c rest => if Ascii.eqb c "." then span_digits rest else (0%nat, r1)
    | EmptyString => (0%nat, r1)
    end in
  negb (n1 + n2 =? 0)%nat && exp_ok r2.

(** The strings [f64::from_str] accepts: a sign, then [inf], [infinity],
    [nan] (any case) or a decimal number. *)
Definition is_f64_literal (s : string) : bool :=
  let body := strip_sign s in
  let low := to_ascii_lowercase body in
  String.eqb low "inf" || String.eqb low "infinity" || String.eqb low "nan" || is_number body.

(** [v.to_ascii_lowercase().parse::<bool>()] *)
Definition parse_bool (s : string) : option bool :=
  if String.eqb s "true" then Some true else if String.eqb s "false" then Some false else None.

(** Lines 206-214. *)
Definition coerce (v : string) : Value :=
  match parse_i64 v with
  | Some n => VInteger n
  | None =>
      if is_f64_literal v then VFloat v
      else match parse_bool (to_ascii_lowercase v) with
           | Some b => VBoolean b
           | None => VString v
           end
  end.

(** [kv.split_once('=')] *)
Fixpoint split_once (s : string) : option (string * string) :=
  match s with
  | EmptyString => None
  | String c rest =>
      if Ascii.eqb c "=" then Some (EmptyString, rest)
      else match split_once rest with
           | Some (k, v) => Some (String c k, v)
           | None => None
           end
  end.

(** ** The argument loop *)

Section Parse.
(** Reading and parsing the file at a path. *)
Variable load : string -> option (gmap string Value).

(** Lines 186-202: the arguments are popped from the front of the
    (reversed) vector; a flag without its argument, a file that cannot be
    read or parsed, and an override without [=] panic ([None]). *)
Fixpoint parse_loop (args : list string) (ret : gmap string Value)
    (overwrites : list (string * string)) : option (gmap string Value * list (string * string)) :=
  match args with
  | [] => Some (ret, overwrites)
  | k :: rest =>
      if String.eqb k "-P" then
        match rest with
        | [] => None
        | path :: rest' =>
            match load path with
            | None => None
            | Some tbl => parse_loop rest' (tbl ∪ ret) overwrites
            end
        end
      else if String.eqb k "-p" then
        match rest with
        | [] => None
        | kv :: rest' =>
            match split_once kv with
            | None => None
            | Some (k', v) => parse_loop rest' ret (overwrites ++ [(k', v)])
            end
        end
      else parse_loop rest ret overwrites
  end.

(** Lines 204-216: [ret.insert(k, coerced v)] for each override, in order. *)
Definition apply_overwrites (ret : gmap string Value) (overwrites : list (string * string))
    : gmap string Value :=
  foldl (fun t kv => <[kv.1 := coerce kv.2]> t) ret overwrites.

(** [fn parse_args() -> Table], on [std::env::args().skip(1)]. *)
Definition parse_args (args : list string) : option (gmap string Value) :=
  match parse_loop args ∅ [] with
  | None => None
  | Some (ret, overwrites) => Some (apply_overwrites ret overwrites)
  end.

(** The documented behaviour, as a reference: the flags act from left to
    right, each later one overriding the earlier ones. *)
Fixpoint spec_loop (args : list string) (ret : gmap string Value) : option (gmap string Value) :=
  match args with
  | [] => Some ret
  | k :: rest =>
      if String.eqb k "-P" then
        match rest with
        | [] => None
        | path :: rest' =>
            match load path with
            | None => None
            | Some tbl => spec_loop rest' (tbl ∪ ret)
            end
        end
      else if String.eqb k "-p" then
        match rest with
        | [] => None
        | kv :: rest' =>
            match split_once kv with
            | None => None
            | Some (k', v) => spec_loop rest' (<[k' := coerce v]> ret)
            end
        end
      else spec_loop rest ret
  end.

End Parse.

End Config.

Module ConfigFacts.
Import Config.

(** ** Coercion of large integers *)

Lemma digits_value_span s acc n :
  digits_value s acc = Some n -> span_digits s = (String.length s, EmptyString).
Proof.
  revert acc. induction s as [|c s IH]; intros acc; simpl; [done|].
  destruct (ascii_digit c); [|done]. intros Hd. by rewrite (IH _ Hd).
Qed.

Lemma digit_not_sign c : is_Some (ascii_digit c) -> Ascii.eqb c "-" = false /\ Ascii.eqb c "+" = false.
Proof.
  unfold ascii_digit. intros Hd.
  destruct (Ascii.eqb_spec c "-") as [->|]; [by destruct Hd|].
  destruct (Ascii.eqb_spec c "+") as [->|]; [by destruct Hd|]. done.
Qed.

(** C39: a decimal override whose value does not fit an [i64] is
    coerced to a float: a [u64] setting such as [recordcount] above
    [2^63 - 1] cannot be given with [-p] (the float is then rejected by
    the [u64] field). *)
Theorem large_integer_becomes_float s n :
  s <> EmptyString -> digits_value s 0 = Some n -> 2 ^ 63 <= n -> coerce s = VFloat s.
Proof.
  intros Hne Hd Hn. destruct s as [|c rest]; [done|].
  assert (Hc : is_Some (ascii_digit c)) by (simpl in Hd; destruct (ascii_digit c); [done|discriminate]).
  destruct (digit_not_sign c Hc) as [Hm Hp].
  unfold coerce, parse_i64. rewrite Hm, Hp, Hd.
  replace ((- 2 ^ 63 <=? n) && (n <? 2 ^ 63)) with false
    by (symmetry; apply andb_false_iff; right; apply Z.ltb_ge; lia).
  unfold is_f64_literal, strip_sign. rewrite Hm, Hp. simpl orb.
  unfold is_number. rewrite (digits_value_span _ _ _ Hd). simpl.
  by rewrite !orb_true_r.
Qed.

Lemma large_integer_becomes_float_witness :
  "9223372036854775808" <> EmptyString /\
  coerce "9223372036854775808" = VFloat "9223372036854775808".
Proof.
  split; [discriminate|].
  apply (large_integer_becomes_float _ 9223372036854775808); [discriminate|vm_compute; reflexivity|lia].
Defined.

(** ** Integers in the table are [i64]s *)

(** A TOML integer is an [i64]. *)
Definition value_i64 (v : Value) : Prop :=
  match v with VInteger n => - 2 ^ 63 <= n < 2 ^ 63 | _ => True end.

Lemma parse_loop_cons load a rest ret ow :
  parse_loop load (a :: rest) ret ow =
    if String.eqb a "-P" then
      match rest with
      | [] => None
      | path :: rest' => match load path with None => None | Some tbl => parse_loop load rest' (tbl ∪ ret) ow end
      end
    else if String.eqb a "-p" then
      match rest with
      | [] => None
      | kv :: rest' =>
          match split_once kv with
          | None => None
          | Some (k', v) => parse_loop load rest' ret (ow ++ [(k', v)])
          end
      end
    else parse_loop load rest ret ow.
Proof. reflexivity. Qed.

Definition i64_table (t : gmap string Value) : Prop := map_Forall (fun _ v => value_i64 v) t.

Lemma parse_i64_range s n : parse_i64 s = Some n -> - 2 ^ 63 <= n < 2 ^ 63.
Proof.
  unfold parse_i64. repeat case_match; try done; intros [= <-];
    match goal with H : (_ && _) = true |- _ => apply andb_true_iff in H as [?%Z.leb_le ?%Z.ltb_lt] end;
    lia.
Qed.

Lemma coerce_i64 v : value_i64 (coerce v).
Proof.
  unfold coerce. destruct (parse_i64 v) eqn:E; [by apply parse_i64_range in E|].
  by repeat case_match.
Qed.

Lemma apply_overwrites_i64 ret ow : i64_table ret -> i64_table (apply_overwrites ret ow).
Proof.
  revert ret. induction ow as [|[k v] ow IH]; intros ret Hr; [done|].
  apply IH. apply map_Forall_insert_2; [apply coerce_i64|done].
Qed.

Section Tables.
Variable load : string -> option (gmap string Value).
(** The TOML parser yields [i64] integers. *)
Hypothesis load_i64 : forall path t, load path = Some t -> i64_table t.

Lemma parse_loop_i64 args ret ow r ow' :
  i64_table ret -> parse_loop load args ret ow = Some (r, ow') -> i64_table r.
Proof.
  revert ret ow. induction args as [|a|a b args IH1 IH2] using list_ind2; intros ret ow Hr;
    [simpl..|].
  - by intros [= <- _].
  - repeat case_match; try done. by intros [= <- _].
  - rewrite parse_loop_cons. case_match; [case_match; [|done]|case_match].
    + apply IH1. apply map_Forall_union_2; [by eapply load_i64|done].
    + destruct (split_once b) as [[k v]|]; [by apply IH1|done].
    + by apply IH2.
Qed.

Lemma parse_args_i64 args t : parse_args load args = Some t -> i64_table t.
Proof.
  unfold parse_args. destruct (parse_loop load args ∅ []) as [[r ow]|] eqn:E; [|done].
  intros [= <-]. apply apply_overwrites_i64. eapply parse_loop_i64; [|exact E].
  apply map_Forall_empty.
Qed.
End Tables.

(** [parse_args] reads its arguments front to back: a prefix that parses
    leaves the rest to continue from its result. *)
Lemma parse_loop_app load args more ret ow r ow' :
  parse_loop load args ret ow = Some (r, ow') ->
  parse_loop load (args ++ more) ret ow = parse_loop load more r ow'.
Proof.
  revert ret ow. induction args as [|a|a b args IH1 IH2] using list_ind2; intros ret ow.
  - by intros [= <- <-].
  - simpl. repeat case_match; try done. by intros [= <- <-].
  - intros H. rewrite parse_loop_cons in H. cbn [app]. rewrite parse_loop_cons.
    destruct (String.eqb a "-P"); [destruct (load b); [by apply IH1|done]|].
    destruct (String.eqb a "-p"); [|by apply IH2].
    destruct (split_once b) as [[k v]|]; [by apply IH1|done].
Qed.

(** Whether a string contains ['=']. *)
Fixpoint has_eq (s : string) : bool :=
  match s with EmptyString => false | String c r => Ascii.eqb c "=" || has_eq r end.

Lemma split_once_key k v : has_eq k = false -> split_once (k +:+ String "=" v) = Some (k, v).
Proof.
  induction k as [|c k IH]; simpl; [done|]. intros [-> Hk]%orb_false_iff. by rewrite IH.
Qed.

Lemma apply_overwrites_snoc ret ow k v :
  apply_overwrites ret (ow ++ [(k, v)]) = <[k := coerce v]> (apply_overwrites ret ow).
Proof. unfold apply_overwrites. by rewrite foldl_app. Qed.

(** [-p k=v] at the end of the command line sets [k] to [coerce v]. *)
Lemma parse_args_snoc_override load args t k v :
  has_eq k = false -> parse_args load args = Some t ->
  exists t', parse_args load (args ++ ["-p"; k +:+ String "=" v]) = Some t' /\ t' !! k = Some (coerce v).
Proof.
  unfold parse_args. intros Hk. destruct (parse_loop load args ∅ []) as [[r ow]|] eqn:E; [|done].
  intros _. rewrite (parse_loop_app _ _ _ _ _ _ _ E). simpl. rewrite split_once_key by done. simpl.
  eexists. split; [done|]. by rewrite apply_overwrites_snoc, lookup_insert_eq.
Qed.

(** ** The order of [-P] and [-p] *)

Section Order.
Variable load : string -> option (gmap string Value).

(** C36: an override given before a file still beats the file's value:
    [-p k=v -P path] ends with [coerce v] at [k] whatever the file holds,
    where the documented left-to-right composition gives the file's value
    ([map union] keeps the file's entry). *)
Theorem override_beats_later_file kv k v path tbl :
  load path = Some tbl -> split_once kv = Some (k, v) ->
  parse_args load ["-p"; kv; "-P"; path] = Some (<[k := coerce v]> tbl) /\
  spec_loop load ["-p"; kv; "-P"; path] ∅ = Some (tbl ∪ {[k := coerce v]}).
Proof.
  intros Hl Hs. unfold parse_args. simpl. rewrite Hs, Hl. simpl.
  unfold apply_overwrites. simpl. by rewrite map_union_empty, insert_empty.
Qed.

Definition files_args (paths : list string) : list string := concat (map (fun p => ["-P"; p]) paths).
Definition override_args (kvs : list string) : list string := concat (map (fun kv => ["-p"; kv]) kvs).

Fixpoint load_all (paths : list string) (ret : gmap string Value) : option (gmap string Value) :=
  match paths with
  | [] => Some ret
  | p :: ps => match load p with None => None | Some tbl => load_all ps (tbl ∪ ret) end
  end.

Fixpoint split_all (kvs : list string) : option (list (string * string)) :=
  match kvs with
  | [] => Some []
  | kv :: rest =>
      match split_once kv with
      | None => None
      | Some p => option_map (cons p) (split_all rest)
      end
  end.

Lemma parse_loop_files paths rest ret ow :
  parse_loop load (files_args paths ++ rest) ret ow =
    match load_all paths ret with None => None | Some r => parse_loop load rest r ow end.
Proof.
  revert ret. induction paths as [|p ps IH]; intros ret; [done|]. simpl.
  destruct (load p); [apply IH|done].
Qed.

Lemma spec_loop_files paths rest ret :
  spec_loop load (files_args paths ++ rest) ret =
    match load_all paths ret with None => None | Some r => spec_loop load rest r end.
Proof.
  revert ret. induction paths as [|p ps IH]; intros ret; [done|]. simpl.
  destruct (load p); [apply IH|done].
Qed.

Lemma parse_loop_overrides kvs ret ow :
  parse_loop load (override_args kvs) ret ow =
    match split_all kvs with None => None | Some ps => Some (ret, ow ++ ps) end.
Proof.
  revert ow. induction kvs as [|kv kvs IH]; intros ow; simpl; [by rewrite app_nil_r|].
  destruct (split_once kv) as [[k v]|]; [|done]. unfold override_args in IH. rewrite IH.
  destruct (split_all kvs); [|done]. simpl. by rewrite <- app_assoc.
Qed.

Lemma spec_loop_overrides kvs ret :
  spec_loop load (override_args kvs) ret =
    match split_all kvs with None => None | Some ps => Some (apply_overwrites ret ps) end.
Proof.
  revert ret. induction kvs as [|kv kvs IH]; intros ret; simpl; [done|].
  destruct (split_once kv) as [[k v]|]; [|done]. unfold override_args in IH. rewrite IH.
  by destruct (split_all kvs).
Qed.

(** C37: when every [-P] flag comes before every [-p] flag, [parse_args]
    computes exactly the documented left-to-right composition (and
    panics exactly when it does). *)
Theorem parse_args_files_first paths kvs :
  parse_args load (files_args paths ++ override_args kvs) =
    spec_loop load (files_args paths ++ override_args kvs) ∅.
Proof.
  unfold parse_args. rewrite parse_loop_files, spec_loop_files.
  destruct (load_all paths ∅) as [r|]; [|done].
  rewrite parse_loop_overrides, spec_loop_overrides. by destruct (split_all kvs).
Qed.

End Order.

(** A file [w.toml] setting [recordcount = 10]. *)
Definition demo_load (path : string) : option (gmap string Value) :=
  if String.eqb path "w.toml" then Some {[ "recordcount" := VInteger 10 ]} else None.

Lemma override_beats_later_file_witness :
  parse_args demo_load ["-p"; "recordcount=5"; "-P"; "w.toml"] =
    Some (<[ "recordcount" := coerce "5" ]> {[ "recordcount" := VInteger 10 ]}) /\
  spec_loop demo_load ["-p"; "recordcount=5"; "-P"; "w.toml"] ∅ =
    Some ({[ "recordcount" := VInteger 10 ]} ∪ {[ "recordcount" := coerce "5" ]}).
Proof.
  exact (override_beats_later_file demo_load "recordcount=5" "recordcount" "5" "w.toml"
           {[ "recordcount" := VInteger 10 ]} eq_refl eq_refl).
Defined.

End ConfigFacts.
