(* ===== verification/Props.v ===== *)
(** The property structs read from the TOML table: [CoreProperties]
    ([main.rs], lines 221-249), [ClientProperties] ([client.rs], lines
    78-98) and the workload's [Properties] ([core.rs], lines 101-221,
    whose record is [Keys.Core.Properties]).  Each is filled by the
    [serde] derivation through [Table::try_into]: a field takes the value
    at its (renamed) key, deserialized by its Rust type, or its [default]
    function when the key is absent; a field without default is required
    ([missing field]); an [Option] field is [None] when absent; keys of no
    field are ignored.  A value of the wrong TOML type, or an integer
    outside the field's range, is an error ([None]).  An [f64] field
    accepts a TOML float or an integer ([n as f64]); the decimal reading
    of a float literal is the [Section] variable [f64_of_literal]. *)

From S2P Require Import Prelude Generators Keys Client Config.
From Stdlib Require Import Floats.

Module Props.
Import Config.

(** ** Deserializing one value *)

Definition de_string (v : Value) : option string :=
  match v with VString s => Some s | _ => None end.

Definition de_bool (v : Value) : option bool :=
  match v with VBoolean b => Some b | _ => None end.

(** [u32]: [serde]'s [visit_i64] accepts [0 <= n <= u32::MAX]. *)
Definition de_u32 (v : Value) : option Z :=
  match v with VInteger n => if (0 <=? n) && (n <? 2 ^ 32) then Some n else None | _ => None end.

(** [u64]: a TOML integer is an [i64]; a negative one is rejected. *)
Definition de_u64 (v : Value) : option Z :=
  match v with VInteger n => if 0 <=? n then Some n else None | _ => None end.

(** [n as f64] on an [i64]: the nearest binary64. *)
Definition i64_as_f64 (n : Z) : PrimFloat.float :=
  FloatOps.SF2Prim (SpecFloat.binary_normalize FloatOps.prec FloatOps.emax n 0 false).

Section Float.
Variable f64_of_literal : string -> PrimFloat.float.

Definition de_f64 (v : Value) : option PrimFloat.float :=
  match v with
  | VFloat lit => Some (f64_of_literal lit)
  | VInteger n => Some (i64_as_f64 n)
  | _ => None
  end.
End Float.

(** A field with [#[serde(default = ..)]]: the default when the key is
    absent; [d = None] for a required field. *)
Definition field {A} (t : gmap string Value) (k : string) (de : Value -> option A) (d : option A)
    : option A :=
  match t !! k with Some v => de v | None => d end.

(** An [Option<T>] field: [None] when the key is absent. *)
Definition field_opt {A} (t : gmap string Value) (k : string) (de : Value -> option A)
    : option (option A) :=
  match t !! k with Some v => Some <$> de v | None => Some None end.

(** ** [CoreProperties] of [main.rs] *)

Record CoreProperties := mkCoreProperties {
  workload : string;
  db : string;
  max_execution_time : Z;
  thread_count : Z;
  target : Z
}.

Definition default_db : string := "std_btreemap_mutex".
Definition default_max_execution_time : Z := 0.
Definition default_thread_count : Z := 1.
Definition default_target : Z := 0.

(** [args.clone().try_into()?] of line 27. *)
Definition core_properties (t : gmap string Value) : option CoreProperties :=
  w ← field t "workload" de_string None;
  d ← field t "db" de_string (Some default_db);
  m ← field t "maxexecutiontime" de_u32 (Some default_max_execution_time);
  tc ← field t "threadcount" de_u32 (Some default_thread_count);
  tg ← field t "target" de_u32 (Some default_target);
  Some (mkCoreProperties w d m tc tg).

(** ** [ClientProperties] of [client.rs] *)

Definition default_operation_count : Z := 0.
Definition default_record_count : Z := 0.

(** [ClientProperties::parse]: [props.try_into()]. *)
Definition parse (t : gmap string Value) : option Client.ClientProperties :=
  o ← field t "operationcount" de_u64 (Some default_operation_count);
  r ← field t "recordcount" de_u64 (Some default_record_count);
  Some (Client.mkClientProperties o r).

(** ** The workload's [Properties] of [core.rs] *)

Section Workload.
Variable f64_of_literal : string -> PrimFloat.float.

(** [props.clone().try_into().unwrap()] of line 27 of [core.rs]; the
    defaults are those of [Core.default_properties]. *)
Definition workload_properties (t : gmap string Value) : option Core.Properties :=
  let d := Core.default_properties in
  table ← field t "table" de_string (Some (Core.table d));
  fc ← field t "fieldcount" de_u32 (Some (Core.field_count d));
  fnp ← field t "fieldnameprefix" de_string (Some (Core.field_name_prefix d));
  fl ← field t "fieldlength" de_u32 (Some (Core.field_length d));
  flm ← field t "minfieldlength" de_u32 (Some (Core.field_length_min d));
  fld ← field t "fieldlengthdistribution" de_string (Some (Core.field_length_distribution d));
  rd ← field t "requestdistribution" de_string (Some (Core.request_distribution d));
  mins ← field t "minscanlength" de_u32 (Some (Core.min_scan_length d));
  maxs ← field t "maxscanlength" de_u32 (Some (Core.max_scan_length d));
  sld ← field t "scanlengthdistribution" de_string (Some (Core.scan_length_distribution d));
  ist ← field t "insertstart" de_u64 (Some (Core.insert_start d));
  ic ← field_opt t "insertcount" de_u64;
  zp ← field t "zeropadding" de_u32 (Some (Core.zero_padding d));
  raf ← field t "readallfields" de_bool (Some (Core.read_all_fields d));
  rafn ← field t "readallfieldsbyname" de_bool (Some (Core.read_all_fields_by_name d));
  waf ← field t "writeallfields" de_bool (Some (Core.write_all_fields d));
  io ← field t "insertorder" de_string (Some (Core.insert_order d));
  ip ← field t "insertproportion" (de_f64 f64_of_literal) (Some (Core.insert_proportion d));
  Some (Core.mkProperties table fc fnp fl flm fld rd mins maxs sld ist ic zp raf rafn waf io ip).
End Workload.

End Props.

Module PropsFacts.
Import Config ConfigFacts Props.

(** ** The ranges the deserializers guarantee *)

Lemma field_u64_range t k d x :
  i64_table t -> 0 <= d < 2 ^ 63 -> field t k de_u64 (Some d) = Some x -> 0 <= x < 2 ^ 63.
Proof.
  unfold field, de_u64. intros Ht Hd. destruct (t !! k) as [v|] eqn:E; [|by intros [= <-]].
  specialize (Ht k v E). destruct v; try done. simpl in Ht.
  destruct (0 <=? n) eqn:Hn; [|done]. apply Z.leb_le in Hn. intros [= <-]. lia.
Qed.

Lemma workload_insert_start f t p :
  i64_table t -> workload_properties f t = Some p -> 0 <= Core.insert_start p < 2 ^ 63.
Proof.
  unfold workload_properties. intros Ht H. inv_bind. injection H as <-. simpl.
  match goal with E : field t "insertstart" de_u64 _ = Some _ |- _ =>
    exact (field_u64_range _ _ 0 _ Ht ltac:(lia) E) end.
Qed.

(** A value that is not a TOML string. *)
Definition is_vstring (v : Value) : bool := match v with VString _ => true | _ => false end.

(** [ClientProperties::parse] yields the two [u64] counts in range. *)
Lemma parse_u64_range t clp :
  i64_table t -> parse t = Some clp ->
  0 <= Client.record_count clp < 2 ^ 64 /\ 0 <= Client.operation_count clp < 2 ^ 64.
Proof.
  unfold parse. intros Ht H. inv_bind. injection H as <-.
  pose proof (field_u64_range _ _ 0 _ Ht ltac:(lia) E).
  pose proof (field_u64_range _ _ 0 _ Ht ltac:(lia) E0). split; simpl; lia.
Qed.

Lemma field_string_none t k x d :
  t !! k = Some x -> is_vstring x = false -> field t k de_string d = None.
Proof. unfold field. intros ->. by destruct x. Qed.

(** The keys of the [String] fields. *)
Definition core_string_keys : list string := ["workload"; "db"].
Definition workload_string_keys : list string :=
  ["table"; "fieldnameprefix"; "fieldlengthdistribution"; "requestdistribution";
   "scanlengthdistribution"; "insertorder"].

Lemma core_properties_string_none t k x :
  t !! k = Some x -> is_vstring x = false -> k ∈ core_string_keys -> core_properties t = None.
Proof.
  intros Hk Hx Hin. pose proof (fun d => field_string_none t k x d Hk Hx) as Hf. unfold core_properties.
  unfold core_string_keys in Hin. rewrite !elem_of_cons, elem_of_nil in Hin.
  destruct_or! Hin; try done; subst k; rewrite Hf; bind_none.
Qed.

Lemma workload_properties_string_none f t k x :
  t !! k = Some x -> is_vstring x = false -> k ∈ workload_string_keys ->
  workload_properties f t = None.
Proof.
  intros Hk Hx Hin. pose proof (fun d => field_string_none t k x d Hk Hx) as Hf. unfold workload_properties.
  unfold workload_string_keys in Hin. rewrite !elem_of_cons, elem_of_nil in Hin.
  destruct_or! Hin; try done; subst k; rewrite Hf; bind_none.
Qed.


End PropsFacts.
