(* ===== verification/Main.v ===== *)
(** The start of the process, [main] of [src/ycsb/src/main.rs] up to the
    spawning of the workers: [parse_args] ([Config]), the two property
    structs ([Props]; a deserialization error is returned by [?], which
    makes [main] return [Err]), the [workload] and [db] selections (an
    unknown name panics), [CoreWorkload::new] (whose [unwrap] and
    distribution check panic) and [init_clients_internal], whose result is
    the initial state of the driver ([Driver.init_state]) on the
    [StdBTreeMapMutex] engine.  The file I/O of [parse_args], the decimal
    reading of float literals and the threads' random streams are the
    [Section] variables [load], [f64_of_literal] and [rngs]. *)

From S2P Require Import Prelude Db Generators StdBTree Keys Client Driver Config Props.
From Stdlib Require Import Floats Ascii.

Module Main.
Import Config Props Driver StdBTree.StdBTree.

(** How the start of [main] ends. *)
Inductive outcome :=
  | ConfigError                                  (* [main] returns the [Err] of a [?] *)
  | Panic                                        (* a [panic!] or a failed [unwrap] *)
  | Started (st : DState Globals StdBTreeMapMutex). (* the workers are spawned *)

Section Main.
Variable load : string -> option (gmap string Value).
Variable f64_of_literal : string -> PrimFloat.float.
Variable rngs : nat -> Core.Rng.

(** [init_clients_internal::<StdBTreeMapMutex, CoreWorkload>]: [thread_count]
    workers and a barrier of [thread_count + 1], on the engine's statics
    as they are at the start of the process. *)
Definition init_clients_internal (cp : CoreProperties) (clp : Client.ClientProperties)
    (w : Core.CoreWorkload) : DState Globals StdBTreeMapMutex :=
  init_state clp (Z.to_nat (thread_count cp)) w globals_init rngs.

(** [init_clients::<CoreWorkload>]: [U::new], then the [db] selection. *)
Definition init_clients (cp : CoreProperties) (clp : Client.ClientProperties)
    (t : gmap string Value) : outcome :=
  match workload_properties f64_of_literal t ≫= Core.new with
  | None => Panic
  | Some w =>
      if String.eqb (db cp) "std_btreemap_mutex" then Started (init_clients_internal cp clp w)
      else Panic
  end.

(** Lines 26-35 of [main]. *)
Definition main (args : list string) : outcome :=
  match parse_args load args with
  | None => Panic
  | Some t =>
      match core_properties t with
      | None => ConfigError
      | Some cp =>
          match parse t with
          | None => ConfigError
          | Some clp => if String.eqb (workload cp) "core" then init_clients cp clp t else Panic
          end
      end
  end.

End Main.

End Main.

Module MainFacts.
Import Config ConfigFacts Props PropsFacts Driver DriverFacts StdBTree.StdBTree StdBTreeFacts Main.

(** Whether [main] got as far as spawning the workers. *)
Definition started (o : outcome) : bool := match o with Started _ => true | _ => false end.

(** ** The start of [main] *)

Section Start.
Variable load : string -> option (gmap string Value).
Variable f64_of_literal : string -> PrimFloat.float.
Variable rngs : nat -> Core.Rng.

(** C5: whatever the command line, when [main] gets as far as spawning
    the workers, every state the run reaches satisfies the driver
    invariant [dinv] (from the empty table): the [u64] ranges the driver
    relies on are those the deserializers check, and the engine starts
    from its empty statics.  The TOML parser is assumed to yield [i64]
    integers, as it does. *)
Theorem main_reachable_inv args st :
  (forall path t, load path = Some t -> i64_table t) ->
  main load f64_of_literal rngs args = Started st ->
  forall st', reachable st st' -> dinv (d_workload st) ∅ st'.
Proof.
  intros Hload Hm st' Hr. unfold main in Hm.
  destruct (parse_args load args) as [t|] eqn:Ha; [|done].
  destruct (core_properties t) as [cp|]; [|done].
  destruct (parse t) as [clp|] eqn:Hc; [|done].
  destruct (String.eqb _ _); [|done]. unfold init_clients in Hm.
  destruct (workload_properties f64_of_literal t ≫= Core.new) as [w|] eqn:Hw; [|done].
  destruct (String.eqb _ _); [|done]. injection Hm as <-. inv_bind. unfold init_clients_internal in *.
  pose proof (parse_args_i64 load Hload args t Ha) as Ht.
  assert (Hst : 0 <= Counter.counter (Core.key_sequence w) < 2 ^ 64).
  { destruct (new_workload_fields _ _ Hw) as (_ & _ & ->). cbn.
    pose proof (workload_insert_start _ _ _ Ht E). lia. }
  assert (Hs : @db_shared_inv Globals StdBTreeMapMutex _ _ globals_init) by exact cm_wf_empty.
  destruct (reachable_dinv (H:=StdBTreeMapMutex) clp _ w globals_init rngs st'
              (parse_u64_range t clp Ht Hc) Hst Hs Hr) as [Hd _].
  change (db_keys globals_init) with (dom (∅ : gmap string RowValueType)) in Hd.
  by rewrite dom_empty_L in Hd.
Qed.

(** C18: with only [-p workload=core] on the command line, [main] starts
    one worker with [recordcount = operationcount = 0] (the [serde]
    defaults), and no schedule ever brings the coordinator past the run
    phase: the default configuration never completes a benchmark. *)
Theorem main_defaults_never_complete :
  exists st, main load f64_of_literal rngs ["-p"; "workload=core"] = Started st /\
    d_props st = Client.mkClientProperties 0 0 /\ length (d_workers st) = 1%nat /\
    forall st', reachable st st' -> coord_after_run (d_coord st') = false.
Proof.
  exists (init_state (Client.mkClientProperties 0 0) 1 demo_workload globals_init rngs).
  split_and!; [vm_compute; reflexivity|done|done|].
  intros st' Hr. exact (zero_count_stuck (H:=StdBTreeMapMutex) (Client.mkClientProperties 0 0) 1 _ _ _ st'
           (or_introl eq_refl) Hr).
Qed.

(** C30: a [String] setting whose value reads as a number or a boolean
    cannot be given with [-p]: [-p table=123], [-p insertorder=true] and
    the like are coerced to a TOML integer, float or boolean, which the
    [String] field rejects, so [main] never starts the benchmark
    ([ConfigError] for [workload] and [db], a panic in
    [CoreWorkload::new] for the others). *)
Theorem string_setting_literal_rejected args t0 k v :
  parse_args load args = Some t0 -> k ∈ core_string_keys ++ workload_string_keys ->
  is_vstring (coerce v) = false ->
  started (main load f64_of_literal rngs (args ++ ["-p"; k +:+ "=" +:+ v])) = false.
Proof.
  intros Ha Hk Hv. change ("=" +:+ v) with (String "=" v).
  assert (Heq : has_eq k = false).
  { apply elem_of_app in Hk. unfold core_string_keys, workload_string_keys in Hk.
    rewrite !elem_of_cons, !elem_of_nil in Hk. by destruct_or! Hk; subst. }
  destruct (parse_args_snoc_override load args t0 k v Heq Ha) as (t' & Ha' & Hk').
  unfold main. rewrite Ha'. apply elem_of_app in Hk as [Hk|Hk].
  - by rewrite (core_properties_string_none t' k _ Hk' Hv Hk).
  - destruct (core_properties t'); [|done]. destruct (parse t'); [|done].
    destruct (String.eqb _ _); [|done]. unfold init_clients.
    by rewrite (workload_properties_string_none _ t' k _ Hk' Hv Hk).
Qed.

End Start.

(** ** Witnesses *)

Definition no_files (path : string) : option (gmap string Value) := None.
Definition zero_literal (lit : string) : PrimFloat.float := PrimFloat.zero.

Lemma main_reachable_inv_witness :
  dinv demo_workload ∅ (init_state (Client.mkClientProperties 0 0) 1 demo_workload globals_init demo_rngs).
Proof.
  exact (main_reachable_inv no_files zero_literal demo_rngs ["-p"; "workload=core"]
           (init_state (Client.mkClientProperties 0 0) 1 demo_workload globals_init demo_rngs)
           ltac:(intros path t H; discriminate H) ltac:(vm_compute; reflexivity) _ (rtc_refl _ _)).
Defined.

Lemma string_setting_literal_rejected_witness :
  started (main no_files zero_literal demo_rngs (["-p"; "workload=core"] ++ ["-p"; "table" +:+ "=" +:+ "123"]))
    = false.
Proof.
  apply (string_setting_literal_rejected no_files zero_literal demo_rngs ["-p"; "workload=core"]
           {[ "workload" := VString "core" ]} "table" "123").
  - vm_compute. reflexivity.
  - apply (bool_decide_unpack _). vm_compute. reflexivity.
  - vm_compute. reflexivity.
Defined.

End MainFacts.
